(** * IFRS Wise Advisor: session controller and result reconciler

    A shallow embedding of the React component [IFRSAdvisor] and of the
    properties its specification states about it.  The repository holds the
    component twice: [src/components/IFRSAdvisor.tsx] and a later, more
    talkative revision with a connection timer and close-code reporting
    ([part_001]).  Both are embedded, in the modules [IFRSAdvisor]
    and [Part001]; what the two files share textually (types, component
    state, [sortedAnswers], the editor callbacks) is embedded once. *)

From Stdlib Require Import List ZArith NArith Lia Bool String Ascii.
From Stdlib Require Import Permutation Sorted DecimalString.
Import ListNotations.
Open Scope Z_scope.

Set Implicit Arguments.

(** ** JavaScript strings

    A JavaScript string is a sequence of UTF-16 code units. *)

Definition jsstring := list N.

Definition code_unit (c : ascii) : N := N_of_ascii c.

Fixpoint lit (s : string) : jsstring :=
  match s with
  | EmptyString => []
  | String c s' => code_unit c :: lit s'
  end.

Arguments lit s%_string : simpl never.

(** [WhiteSpace] and [LineTerminator] of ECMAScript, the characters
    [String.prototype.trim] strips. *)
Definition is_white_space (c : N) : bool :=
  (existsb (N.eqb c)
     [9; 10; 11; 12; 13; 32; 160; 5760; 8232; 8233; 8239; 8287; 12288; 65279]
   || ((8192 <=? c) && (c <=? 8202)))%N.

Fixpoint trimStart (s : jsstring) : jsstring :=
  match s with
  | [] => []
  | c :: s' => if is_white_space c then trimStart s' else s
  end.

Definition trimEnd (s : jsstring) : jsstring := rev (trimStart (rev s)).

Definition trim (s : jsstring) : jsstring := trimEnd (trimStart s).

(** A string is truthy when it is not empty. *)
Definition truthy (s : jsstring) : bool :=
  match s with [] => false | _ :: _ => true end.

(** [Number.prototype.toString] on an integer. *)
Definition Number_toString (n : Z) : jsstring :=
  lit (NilEmpty.string_of_int (Z.to_int n)).

(** [a || b] on strings. *)
Definition or_else (a b : jsstring) : jsstring := if truthy a then a else b.

(** ** Arrays *)

Section JsArray.
Variable A : Type.

(** [Array.prototype.sort(cmp)]: a stable sort; [cmp a b <= 0] keeps [a]
    before [b].  Straight insertion from the right is one such sort. *)
Variable cmp : A -> A -> Z.

Fixpoint sort_insert (x : A) (l : list A) : list A :=
  match l with
  | [] => [x]
  | y :: l' => if cmp x y <=? 0 then x :: l else y :: sort_insert x l'
  end.

Definition Array_sort (l : list A) : list A :=
  fold_right sort_insert [] l.

(** [Array.prototype.map] and [filter] with the index argument. *)
Fixpoint mapi_from (B : Type) (f : A -> nat -> B) (i : nat) (l : list A)
  : list B :=
  match l with
  | [] => []
  | x :: l' => f x i :: mapi_from f (S i) l'
  end.

Definition Array_mapi (B : Type) (f : A -> nat -> B) (l : list A) : list B :=
  mapi_from f 0 l.

Fixpoint filteri_from (p : A -> nat -> bool) (i : nat) (l : list A)
  : list A :=
  match l with
  | [] => []
  | x :: l' =>
      if p x i then x :: filteri_from p (S i) l' else filteri_from p (S i) l'
  end.

Definition Array_filteri (p : A -> nat -> bool) (l : list A) : list A :=
  filteri_from p 0 l.

(** [a[i] = f(a[i])] on an array that has the index; nothing otherwise. *)
Fixpoint update_nth (i : nat) (f : A -> A) (l : list A) : list A :=
  match l, i with
  | [], _ => []
  | x :: l', O => f x :: l'
  | x :: l', S i' => x :: update_nth i' f l'
  end.
End JsArray.

(** ** JavaScript objects used as [Record<number, V>]

    An object is its list of own properties in creation order; a key occurs
    once.  Keys are the integers that [question_number] ranges over (the
    property key proper is the number's decimal string, and distinct
    integers have distinct strings). *)

Section JsObject.
Variable V : Type.

Definition JsObject := list (Z * V).

Fixpoint obj_get (k : Z) (o : JsObject) : option V :=
  match o with
  | [] => None
  | (k', v) :: o' => if k =? k' then Some v else obj_get k o'
  end.

(** [{ ...o, [k]: v }]: the copy keeps the order of [o]; an existing
    property keeps its place and takes the new value, a new one goes
    last. *)
Fixpoint obj_set (k : Z) (v : V) (o : JsObject) : JsObject :=
  match o with
  | [] => [(k, v)]
  | (k', v') :: o' =>
      if k =? k' then (k, v) :: o' else (k', v') :: obj_set k v o'
  end.

(** [Object.fromEntries]: the entries are defined left to right. *)
Definition Object_fromEntries (es : list (Z * V)) : JsObject :=
  fold_left (fun o e => obj_set (fst e) (snd e) o) es [].

(** Own property order ([OrdinaryOwnPropertyKeys]): the array-index keys,
    the integers from 0 to 2^32 - 2, come first in ascending order, the
    other keys follow in creation order. *)
Definition is_array_index (k : Z) : bool :=
  (0 <=? k) && (k <? 4294967295).

Definition Object_entries (o : JsObject) : list (Z * V) :=
  Array_sort (fun e e' => fst e - fst e')
    (filter (fun e => is_array_index (fst e)) o)
  ++ filter (fun e => negb (is_array_index (fst e))) o.

Definition Object_values (o : JsObject) : list V :=
  map snd (Object_entries o).
End JsObject.

(** ** Messages of the advisory service *)

Module AnswerMessage.
(** [interface AnswerMessage]; [sent_in_order] is the optional flag any
    message may carry (read through [data as any]), kept with the stored
    object. *)
Record t := make {
  question_number : Z;
  question : jsstring;
  answer : jsstring;
  timestamp : option jsstring;
  sent_in_order : option bool
}.
End AnswerMessage.

Module SummaryMessage.
Record t := make {
  summary : jsstring;
  timestamp : option jsstring;
  sent_in_order : option bool
}.
End SummaryMessage.

(** What [JSON.parse] hands to the message handler.  [Other] stands for
    every value whose [type] is neither ["answer"] nor ["summary"]; its
    argument is the [sent_in_order] property when that is a boolean.
    [Answer] and [Summary] stand for the objects of the service's
    contract: their fields have the types the interfaces [AnswerMessage]
    and [SummaryMessage] declare, which is what the casts in the handler
    take for granted.  The handler itself looks at nothing but [type]: an
    object with [type: "answer"] whose [question_number] is not an integer
    would be stored all the same, under the property key of whatever it
    holds (["undefined"] when it is missing), and would be compared as
    [NaN] by [sortedAnswers].  Such objects have no counterpart here, and
    what is proved of answers is proved of those the contract allows. *)
Inductive IncomingMessage :=
| Answer (msg : AnswerMessage.t)
| Summary (msg : SummaryMessage.t)
| Other (sent_in_order : option bool)
| Null.

(** [event.data]: text that [JSON.parse] rejects, or text that parses. *)
Inductive MessageData :=
| Unparsable (raw : jsstring)
| Parsable (data : IncomingMessage).

Record CloseEvent := {
  code : Z;
  reason : jsstring;
  wasClean : bool
}.

(** The request sent when the socket opens. *)
Record Payload := {
  payload_type : jsstring;
  payload_background : jsstring;
  payload_questions : list jsstring;
  payload_model : jsstring
}.

Record Toast := {
  title : jsstring;
  description : jsstring
}.

(** ** The browser side: sockets, timers, toasts, console *)

Inductive ReadyState := CONNECTING | OPEN | CLOSING | CLOSED.

Definition ReadyState_eqb (a b : ReadyState) : bool :=
  match a, b with
  | CONNECTING, CONNECTING | OPEN, OPEN | CLOSING, CLOSING | CLOSED, CLOSED =>
      true
  | _, _ => false
  end.

(** A socket with the variables its handlers close over: [background],
    [trimmedQuestions] and, in the later revision, [connectTimeout]. *)
Record WebSocket := {
  url : jsstring;
  readyState : ReadyState;
  sent : list Payload;
  close_dispatched : bool;
  captured_background : jsstring;
  captured_trimmedQuestions : list jsstring;
  captured_connectTimeout : option nat
}.

(** A timer of [window.setTimeout], armed for the socket it watches. *)
Record Timer := {
  timer_socket : nat;
  due : Z;
  cleared : bool;
  fired : bool
}.

Definition set_cleared (tm : Timer) : Timer :=
  {| timer_socket := timer_socket tm; due := due tm;
     cleared := true; fired := fired tm |}.

Definition set_fired (tm : Timer) : Timer :=
  {| timer_socket := timer_socket tm; due := due tm;
     cleared := cleared tm; fired := true |}.

Inductive Level := Ldebug | Linfo | Lwarn | Lerror | Lgroup | LgroupEnd.

(** ** Component state: the [useState] cells of [IFRSAdvisor] *)

Record State := {
  background : jsstring;
  questions : list jsstring;
  ws : option nat;
  sessionLoading : bool;
  answers : JsObject AnswerMessage.t;
  typing : JsObject bool;
  summary : option SummaryMessage.t;
  sentInOrder : option bool
}.

Record Sys := {
  state : State;
  sockets : list WebSocket;
  timers : list Timer;
  toasts : list Toast;
  console : list (Level * jsstring);
  now : Z
}.

(** [useState] initial values; nothing opened, shown or logged yet. *)
Definition initial_state : State :=
  {| background := []; questions := [[]]; ws := None;
     sessionLoading := false; answers := []; typing := [];
     summary := None; sentInOrder := None |}.

Definition initial : Sys :=
  {| state := initial_state; sockets := []; timers := []; toasts := [];
     console := []; now := 0 |}.

(** [sortedAnswers] (the [useMemo] over [answers]). *)
Definition sortedAnswers (s : State) : list AnswerMessage.t :=
  Array_sort
    (fun a b => AnswerMessage.question_number a - AnswerMessage.question_number b)
    (Object_values (answers s)).

(** The numbers whose typing bubble is rendered:
    [Object.entries(typing).filter(([, v]) => v).map(([key]) => ...)]. *)
Definition pendingNumbers (s : State) : list Z :=
  map fst (filter (fun e => snd e) (Object_entries (typing s))).

(** ** Handlers as computations over the system

    A handler runs to its end before the next event is taken up; it either
    returns or lets an exception escape.  State setters take the updater
    function; a plain new value is the constant updater. *)

Inductive Exn := SyntaxError | TypeError | InvalidStateError.

Inductive Outcome (A : Type) :=
| Returned (a : A)
| Thrown (e : Exn).
Arguments Thrown {A} e.

Definition M (A : Type) := Sys -> Outcome A * Sys.

Definition ret (A : Type) (a : A) : M A := fun σ => (Returned a, σ).

Definition throw (A : Type) (e : Exn) : M A := fun σ => (Thrown e, σ).
Arguments throw {A} e.

Definition bind (A B : Type) (m : M A) (k : A -> M B) : M B :=
  fun σ =>
    match m σ with
    | (Returned a, σ') => k a σ'
    | (Thrown e, σ') => (Thrown e, σ')
    end.

(** [try { body } catch (e) { handler }]. *)
Definition try_catch (A : Type) (body : M A) (handler : Exn -> M A) : M A :=
  fun σ =>
    match body σ with
    | (Returned a, σ') => (Returned a, σ')
    | (Thrown e, σ') => handler e σ'
    end.

Declare Scope js_scope.
Delimit Scope js_scope with js.
Notation "x <- m ;; k" := (bind m (fun x => k))
  (at level 61, m at next level, right associativity) : js_scope.
Notation "m ;; k" := (bind m (fun _ => k))
  (at level 61, right associativity) : js_scope.
Open Scope js_scope.

Definition skip : M unit := ret tt.

Definition run (m : M unit) (σ : Sys) : Sys := snd (m σ).

Definition with_state (f : State -> State) (σ : Sys) : Sys :=
  {| state := f (state σ); sockets := sockets σ; timers := timers σ;
     toasts := toasts σ; console := console σ; now := now σ |}.

Definition with_sockets (f : list WebSocket -> list WebSocket) (σ : Sys)
  : Sys :=
  {| state := state σ; sockets := f (sockets σ); timers := timers σ;
     toasts := toasts σ; console := console σ; now := now σ |}.

Definition with_timers (f : list Timer -> list Timer) (σ : Sys) : Sys :=
  {| state := state σ; sockets := sockets σ; timers := f (timers σ);
     toasts := toasts σ; console := console σ; now := now σ |}.

Definition with_now (f : Z -> Z) (σ : Sys) : Sys :=
  {| state := state σ; sockets := sockets σ; timers := timers σ;
     toasts := toasts σ; console := console σ; now := f (now σ) |}.

Definition with_toasts (f : list Toast -> list Toast) (σ : Sys) : Sys :=
  {| state := state σ; sockets := sockets σ; timers := timers σ;
     toasts := f (toasts σ); console := console σ; now := now σ |}.

Definition with_console
  (f : list (Level * jsstring) -> list (Level * jsstring)) (σ : Sys) : Sys :=
  {| state := state σ; sockets := sockets σ; timers := timers σ;
     toasts := toasts σ; console := f (console σ); now := now σ |}.

Definition read (A : Type) (f : State -> A) : M A :=
  fun σ => (Returned (f (state σ)), σ).

Definition update (f : State -> State) : M unit :=
  fun σ => (Returned tt, with_state f σ).

Definition setBackground (v : jsstring) : M unit :=
  update (fun s =>
    {| background := v; questions := questions s; ws := ws s;
       sessionLoading := sessionLoading s; answers := answers s;
       typing := typing s; summary := summary s;
       sentInOrder := sentInOrder s |}).

Definition setQuestions (f : list jsstring -> list jsstring) : M unit :=
  update (fun s =>
    {| background := background s; questions := f (questions s); ws := ws s;
       sessionLoading := sessionLoading s; answers := answers s;
       typing := typing s; summary := summary s;
       sentInOrder := sentInOrder s |}).

Definition setWs (v : option nat) : M unit :=
  update (fun s =>
    {| background := background s; questions := questions s; ws := v;
       sessionLoading := sessionLoading s; answers := answers s;
       typing := typing s; summary := summary s;
       sentInOrder := sentInOrder s |}).

Definition setSessionLoading (v : bool) : M unit :=
  update (fun s =>
    {| background := background s; questions := questions s; ws := ws s;
       sessionLoading := v; answers := answers s;
       typing := typing s; summary := summary s;
       sentInOrder := sentInOrder s |}).

Definition setAnswers
  (f : JsObject AnswerMessage.t -> JsObject AnswerMessage.t) : M unit :=
  update (fun s =>
    {| background := background s; questions := questions s; ws := ws s;
       sessionLoading := sessionLoading s; answers := f (answers s);
       typing := typing s; summary := summary s;
       sentInOrder := sentInOrder s |}).

Definition setTyping (f : JsObject bool -> JsObject bool) : M unit :=
  update (fun s =>
    {| background := background s; questions := questions s; ws := ws s;
       sessionLoading := sessionLoading s; answers := answers s;
       typing := f (typing s); summary := summary s;
       sentInOrder := sentInOrder s |}).

Definition setSummary (v : option SummaryMessage.t) : M unit :=
  update (fun s =>
    {| background := background s; questions := questions s; ws := ws s;
       sessionLoading := sessionLoading s; answers := answers s;
       typing := typing s; summary := v;
       sentInOrder := sentInOrder s |}).

Definition setSentInOrder (v : option bool) : M unit :=
  update (fun s =>
    {| background := background s; questions := questions s; ws := ws s;
       sessionLoading := sessionLoading s; answers := answers s;
       typing := typing s; summary := summary s;
       sentInOrder := v |}).

Definition toast (t : Toast) : M unit :=
  fun σ => (Returned tt, with_toasts (fun l => l ++ [t]) σ).

(** A [console] call, kept with the text of its first argument. *)
Definition console_log (l : Level) (text : jsstring) : M unit :=
  fun σ => (Returned tt, with_console (fun c => c ++ [(l, text)]) σ).

(** [new WebSocket(url)]; the result is the socket's place in [sockets]. *)
Definition connecting (u background : jsstring)
  (trimmedQuestions : list jsstring) : WebSocket :=
  {| url := u; readyState := CONNECTING; sent := [];
     close_dispatched := false;
     captured_background := background;
     captured_trimmedQuestions := trimmedQuestions;
     captured_connectTimeout := None |}.

Definition new_WebSocket (u background : jsstring)
  (trimmedQuestions : list jsstring) : M nat :=
  fun σ =>
    (Returned (List.length (sockets σ)),
     with_sockets
       (fun l => l ++ [connecting u background trimmedQuestions]) σ).

(** [socket.readyState]. *)
Definition socket_readyState (socket : nat) : M ReadyState :=
  fun σ =>
    (Returned match nth_error (sockets σ) socket with
              | Some w => readyState w
              | None => CLOSED
              end, σ).

Definition with_readyState (r : ReadyState) (w : WebSocket) : WebSocket :=
  {| url := url w; readyState := r; sent := sent w;
     close_dispatched := close_dispatched w;
     captured_background := captured_background w;
     captured_trimmedQuestions := captured_trimmedQuestions w;
     captured_connectTimeout := captured_connectTimeout w |}.

(** [socket.close()]: a socket that is connecting or open starts closing,
    one that is closing or closed stays as it is. *)
Definition socket_close (socket : nat) : M unit :=
  fun σ =>
    (Returned tt,
     with_sockets (update_nth socket (fun w =>
       match readyState w with
       | CONNECTING | OPEN => with_readyState CLOSING w
       | CLOSING | CLOSED => w
       end)) σ).

(** [socket.send(data)]: throws while connecting, transmits when open, and
    drops the data silently once closing or closed. *)
Definition socket_send (socket : nat) (p : Payload) : M unit :=
  fun σ =>
    match nth_error (sockets σ) socket with
    | Some w =>
        match readyState w with
        | CONNECTING => (Thrown InvalidStateError, σ)
        | OPEN =>
            (Returned tt,
             with_sockets (update_nth socket (fun w =>
               {| url := url w; readyState := readyState w;
                  sent := sent w ++ [p];
                  close_dispatched := close_dispatched w;
                  captured_background := captured_background w;
                  captured_trimmedQuestions := captured_trimmedQuestions w;
                  captured_connectTimeout := captured_connectTimeout w |})) σ)
        | CLOSING | CLOSED => (Returned tt, σ)
        end
    | None => (Returned tt, σ)
    end.

(** [window.setTimeout(callback, delay)] of a callback that watches
    [socket]; the result is the timer's place in [timers] (as a timer id it
    is a positive number, hence truthy). *)
Definition setTimeout (socket : nat) (delay : Z) : M nat :=
  fun σ =>
    (Returned (List.length (timers σ)),
     with_timers (fun l => l ++
       [{| timer_socket := socket; due := now σ + delay;
           cleared := false; fired := false |}]) σ).

Definition clearTimeout (t : nat) : M unit :=
  fun σ => (Returned tt, with_timers (update_nth t set_cleared) σ).

(** [connectTimeout = ...] in the scope the socket's handlers close over. *)
Definition assign_connectTimeout (socket : nat) (t : nat) : M unit :=
  fun σ =>
    (Returned tt,
     with_sockets (update_nth socket (fun w =>
       {| url := url w; readyState := readyState w; sent := sent w;
          close_dispatched := close_dispatched w;
          captured_background := captured_background w;
          captured_trimmedQuestions := captured_trimmedQuestions w;
          captured_connectTimeout := Some t |})) σ).

(** [JSON.parse(event.data)]. *)
Definition JSON_parse (d : MessageData) : M IncomingMessage :=
  match d with
  | Unparsable _ => throw SyntaxError
  | Parsable data => ret data
  end.

(** [(data as any).sent_in_order] under [typeof ... === "boolean"];
    reading a property of [null] throws. *)
Definition get_sent_in_order (data : IncomingMessage) : M (option bool) :=
  match data with
  | Answer msg => ret (AnswerMessage.sent_in_order msg)
  | Summary msg => ret (SummaryMessage.sent_in_order msg)
  | Other b => ret b
  | Null => throw TypeError
  end.

(** ** What both files share of the component *)

(** [questions.map((q) => q.trim()).filter((q) => q.length > 0)]. *)
Definition trimmedQuestions (questions : list jsstring) : list jsstring :=
  filter (fun q => (0 <? List.length q)%nat) (map (fun q => trim q) questions).

(** The typing map of a new session:
    [Object.fromEntries(trimmedQuestions.map((_, i) => [i + 1, true]))]. *)
Definition initial_typing (trimmedQuestions : list jsstring)
  : JsObject bool :=
  Object_fromEntries
    (Array_mapi (fun _ i => (Z.of_nat i + 1, true)) trimmedQuestions).


Definition addQuestion : M unit :=
  setQuestions (fun qs => qs ++ [[]]).

Definition removeQuestion (idx : nat) : M unit :=
  setQuestions (fun qs => Array_filteri (fun _ i => negb (i =? idx)%nat) qs).

Definition updateQuestion (idx : nat) (value : jsstring) : M unit :=
  setQuestions (fun qs =>
    Array_mapi (fun q i => if (i =? idx)%nat then value else q) qs).

(** ** Events

    What the user and the browser do to the component.  A socket event
    names the socket it belongs to; the handlers installed on that socket
    run with the variables of the [handleSubmit] call that created it. *)

Inductive Event :=
| Change_background (value : jsstring)
| Click_addQuestion
| Click_removeQuestion (idx : nat)
| Change_question (idx : nat) (value : jsstring)
| Click_submit
| Socket_open (socket : nat)
| Socket_message (socket : nat) (data : MessageData)
| Socket_error (socket : nat)
| Socket_close (socket : nat) (ev : CloseEvent)
| Timer_fires (timer : nat)
| Time_passes (ms : Z)
| Socket_closing (socket : nat).

Definition option_nat_eqb (a b : option nat) : bool :=
  match a, b with
  | Some x, Some y => (x =? y)%nat
  | None, None => true
  | _, _ => false
  end.

(** [useEffect(() => () => { ws?.close(); }, [ws])]: the clean-up runs with
    the socket of the previous render when [ws] has changed. *)
Definition useEffect_cleanup (ws : option nat) : M unit :=
  match ws with
  | Some socket => socket_close socket
  | None => skip
  end.

(** A handler followed by the render it causes.  An exception that escapes
    the handler ends it; the updates made before it stay. *)
Definition handle (handler : M unit) (σ : Sys) : Sys :=
  let σ' := run handler σ in
  if option_nat_eqb (ws (state σ)) (ws (state σ')) then σ'
  else run (useEffect_cleanup (ws (state σ))) σ'.

Definition mark_fired (t : nat) (σ : Sys) : Sys :=
  with_timers (update_nth t set_fired) σ.

Definition mark_closed (dispatched : bool) (socket : nat) (σ : Sys) : Sys :=
  with_sockets (update_nth socket (fun w =>
    {| url := url w; readyState := CLOSED; sent := sent w;
       close_dispatched := dispatched || close_dispatched w;
       captured_background := captured_background w;
       captured_trimmedQuestions := captured_trimmedQuestions w;
       captured_connectTimeout := captured_connectTimeout w |})) σ.

Section Browser.
(** The component's callbacks: the submit button's, the four a socket
    carries, and the connection timer's. *)
Variable handleSubmit : M unit.
Variable onopen : nat -> WebSocket -> M unit.
Variable onmessage : nat -> WebSocket -> MessageData -> M unit.
Variable onerror : nat -> WebSocket -> M unit.
Variable onclose : nat -> WebSocket -> CloseEvent -> M unit.
Variable timer_callback : nat -> M unit.

(** The next system after an event, or [None] when the browser cannot
    produce the event: [open] comes to a connecting socket, [message] to an
    open one, [error] to a socket not yet closed (it is closed when the
    handler runs, and [close] follows), [close] once to a socket, a timer
    once, when it is due and was not cleared.  When the server starts the
    closing handshake on an open socket the browser sets [readyState] to
    [CLOSING] in a task of its own, before the [close] event; no handler
    runs then. *)
Definition deliver (e : Event) (σ : Sys) : option Sys :=
  match e with
  | Change_background value => Some (handle (setBackground value) σ)
  | Click_addQuestion => Some (handle addQuestion σ)
  | Click_removeQuestion idx => Some (handle (removeQuestion idx) σ)
  | Change_question idx value => Some (handle (updateQuestion idx value) σ)
  | Click_submit => Some (handle handleSubmit σ)
  | Socket_open socket =>
      match nth_error (sockets σ) socket with
      | Some w =>
          if ReadyState_eqb (readyState w) CONNECTING then
            Some (handle (onopen socket w)
                    (with_sockets
                       (update_nth socket (with_readyState OPEN)) σ))
          else None
      | None => None
      end
  | Socket_message socket data =>
      match nth_error (sockets σ) socket with
      | Some w =>
          if ReadyState_eqb (readyState w) OPEN then
            Some (handle (onmessage socket w data) σ)
          else None
      | None => None
      end
  | Socket_error socket =>
      match nth_error (sockets σ) socket with
      | Some w =>
          if ReadyState_eqb (readyState w) CLOSED then None
          else Some (handle (onerror socket w) (mark_closed false socket σ))
      | None => None
      end
  | Socket_close socket ev =>
      match nth_error (sockets σ) socket with
      | Some w =>
          if close_dispatched w then None
          else Some (handle (onclose socket w ev) (mark_closed true socket σ))
      | None => None
      end
  | Timer_fires t =>
      match nth_error (timers σ) t with
      | Some tm =>
          if negb (cleared tm) && negb (fired tm) && (due tm <=? now σ) then
            Some (handle (timer_callback (timer_socket tm)) (mark_fired t σ))
          else None
      | None => None
      end
  | Time_passes ms =>
      if 0 <=? ms then Some (with_now (fun t => t + ms) σ) else None
  | Socket_closing socket =>
      match nth_error (sockets σ) socket with
      | Some w =>
          if ReadyState_eqb (readyState w) OPEN then
            Some (with_sockets
                    (update_nth socket (with_readyState CLOSING)) σ)
          else None
      | None => None
      end
  end.

End Browser.

(** A run of events, each of which the browser can produce. *)
Fixpoint deliver_all (deliver : Event -> Sys -> option Sys)
  (es : list Event) (σ : Sys) : option Sys :=
  match es with
  | [] => Some σ
  | e :: es' =>
      match deliver e σ with
      | Some σ' => deliver_all deliver es' σ'
      | None => None
      end
  end.

(** The systems a run of events leads to from the first render. *)
Definition Reachable (deliver : Event -> Sys -> option Sys) (σ : Sys)
  : Prop :=
  exists es, deliver_all deliver es initial = Some σ.

(** ** [src/components/IFRSAdvisor.tsx] *)

Module IFRSAdvisor.

Definition handleSubmit : M unit :=
  bg <- read background ;;
  qs <- read questions ;;
  let trimmedQuestions := trimmedQuestions qs in
  if negb (truthy (trim bg)) then
    toast {| title := lit "Background is required";
             description := lit "Please describe your IFRS scenario." |}
  else if (List.length trimmedQuestions =? 0)%nat then
    toast {| title := lit "Add at least one question";
             description := lit "Please include one or more questions." |}
  else
    (* Reset state for new session *)
    setAnswers (fun _ => []) ;;
    setTyping (fun _ => initial_typing trimmedQuestions) ;;
    setSummary None ;;
    setSentInOrder None ;;
    setSessionLoading true ;;
    socket <- new_WebSocket (lit "wss://104.248.169.227:8443/ws/rag/")
                bg trimmedQuestions ;;
    setWs (Some socket).

Definition onopen (socket : nat) (scope : WebSocket) : M unit :=
  let payload :=
    {| payload_type := lit "process_questions";
       payload_background := trim (captured_background scope);
       payload_questions := captured_trimmedQuestions scope;
       payload_model := lit "gpt-4o-mini" |} in
  socket_send socket payload.

Definition onmessage (socket : nat) (scope : WebSocket) (event : MessageData)
  : M unit :=
  try_catch
    (data <- JSON_parse event ;;
     flag <- get_sent_in_order data ;;
     match flag with
     | Some b => setSentInOrder (Some b)
     | None => skip
     end ;;
     match data with
     | Answer msg =>
         setAnswers (fun prev =>
           obj_set (AnswerMessage.question_number msg) msg prev) ;;
         setTyping (fun t =>
           obj_set (AnswerMessage.question_number msg) false t)
     | Summary msg =>
         setSummary (Some msg) ;;
         setSessionLoading false
     | Other _ | Null => skip
     end)
    (fun e => console_log Lerror (lit "Failed to parse message")).

Definition onerror (socket : nat) (scope : WebSocket) : M unit :=
  setSessionLoading false ;;
  toast {| title := lit "Connection error";
           description :=
             lit "Could not connect to IFRS Advisor. Please try again." |}.

Definition onclose (socket : nat) (scope : WebSocket) (ev : CloseEvent)
  : M unit :=
  setSessionLoading false.

(** This file arms no timer. *)
Definition deliver : Event -> Sys -> option Sys :=
  deliver handleSubmit onopen onmessage onerror onclose (fun _ => skip).

Definition deliver_all : list Event -> Sys -> option Sys :=
  deliver_all deliver.

End IFRSAdvisor.

(** ** [part_001]: the revision with diagnostics, a connection timer and
    close-code reporting *)

Module Part001.

Definition WS_URL : jsstring := lit "wss://104.248.169.227:8443/ws/rag/".

(** The callback given to [window.setTimeout] in [handleSubmit]. *)
Definition connectTimeout_callback (socket : nat) : M unit :=
  rs <- socket_readyState socket ;;
  if ReadyState_eqb rs CONNECTING then
    console_log Lerror (lit "[IFRS WS] Connection timeout after 10s") ;;
    try_catch (socket_close socket) (fun _ => skip) ;;
    setSessionLoading false ;;
    toast {| title := lit "Connection timeout";
             description :=
               lit "Could not establish a secure WebSocket within 10s. Check TLS/cert or server availability." |} ;;
    console_log LgroupEnd []
  else skip.

Definition handleSubmit : M unit :=
  bg <- read background ;;
  qs <- read questions ;;
  let trimmedQuestions := trimmedQuestions qs in
  if negb (truthy (trim bg)) then
    toast {| title := lit "Background is required";
             description := lit "Please describe your IFRS scenario." |}
  else if (List.length trimmedQuestions =? 0)%nat then
    toast {| title := lit "Add at least one question";
             description := lit "Please include one or more questions." |}
  else
    (* Reset state for new session *)
    setAnswers (fun _ => []) ;;
    setTyping (fun _ => initial_typing trimmedQuestions) ;;
    setSummary None ;;
    setSentInOrder None ;;
    setSessionLoading true ;;
    (* Verbose diagnostics *)
    console_log Lgroup (lit "[IFRS WS] New session") ;;
    console_log Linfo (lit "[IFRS WS] Preparing to connect") ;;
    socket <- new_WebSocket WS_URL bg trimmedQuestions ;;
    setWs (Some socket) ;;
    console_log Linfo
      (lit "[IFRS WS] Connecting" ++ [8230%N] ++ lit " readyState:") ;;
    (* Timeout if connection hangs *)
    connectTimeout <- setTimeout socket 10000 ;;
    assign_connectTimeout socket connectTimeout.

(** [if (connectTimeout) clearTimeout(connectTimeout)]. *)
Definition clear_connectTimeout (scope : WebSocket) : M unit :=
  match captured_connectTimeout scope with
  | Some connectTimeout => clearTimeout connectTimeout
  | None => skip
  end.

Definition onopen (socket : nat) (scope : WebSocket) : M unit :=
  clear_connectTimeout scope ;;
  console_log Linfo (lit "[IFRS WS] Connected (onopen). readyState:") ;;
  let payload :=
    {| payload_type := lit "process_questions";
       payload_background := trim (captured_background scope);
       payload_questions := captured_trimmedQuestions scope;
       payload_model := lit "gpt-4o-mini" |} in
  try_catch
    (console_log Ldebug (lit "[IFRS WS] Sending payload:") ;;
     socket_send socket payload ;;
     console_log Linfo (lit "[IFRS WS] Payload sent successfully"))
    (fun err =>
       console_log Lerror (lit "[IFRS WS] Failed to send payload") ;;
       setSessionLoading false ;;
       toast {| title := lit "Send failed";
                description :=
                  lit "Payload could not be sent. See console for details." |}).

Definition onmessage (socket : nat) (scope : WebSocket) (event : MessageData)
  : M unit :=
  console_log Ldebug (lit "[IFRS WS] onmessage raw:") ;;
  try_catch
    (data <- JSON_parse event ;;
     flag <- get_sent_in_order data ;;
     match flag with
     | Some b => setSentInOrder (Some b)
     | None => skip
     end ;;
     match data with
     | Answer msg =>
         console_log Ldebug (lit "[IFRS WS] Answer received") ;;
         setAnswers (fun prev =>
           obj_set (AnswerMessage.question_number msg) msg prev) ;;
         setTyping (fun t =>
           obj_set (AnswerMessage.question_number msg) false t)
     | Summary msg =>
         console_log Ldebug (lit "[IFRS WS] Summary received") ;;
         setSummary (Some msg) ;;
         setSessionLoading false ;;
         console_log LgroupEnd []
     | Other _ | Null =>
         console_log Lwarn (lit "[IFRS WS] Unknown message type")
     end)
    (fun e => console_log Lerror (lit "[IFRS WS] Failed to parse message")).

Definition onerror (socket : nat) (scope : WebSocket) : M unit :=
  clear_connectTimeout scope ;;
  console_log Lerror (lit "[IFRS WS] onerror fired") ;;
  setSessionLoading false ;;
  toast {| title := lit "Connection error";
           description :=
             lit "WebSocket error occurred. Common causes: TLS certificate mismatch (IP vs domain), firewall, or server down." |}.
  (* Keep group open; onclose may follow *)

Definition onclose (socket : nat) (scope : WebSocket) (ev : CloseEvent)
  : M unit :=
  clear_connectTimeout scope ;;
  console_log Lwarn (lit "[IFRS WS] onclose") ;;
  setSessionLoading false ;;
  (if negb (code ev =? 1000) then
     toast {| title :=
                lit "Connection closed (" ++ Number_toString (code ev)
                ++ lit ")";
              description :=
                or_else (reason ev)
                  (lit "The connection was closed unexpectedly. See console for diagnostics.") |}
   else skip) ;;
  console_log LgroupEnd [].

Definition deliver : Event -> Sys -> option Sys :=
  deliver handleSubmit onopen onmessage onerror onclose
    connectTimeout_callback.

Definition deliver_all : list Event -> Sys -> option Sys :=
  deliver_all deliver.

End Part001.

(** ** Vocabulary of the properties *)

Definition socket_state (socket : nat) (σ : Sys) : option ReadyState :=
  option_map readyState (nth_error (sockets σ) socket).

(** A well-formed answer message arriving on [socket]. *)
Definition answer_event (socket : nat) (msg : AnswerMessage.t) : Event :=
  Socket_message socket (Parsable (Answer msg)).

(** How far a socket has got; it never goes back. *)
Definition rank (r : ReadyState) : nat :=
  match r with CONNECTING => 0 | OPEN => 1 | CLOSING => 2 | CLOSED => 3 end.

(** A socket that is closing ([close()] was called on it, or the server
    has started the closing handshake) or closed. *)
Definition shut (socket : nat) (σ : Sys) : bool :=
  match socket_state socket σ with
  | Some CLOSING | Some CLOSED => true
  | _ => false
  end.

(** Every socket of [l] is still there in [l'], no further back. *)
Definition advances (l l' : list WebSocket) : Prop :=
  forall s w,
    nth_error l s = Some w ->
    exists w',
      nth_error l' s = Some w'
      /\ (rank (readyState w) <= rank (readyState w'))%nat.

(** The cells of the component that a session's results live in. *)
Definition same_results (s s' : State) : Prop :=
  answers s' = answers s /\ typing s' = typing s
  /\ summary s' = summary s /\ sentInOrder s' = sentInOrder s.

(** The socket an event belongs to. *)
Definition event_socket (e : Event) : option nat :=
  match e with
  | Socket_open s | Socket_message s _ | Socket_error s | Socket_close s _
  | Socket_closing s =>
      Some s
  | _ => None
  end.

(** The comparator [(a, b) => key(a) - key(b)] and the order it sorts
    into. *)
Definition by_key (A : Type) (key : A -> Z) (a b : A) : Z := key a - key b.
Definition le_key (A : Type) (key : A -> Z) (a b : A) : Prop :=
  key a <= key b.

(** Every property of [answers] is keyed by the number of the message it
    holds, and no object has a key twice. *)
Definition well_keyed (s : State) : Prop :=
  NoDup (map fst (answers s))
  /\ Forall (fun e => AnswerMessage.question_number (snd e) = fst e)
       (answers s)
  /\ NoDup (map fst (typing s)).

(** The numbers 1..N. *)
Definition numbers (N : nat) : list Z := map Z.of_nat (seq 1 N).

(** The question numbers answered in a run of events. *)
Fixpoint answered (es : list Event) : list Z :=
  match es with
  | [] => []
  | Socket_message _ (Parsable (Answer msg)) :: es' =>
      AnswerMessage.question_number msg :: answered es'
  | _ :: es' => answered es'
  end.

Definition is_submit (e : Event) : bool :=
  match e with Click_submit => true | _ => false end.

(** The component state [handleSubmit] sets up for a new session on
    [socket]. *)
Definition fresh_session (s : State) (socket : nat) : State :=
  {| background := background s; questions := questions s;
     ws := Some socket; sessionLoading := true; answers := [];
     typing := initial_typing (trimmedQuestions (questions s));
     summary := None; sentInOrder := None |}.

(** The two validation errors, as the toasts [handleSubmit] shows. *)
Definition EmptyBackground : Toast :=
  {| title := lit "Background is required";
     description := lit "Please describe your IFRS scenario." |}.

Definition NoQuestions : Toast :=
  {| title := lit "Add at least one question";
     description := lit "Please include one or more questions." |}.

(** The inputs [handleSubmit] lets through. *)
Definition valid_input (s : State) : bool :=
  truthy (trim (background s))
  && negb (List.length (trimmedQuestions (questions s)) =? 0)%nat.

(** What the connection timer depends on in a socket: its state and the
    timer its handlers close over. *)
Definition view (w : WebSocket) : ReadyState * option nat :=
  (readyState w, captured_connectTimeout w).

Definition views (σ : Sys) : list (ReadyState * option nat) :=
  map view (sockets σ).

(** A timer that may still fire. *)
Definition pending (t : nat) (σ : Sys) : bool :=
  match nth_error (timers σ) t with
  | Some tm => negb (cleared tm) && negb (fired tm)
  | None => false
  end.

(** Timer [t] watches the existing socket [s], is due at [D], is pending
    for as long as [s] is connecting, and is the timer of no other
    socket. *)
Definition watches_on (tms : list Timer) (vs : list (ReadyState * option nat))
  (t s : nat) (D : Z) : Prop :=
  (exists tm, nth_error tms t = Some tm
              /\ timer_socket tm = s /\ due tm = D
              /\ (option_map fst (nth_error vs s) = Some CONNECTING ->
                  cleared tm = false /\ fired tm = false))
  /\ (s < List.length vs)%nat
  /\ (forall s' v, nth_error vs s' = Some v -> snd v = Some t -> s' = s).

Definition watches (t s : nat) (D : Z) (σ : Sys) : Prop :=
  watches_on (timers σ) (views σ) t s D.

(** Every timer a socket refers to exists. *)
Definition timers_known (tms : list Timer)
  (vs : list (ReadyState * option nat)) : Prop :=
  forall s v t,
    nth_error vs s = Some v -> snd v = Some t -> (t < List.length tms)%nat.

Definition clear (o : option nat) (tms : list Timer) : list Timer :=
  match o with
  | Some t => update_nth t set_cleared tms
  | None => tms
  end.

Definition close_view (v : ReadyState * option nat)
  : ReadyState * option nat :=
  match fst v with
  | CONNECTING | OPEN => (CLOSING, snd v)
  | CLOSING | CLOSED => v
  end.

Definition connecting_at (s : nat) (vs : list (ReadyState * option nat))
  : bool :=
  match nth_error vs s with
  | Some (CONNECTING, _) => true
  | _ => false
  end.

(** What one event of the later revision does to the timers and to the
    sockets as the timers see them: nothing; a socket settles (it opens or
    closes) and its timer is cleared; a timer fires and closes its socket
    if that is still connecting; a submission adds a socket and its timer
    and closes the socket before; the server starts closing an open
    socket. *)
Inductive TimerStep :
  list Timer * list (ReadyState * option nat) ->
  list Timer * list (ReadyState * option nat) -> Prop :=
| step_same tms vs : TimerStep (tms, vs) (tms, vs)
| step_settled tms vs s0 v0 r :
    nth_error vs s0 = Some v0 -> r <> CONNECTING ->
    TimerStep (tms, vs)
      (clear (snd v0) tms, update_nth s0 (fun v => (r, snd v)) vs)
| step_fired tms vs t0 tm0 :
    nth_error tms t0 = Some tm0 ->
    TimerStep (tms, vs)
      (update_nth t0 set_fired tms,
       if connecting_at (timer_socket tm0) vs
       then update_nth (timer_socket tm0) (fun v => (CLOSING, snd v)) vs
       else vs)
| step_submitted tms vs old D :
    TimerStep (tms, vs)
      (tms ++ [{| timer_socket := List.length vs; due := D;
                  cleared := false; fired := false |}],
       match old with
       | Some o =>
           update_nth o close_view
             (vs ++ [(CONNECTING, Some (List.length tms))])
       | None => vs ++ [(CONNECTING, Some (List.length tms))]
       end)
| step_closing tms vs s0 :
    option_map fst (nth_error vs s0) = Some OPEN ->
    TimerStep (tms, vs)
      (tms, update_nth s0 (fun v => (CLOSING, snd v)) vs).

(** The component state with the awaiting indicator off and nothing else
    changed. *)
Definition awaiting_off (s : State) : State :=
  {| background := background s; questions := questions s; ws := ws s;
     sessionLoading := false; answers := answers s; typing := typing s;
     summary := summary s; sentInOrder := sentInOrder s |}.

(** The toasts of the later revision's timer and of its [onerror] and
    [onclose]. *)
Definition ConnectionTimeout : Toast :=
  {| title := lit "Connection timeout";
     description :=
       lit "Could not establish a secure WebSocket within 10s. Check TLS/cert or server availability." |}.

Definition ConnectionError : Toast :=
  {| title := lit "Connection error";
     description :=
       lit "WebSocket error occurred. Common causes: TLS certificate mismatch (IP vs domain), firewall, or server down." |}.

Definition ConnectionClosed (ev : CloseEvent) : Toast :=
  {| title :=
       lit "Connection closed (" ++ Number_toString (code ev) ++ lit ")";
     description :=
       or_else (reason ev)
         (lit "The connection was closed unexpectedly. See console for diagnostics.") |}.

(** ** A session to try things on

    The form filled in with a lease scenario and two questions, and the
    service's messages for it. *)

Definition lease_form : list Event :=
  [Change_background (lit "Lease classification for Co A");
   Change_question 0 (lit "Is this a finance lease?");
   Click_addQuestion;
   Change_question 1 (lit "What discount rate applies?")].

Definition lease_answer_1 : AnswerMessage.t :=
  AnswerMessage.make 1 (lit "Is this a finance lease?")
    (lit "Yes, substantially all risks and rewards transfer.") None None.

Definition lease_answer_2 : AnswerMessage.t :=
  AnswerMessage.make 2 (lit "What discount rate applies?")
    (lit "The rate implicit in the lease.") None (Some false).

Definition lease_answer_2_revised : AnswerMessage.t :=
  AnswerMessage.make 2 (lit "What discount rate applies?")
    (lit "The incremental borrowing rate, if the implicit rate is unknown.")
    None None.

Definition stray_answer : AnswerMessage.t :=
  AnswerMessage.make 0 (lit "?") (lit "An answer nobody asked for.") None None.

Definition lease_summary : SummaryMessage.t :=
  SummaryMessage.make (lit "## Summary") None None.

Definition abnormal_closure : CloseEvent :=
  {| code := 1006; reason := []; wasClean := false |}.

Definition normal_closure : CloseEvent :=
  {| code := 1000; reason := []; wasClean := true |}.

(** The form as typed, before the button is pressed. *)
Definition lease_typed (deliver : Event -> Sys -> option Sys) : Sys :=
  match deliver_all deliver lease_form initial with
  | Some σ => σ
  | None => initial
  end.

(** The session submitted and its socket open. *)
Definition lease_open (deliver : Event -> Sys -> option Sys) : Sys :=
  match
    deliver_all deliver (lease_form ++ [Click_submit; Socket_open 0]) initial
  with
  | Some σ => σ
  | None => initial
  end.

(** ** Vocabulary of the further properties *)

(** The request [onopen] builds from the variables it closes over. *)
Definition payload_of (w : WebSocket) : Payload :=
  {| payload_type := lit "process_questions";
     payload_background := trim (captured_background w);
     payload_questions := captured_trimmedQuestions w;
     payload_model := lit "gpt-4o-mini" |}.

(** A socket once it has opened and its request has gone out. *)
Definition opened (w : WebSocket) : WebSocket :=
  {| url := url w; readyState := OPEN; sent := sent w ++ [payload_of w];
     close_dispatched := close_dispatched w;
     captured_background := captured_background w;
     captured_trimmedQuestions := captured_trimmedQuestions w;
     captured_connectTimeout := captured_connectTimeout w |}.

(** The events of the form: typing and the add and remove buttons. *)
Definition is_edit (e : Event) : bool :=
  match e with
  | Change_background _ | Click_addQuestion | Click_removeQuestion _
  | Change_question _ _ => true
  | _ => false
  end.

(** A string with no white space at either end. *)
Definition trimmed (s : jsstring) : Prop :=
  match s with
  | [] => True
  | c :: _ => is_white_space c = false /\ is_white_space (last s c) = false
  end.

(** What a socket holds of the request: inputs that passed validation, and
    the request itself at most once, never before the socket has opened. *)
Definition request_ok (w : WebSocket) : Prop :=
  trim (captured_background w) <> []
  /\ captured_trimmedQuestions w <> []
  /\ Forall (fun q => q <> [] /\ trimmed q) (captured_trimmedQuestions w)
  /\ (sent w = [] \/ sent w = [payload_of w])
  /\ (readyState w = CONNECTING -> sent w = []).

(** The [sent_in_order] flag a message event carries, when it is a
    boolean. *)
Definition event_flag (e : Event) : option bool :=
  match e with
  | Socket_message _ (Parsable (Answer msg)) => AnswerMessage.sent_in_order msg
  | Socket_message _ (Parsable (Summary msg)) =>
      SummaryMessage.sent_in_order msg
  | Socket_message _ (Parsable (Other b)) => b
  | _ => None
  end.

(** The ordering hint after a run of events: the last flag carried. *)
Definition hint_after (es : list Event) (h : option bool) : option bool :=
  fold_left
    (fun h e => match event_flag e with Some b => Some b | None => h end)
    es h.

(** The record for number [k] after a run of events: the last answer
    message for [k], or what was there before. *)
Fixpoint latest (k : Z) (es : list Event) (before : option AnswerMessage.t)
  : option AnswerMessage.t :=
  match es with
  | [] => before
  | Socket_message _ (Parsable (Answer msg)) :: es' =>
      latest k es'
        (if k =? AnswerMessage.question_number msg then Some msg else before)
  | _ :: es' => latest k es' before
  end.

(** The events with which the browser reports that a socket failed or
    closed. *)
Definition is_failure (e : Event) : bool :=
  match e with
  | Socket_error _ | Socket_close _ _ => true
  | _ => false
  end.

(** The strict order a key sorts into. *)
Definition lt_key (A : Type) (key : A -> Z) (a b : A) : Prop :=
  key a < key b.

(** The typing flags that are on, in the order in which they were
    created, are in ascending order of their numbers, and their numbers
    are at least 1. *)
Definition typing_in_order (t : JsObject bool) : Prop :=
  StronglySorted (lt_key (@fst Z bool)) (filter (fun e => snd e) t)
  /\ Forall (fun e => snd e = true -> 1 <= fst e) t.

(** One socket at most is in use: [ws] is the socket created last, and
    every other socket has been closed. *)
Definition one_transport (σ : Sys) : Prop :=
  match ws (state σ) with
  | None => sockets σ = []
  | Some s => S s = List.length (sockets σ)
  end
  /\ forall s, (s < List.length (sockets σ))%nat ->
               ws (state σ) <> Some s -> shut s σ = true.

(** * Properties *)

(** ** Sorting by a key *)

Section SortByKey.
Variable A : Type.
Variable key : A -> Z.

Local Abbreviation by_key := (by_key key).
Local Abbreviation le_key := (le_key key).

Lemma sort_insert_perm (cmp : A -> A -> Z) x l :
  Permutation (sort_insert cmp x l) (x :: l).
Proof.
  induction l as [|y l IH]; simpl; [reflexivity|].
  destruct (cmp x y <=? 0); [reflexivity|].
  rewrite IH. apply perm_swap.
Qed.

Lemma Array_sort_perm (cmp : A -> A -> Z) l :
  Permutation (Array_sort cmp l) l.
Proof.
  induction l as [|x l IH]; simpl; [constructor|].
  rewrite sort_insert_perm. now constructor.
Qed.

Lemma sort_insert_sorted x l :
  Sorted le_key l -> Sorted le_key (sort_insert by_key x l).
Proof.
  induction 1 as [|y l Hs IH Hhd]; simpl.
  - repeat constructor.
  - unfold by_key at 1. destruct (Z.leb_spec (key x - key y) 0) as [Hle|Hgt].
    + constructor; [now constructor|]. constructor. unfold le_key. lia.
    + constructor; [exact IH|].
      destruct Hhd as [|z l Hyz]; simpl.
      * constructor. unfold le_key. lia.
      * unfold by_key. destruct (key x - key z <=? 0);
          constructor; unfold le_key in *; lia.
Qed.

Lemma Array_sort_sorted l : Sorted le_key (Array_sort by_key l).
Proof.
  induction l as [|x l IH]; simpl; [constructor|].
  now apply sort_insert_sorted.
Qed.

Lemma le_key_trans : Relations_1.Transitive le_key.
Proof. intros a b c. unfold le_key. lia. Qed.

Lemma Array_sort_strongly_sorted l :
  StronglySorted le_key (Array_sort by_key l).
Proof.
  apply Sorted_StronglySorted; [exact le_key_trans|apply Array_sort_sorted].
Qed.

Lemma key_inj_in l a b :
  NoDup (map key l) -> In a l -> In b l -> key a = key b -> a = b.
Proof.
  induction l as [|x l IH]; simpl; [tauto|].
  intros Hnd Ha Hb Hk. inversion Hnd as [|? ? Hx Hnd']; subst.
  destruct Ha as [->|Ha], Hb as [->|Hb]; auto.
  - exfalso. apply Hx. rewrite Hk. now apply in_map.
  - exfalso. apply Hx. rewrite <- Hk. now apply in_map.
Qed.

(** Two ascending arrangements of the same records coincide when no two
    records share a key. *)
Lemma sorted_perm_unique l1 :
  forall l2,
    StronglySorted le_key l1 -> StronglySorted le_key l2 ->
    Permutation l1 l2 -> NoDup (map key l1) -> l1 = l2.
Proof.
  induction l1 as [|x l1 IH]; intros l2 H1 H2 Hp Hnd.
  - apply Permutation_nil in Hp. now subst.
  - destruct l2 as [|y l2].
    + apply Permutation_sym, Permutation_nil in Hp. discriminate.
    + inversion H1 as [|? ? H1' Hx]; subst.
      inversion H2 as [|? ? H2' Hy]; subst.
      assert (Hyin : In y (x :: l1)).
      { apply Permutation_in with (y :: l2);
          [now apply Permutation_sym|now left]. }
      assert (Hxin : In x (y :: l2)).
      { apply Permutation_in with (x :: l1); [exact Hp|now left]. }
      assert (Hxy : key x <= key y).
      { destruct Hyin as [->|Hyin]; [lia|].
        rewrite Forall_forall in Hx. now apply Hx. }
      assert (Hyx : key y <= key x).
      { destruct Hxin as [->|Hxin]; [lia|].
        rewrite Forall_forall in Hy. now apply Hy. }
      assert (x = y) as <-.
      { apply key_inj_in with (x :: l1); auto; [now left|lia]. }
      f_equal. apply Permutation_cons_inv in Hp.
      inversion Hnd; subst. now apply IH.
Qed.
End SortByKey.

(** ** Objects *)

Section ObjectFacts.
Variable V : Type.
Implicit Types (o : JsObject V) (k j : Z) (v : V).

Lemma obj_get_set k v o j :
  obj_get j (obj_set k v o) = if j =? k then Some v else obj_get j o.
Proof.
  induction o as [|[k' v'] o IH]; simpl.
  - destruct (j =? k); reflexivity.
  - destruct (Z.eqb_spec k k') as [->|Hk]; simpl.
    + destruct (j =? k'); reflexivity.
    + rewrite IH. destruct (Z.eqb_spec j k') as [->|Hj]; [|reflexivity].
      destruct (Z.eqb_spec k' k); [congruence|reflexivity].
Qed.

Lemma obj_set_present k v o :
  In k (map fst o) -> map fst (obj_set k v o) = map fst o.
Proof.
  induction o as [|[k' v'] o IH]; simpl; [tauto|].
  intros Hin. destruct (Z.eqb_spec k k') as [->|Hk]; simpl; [reflexivity|].
  f_equal. apply IH. destruct Hin; [congruence|assumption].
Qed.

Lemma obj_set_absent k v o :
  ~ In k (map fst o) -> obj_set k v o = o ++ [(k, v)].
Proof.
  induction o as [|[k' v'] o IH]; simpl; [reflexivity|].
  intros Hin. destruct (Z.eqb_spec k k') as [->|Hk]; [tauto|].
  f_equal. apply IH. tauto.
Qed.

Lemma obj_set_keys_nodup k v o :
  NoDup (map fst o) -> NoDup (map fst (obj_set k v o)).
Proof.
  intros Hnd. destruct (in_dec Z.eq_dec k (map fst o)) as [Hin|Hout].
  - now rewrite obj_set_present.
  - rewrite obj_set_absent by assumption. rewrite map_app. simpl.
    apply NoDup_app; [assumption|repeat constructor; simpl; tauto|].
    intros x Hx [<-|[]]. tauto.
Qed.

Lemma obj_set_in k v o j x :
  NoDup (map fst o) ->
  In (j, x) (obj_set k v o) <->
  (j = k /\ x = v) \/ (j <> k /\ In (j, x) o).
Proof.
  induction o as [|[k' v'] o IH]; simpl; intros Hnd.
  - split; [intros [H|[]]; inversion H; auto|].
    intros [[-> ->]|[_ []]]. now left.
  - inversion Hnd as [|? ? Hk' Hnd']; subst.
    destruct (Z.eqb_spec k k') as [->|Hk]; simpl.
    + split.
      * intros [H|H]; [inversion H; auto|].
        right. split; [|now right]. intros ->. apply Hk'.
        change k' with (fst (k', x)). now apply in_map.
      * intros [[-> ->]|[Hj [H|H]]]; [now left| |now right].
        inversion H; congruence.
    + rewrite (IH Hnd'). split.
      * intros [H|[H|[Hj H]]]; [inversion H; subst; right; auto|auto|auto].
      * intros [H|[Hj [H|H]]]; auto.
Qed.

Lemma obj_set_twice k v1 v2 o :
  obj_set k v2 (obj_set k v1 o) = obj_set k v2 o.
Proof.
  induction o as [|[k' v'] o IH]; simpl.
  - now rewrite Z.eqb_refl.
  - destruct (Z.eqb_spec k k') as [->|Hk]; simpl.
    + now rewrite Z.eqb_refl.
    + destruct (Z.eqb_spec k k'); [contradiction|]. now rewrite IH.
Qed.

Lemma obj_get_in k v o : obj_get k o = Some v -> In (k, v) o.
Proof.
  induction o as [|[k' v'] o IH]; simpl; [discriminate|].
  destruct (Z.eqb_spec k k') as [->|Hk]; [|auto].
  intros [= ->]. now left.
Qed.

Lemma in_obj_get k v o :
  NoDup (map fst o) -> In (k, v) o -> obj_get k o = Some v.
Proof.
  induction o as [|[k' v'] o IH]; simpl; [tauto|].
  intros Hnd [H|H]; inversion Hnd as [|? ? Hk' Hnd']; subst.
  - inversion H; subst. now rewrite Z.eqb_refl.
  - destruct (Z.eqb_spec k k') as [->|Hk]; [|auto].
    exfalso. apply Hk'. change k' with (fst (k', v)). now apply in_map.
Qed.

Lemma filter_split_perm (A : Type) (f : A -> bool) (l : list A) :
  Permutation (filter f l ++ filter (fun x => negb (f x)) l) l.
Proof.
  induction l as [|x l IH]; simpl; [constructor|].
  destruct (f x); simpl.
  - now constructor.
  - apply Permutation_sym, Permutation_cons_app. now apply Permutation_sym.
Qed.

(** The own properties, in whatever order they are enumerated. *)
Lemma Object_entries_perm o : Permutation (Object_entries o) o.
Proof.
  unfold Object_entries. rewrite Array_sort_perm.
  apply (filter_split_perm (fun e => is_array_index (fst e))).
Qed.

Lemma Object_values_perm o : Permutation (Object_values o) (map snd o).
Proof. unfold Object_values. apply Permutation_map, Object_entries_perm. Qed.
End ObjectFacts.

(** ** Arrays updated in place *)

Section UpdateNth.
Variable A : Type.
Implicit Types (f : A -> A) (l : list A).

Lemma update_nth_length i f l :
  List.length (update_nth i f l) = List.length l.
Proof.
  revert i. induction l as [|x l IH]; intros [|i]; simpl; auto.
Qed.

Lemma nth_error_update_nth i f l j :
  nth_error (update_nth i f l) j =
  if (i =? j)%nat then option_map f (nth_error l j) else nth_error l j.
Proof.
  revert i j. induction l as [|x l IH]; intros [|i] [|j]; simpl; auto.
  now destruct (i =? j)%nat.
Qed.

Lemma update_nth_last f l x :
  update_nth (List.length l) f (l ++ [x]) = l ++ [f x].
Proof. induction l as [|y l IH]; simpl; [reflexivity|now rewrite IH]. Qed.

Lemma update_nth_app_l i f l l' :
  (i < List.length l)%nat ->
  update_nth i f (l ++ l') = update_nth i f l ++ l'.
Proof.
  revert i. induction l as [|y l IH]; intros i H; simpl in H; [lia|].
  destruct i as [|i]; simpl; [reflexivity|]. now rewrite IH by lia.
Qed.

Lemma update_nth_beyond i f l :
  (List.length l <= i)%nat -> update_nth i f l = l.
Proof.
  revert i. induction l as [|y l IH]; intros i H; [now destruct i|].
  simpl in H. destruct i as [|i]; simpl; [lia|]. now rewrite IH by lia.
Qed.
End UpdateNth.

(** ** Handlers *)

Lemma option_nat_eqb_refl a : option_nat_eqb a a = true.
Proof. destruct a; simpl; [apply Nat.eqb_refl|reflexivity]. Qed.

Lemma useEffect_cleanup_frame old σ :
  let σ' := run (useEffect_cleanup old) σ in
  state σ' = state σ /\ timers σ' = timers σ /\ toasts σ' = toasts σ
  /\ console σ' = console σ /\ now σ' = now σ.
Proof. destruct old; simpl; repeat split. Qed.

Lemma handle_frame h σ :
  state (handle h σ) = state (run h σ)
  /\ timers (handle h σ) = timers (run h σ)
  /\ toasts (handle h σ) = toasts (run h σ)
  /\ console (handle h σ) = console (run h σ)
  /\ now (handle h σ) = now (run h σ).
Proof.
  unfold handle. destruct (option_nat_eqb _ _); [repeat split|].
  apply useEffect_cleanup_frame.
Qed.

Lemma handle_state h σ : state (handle h σ) = state (run h σ).
Proof. apply handle_frame. Qed.

Lemma handle_same_ws h σ :
  ws (state (run h σ)) = ws (state σ) -> handle h σ = run h σ.
Proof.
  intros H. unfold handle. now rewrite H, option_nat_eqb_refl.
Qed.

Ltac unfold_handlers :=
  unfold IFRSAdvisor.handleSubmit, IFRSAdvisor.onopen, IFRSAdvisor.onmessage,
    IFRSAdvisor.onerror, IFRSAdvisor.onclose,
    Part001.handleSubmit, Part001.onopen, Part001.onmessage,
    Part001.onerror, Part001.onclose, Part001.connectTimeout_callback,
    Part001.clear_connectTimeout,
    addQuestion, removeQuestion, updateQuestion,
    JSON_parse, get_sent_in_order, try_catch, bind, skip, ret, throw, run,
    socket_send, socket_close, socket_readyState, clearTimeout, setTimeout,
    assign_connectTimeout, new_WebSocket, toast, console_log, read,
    setBackground, setQuestions, setWs, setSessionLoading, setAnswers,
    setTyping, setSummary, setSentInOrder, update
    in *.

Ltac break_match :=
  match goal with
  | |- context [match ?x with _ => _ end] =>
      lazymatch x with
      | context [match _ with _ => _ end] => fail
      | _ => destruct x eqn:?
      end
  end.

Ltac run_handler :=
  unfold_handlers; simpl; repeat (break_match; simpl); try reflexivity.

Ltac open_deliver H :=
  unfold IFRSAdvisor.deliver, Part001.deliver, deliver in H;
  repeat match type of H with
    | context [match ?x with _ => _ end] =>
        destruct x eqn:?; try discriminate H
    end;
  injection H as <-.


Lemma IFRS_other_events e σ σ' :
  IFRSAdvisor.deliver e σ = Some σ' ->
  is_submit e = false -> (forall s m, e <> answer_event s m) ->
  answers (state σ') = answers (state σ) /\ typing (state σ') = typing (state σ).
Proof.
  intros H Hs Ha.
  destruct e as [| | | | | |s d| | | | |]; try discriminate Hs;
    try (destruct d as [raw|[msg|msg|b|]];
         [|exfalso; eapply Ha; reflexivity| | |]);
    open_deliver H; rewrite ?handle_state; run_handler; split; reflexivity.
Qed.

Lemma Part001_other_events e σ σ' :
  Part001.deliver e σ = Some σ' ->
  is_submit e = false -> (forall s m, e <> answer_event s m) ->
  answers (state σ') = answers (state σ) /\ typing (state σ') = typing (state σ).
Proof.
  intros H Hs Ha.
  destruct e as [| | | | | |s d| | | | |]; try discriminate Hs;
    try (destruct d as [raw|[msg|msg|b|]];
         [|exfalso; eapply Ha; reflexivity| | |]);
    open_deliver H; rewrite ?handle_state; run_handler; split; reflexivity.
Qed.

Lemma IFRS_answer socket msg σ σ' :
  IFRSAdvisor.deliver (answer_event socket msg) σ = Some σ' ->
  answers (state σ') =
    obj_set (AnswerMessage.question_number msg) msg (answers (state σ))
  /\ typing (state σ') =
    obj_set (AnswerMessage.question_number msg) false (typing (state σ))
  /\ summary (state σ') = summary (state σ)
  /\ sessionLoading (state σ') = sessionLoading (state σ)
  /\ sockets σ' = sockets σ.
Proof.
  intros H. unfold answer_event in H. open_deliver H.
  rewrite handle_same_ws by (run_handler).
  run_handler; repeat split.
Qed.

Lemma Part001_answer socket msg σ σ' :
  Part001.deliver (answer_event socket msg) σ = Some σ' ->
  answers (state σ') =
    obj_set (AnswerMessage.question_number msg) msg (answers (state σ))
  /\ typing (state σ') =
    obj_set (AnswerMessage.question_number msg) false (typing (state σ))
  /\ summary (state σ') = summary (state σ)
  /\ sessionLoading (state σ') = sessionLoading (state σ)
  /\ sockets σ' = sockets σ.
Proof.
  intros H. unfold answer_event in H. open_deliver H.
  rewrite handle_same_ws by (run_handler).
  run_handler; repeat split.
Qed.

Lemma socket_open_inv socket σ :
  socket_state socket σ = Some OPEN ->
  exists w, nth_error (sockets σ) socket = Some w
            /\ ReadyState_eqb (readyState w) OPEN = true.
Proof.
  unfold socket_state. destruct (nth_error _ _) as [w|]; [|discriminate].
  simpl. intros [= Hr]. exists w. rewrite Hr. now split.
Qed.

Lemma IFRS_answer_delivered socket msg σ :
  socket_state socket σ = Some OPEN ->
  exists σ', IFRSAdvisor.deliver (answer_event socket msg) σ = Some σ'.
Proof.
  intros H. destruct (socket_open_inv _ _ H) as (w & Hw & Hr).
  unfold IFRSAdvisor.deliver, deliver, answer_event. rewrite Hw; cbn; rewrite Hr.
  eauto.
Qed.

Lemma Part001_answer_delivered socket msg σ :
  socket_state socket σ = Some OPEN ->
  exists σ', Part001.deliver (answer_event socket msg) σ = Some σ'.
Proof.
  intros H. destruct (socket_open_inv _ _ H) as (w & Hw & Hr).
  unfold Part001.deliver, deliver, answer_event. rewrite Hw; cbn; rewrite Hr.
  eauto.
Qed.

Lemma valid_input_inv s :
  valid_input s = true ->
  truthy (trim (background s)) = true
  /\ (List.length (trimmedQuestions (questions s)) =? 0)%nat = false.
Proof.
  unfold valid_input. rewrite andb_true_iff, negb_true_iff. tauto.
Qed.

Lemma IFRS_handleSubmit_valid σ :
  valid_input (state σ) = true ->
  IFRSAdvisor.handleSubmit σ =
  (Returned tt,
   with_state (fun s => fresh_session s (List.length (sockets σ)))
     (with_sockets
        (fun l => l ++ [connecting (lit "wss://104.248.169.227:8443/ws/rag/")
                          (background (state σ))
                          (trimmedQuestions (questions (state σ)))]) σ)).
Proof.
  intros H. apply valid_input_inv in H as [Hb Hq].
  unfold_handlers. cbn. rewrite Hb, Hq. reflexivity.
Qed.


(** ** [handleSubmit] *)

(** Evaluation of the record updates, innermost first, on a system given by
    its fields. *)
Ltac sys_simpl :=
  cbv beta iota delta
    [with_state with_sockets with_timers with_toasts with_console with_now
     state sockets timers toasts console now].


(** The socket of the later revision once its timer is in scope. *)
Lemma Part001_handleSubmit_valid σ :
  valid_input (state σ) = true ->
  Part001.handleSubmit σ =
  (Returned tt,
   {| state := fresh_session (state σ) (List.length (sockets σ));
      sockets :=
        sockets σ ++
        [{| url := Part001.WS_URL; readyState := CONNECTING; sent := [];
            close_dispatched := false;
            captured_background := background (state σ);
            captured_trimmedQuestions :=
              trimmedQuestions (questions (state σ));
            captured_connectTimeout := Some (List.length (timers σ)) |}];
      timers :=
        timers σ ++
        [{| timer_socket := List.length (sockets σ); due := now σ + 10000;
            cleared := false; fired := false |}];
      toasts := toasts σ;
      console :=
        ((console σ ++ [(Lgroup, lit "[IFRS WS] New session")])
           ++ [(Linfo, lit "[IFRS WS] Preparing to connect")])
          ++ [(Linfo,
               lit "[IFRS WS] Connecting" ++ [8230%N] ++ lit " readyState:")];
      now := now σ |}).
Proof.
  intros H. apply valid_input_inv in H as [Hb Hq].
  destruct σ as [s socks tms tts con nw]. cbn in Hb, Hq.
  unfold_handlers. cbn. rewrite Hb, Hq. cbn.
  sys_simpl. rewrite update_nth_last. reflexivity.
Qed.

Lemma IFRS_handleSubmit_blank σ :
  truthy (trim (background (state σ))) = false ->
  IFRSAdvisor.handleSubmit σ =
  (Returned tt, with_toasts (fun l => l ++ [EmptyBackground]) σ).
Proof. intros H. unfold_handlers. cbn. now rewrite H. Qed.

Lemma IFRS_handleSubmit_no_questions σ :
  truthy (trim (background (state σ))) = true ->
  trimmedQuestions (questions (state σ)) = [] ->
  IFRSAdvisor.handleSubmit σ =
  (Returned tt, with_toasts (fun l => l ++ [NoQuestions]) σ).
Proof. intros H Hq. unfold_handlers. cbn. now rewrite H, Hq. Qed.

Lemma Part001_handleSubmit_blank σ :
  truthy (trim (background (state σ))) = false ->
  Part001.handleSubmit σ =
  (Returned tt, with_toasts (fun l => l ++ [EmptyBackground]) σ).
Proof. intros H. unfold_handlers. cbn. now rewrite H. Qed.

Lemma Part001_handleSubmit_no_questions σ :
  truthy (trim (background (state σ))) = true ->
  trimmedQuestions (questions (state σ)) = [] ->
  Part001.handleSubmit σ =
  (Returned tt, with_toasts (fun l => l ++ [NoQuestions]) σ).
Proof. intros H Hq. unfold_handlers. cbn. now rewrite H, Hq. Qed.

Lemma handle_toast_only h σ t :
  h σ = (Returned tt, with_toasts (fun l => l ++ [t]) σ) ->
  handle h σ = with_toasts (fun l => l ++ [t]) σ.
Proof.
  intros H. unfold handle, run. rewrite H. cbn.
  now rewrite option_nat_eqb_refl.
Qed.

Lemma valid_input_false s :
  valid_input s = false ->
  truthy (trim (background s)) = false
  \/ (truthy (trim (background s)) = true
      /\ trimmedQuestions (questions s) = []).
Proof.
  unfold valid_input. destruct (truthy _); [|now left].
  simpl. rewrite negb_false_iff, Nat.eqb_eq. intros H. right.
  split; [reflexivity|]. now destruct (trimmedQuestions _).
Qed.

Lemma IFRS_submit_state σ σ' :
  IFRSAdvisor.deliver Click_submit σ = Some σ' ->
  state σ' = state σ
  \/ state σ' = fresh_session (state σ) (List.length (sockets σ)).
Proof.
  intros [= <-]. rewrite handle_state. unfold run.
  destruct (valid_input (state σ)) eqn:Hv.
  - right. now rewrite IFRS_handleSubmit_valid.
  - left. destruct (valid_input_false _ Hv) as [H|[H Hq]].
    + now rewrite IFRS_handleSubmit_blank.
    + now rewrite IFRS_handleSubmit_no_questions.
Qed.

Lemma Part001_submit_state σ σ' :
  Part001.deliver Click_submit σ = Some σ' ->
  state σ' = state σ
  \/ state σ' = fresh_session (state σ) (List.length (sockets σ)).
Proof.
  intros [= <-]. rewrite handle_state. unfold run.
  destruct (valid_input (state σ)) eqn:Hv.
  - right. now rewrite Part001_handleSubmit_valid.
  - left. destruct (valid_input_false _ Hv) as [H|[H Hq]].
    + now rewrite Part001_handleSubmit_blank.
    + now rewrite Part001_handleSubmit_no_questions.
Qed.

(** ** The typing map of a new session *)

Lemma numbers_shift (N : nat) i :
  map (fun j => Z.of_nat j + 1) (seq i N) = map Z.of_nat (seq (S i) N).
Proof.
  rewrite <- seq_shift, map_map. apply map_ext. intros j. lia.
Qed.

Lemma mapi_numbers (A : Type) (l : list A) :
  Array_mapi (fun (_ : A) i => (Z.of_nat i + 1, true)) l =
  map (fun k => (k, true)) (numbers (List.length l)).
Proof.
  unfold Array_mapi, numbers. rewrite <- numbers_shift, map_map.
  generalize 0%nat. induction l as [|x l IH]; intros i; simpl;
    [reflexivity|]. now rewrite IH.
Qed.

Lemma in_numbers N k : In k (numbers N) <-> 1 <= k <= Z.of_nat N.
Proof.
  unfold numbers. rewrite in_map_iff. split.
  - intros (j & <- & Hj). apply in_seq in Hj. lia.
  - intros H. exists (Z.to_nat k). split; [lia|]. apply in_seq. lia.
Qed.

Lemma numbers_nodup N : NoDup (numbers N).
Proof.
  unfold numbers. apply Finite.Injective_map_NoDup; [|apply seq_NoDup].
  intros a b. apply Nat2Z.inj.
Qed.

Lemma numbers_sorted N : StronglySorted Z.lt (numbers N).
Proof.
  unfold numbers. generalize 1%nat.
  induction N as [|N IH]; intros i; simpl; constructor; [apply IH|].
  apply Forall_forall. intros k Hk. apply in_map_iff in Hk as (j & <- & Hj).
  apply in_seq in Hj. lia.
Qed.

Section Fresh.
Variables (A V : Type) (entry : A -> Z * V).

(** Defining properties whose keys are new, one after the other, lists
    them in that order. *)
Lemma obj_set_fresh (l : list A) :
  forall o : JsObject V,
    NoDup (map fst o ++ map (fun a => fst (entry a)) l) ->
    fold_left (fun o a => obj_set (fst (entry a)) (snd (entry a)) o) l o =
    o ++ map entry l.
Proof.
  induction l as [|a l IH]; intros o Hnd; simpl.
  - now rewrite app_nil_r.
  - rewrite obj_set_absent.
    + rewrite IH.
      * rewrite <- app_assoc. simpl. now destruct (entry a).
      * rewrite map_app. simpl. rewrite <- app_assoc. exact Hnd.
    + apply NoDup_remove_2 in Hnd. intros Hin. apply Hnd.
      apply in_or_app. now left.
Qed.
End Fresh.

Lemma initial_typing_eq (tq : list jsstring) :
  initial_typing tq = map (fun k => (k, true)) (numbers (List.length tq)).
Proof.
  unfold initial_typing, Object_fromEntries. rewrite mapi_numbers.
  rewrite (obj_set_fresh (fun e : Z * bool => e)).
  - now rewrite map_id.
  - simpl. rewrite map_map. simpl. rewrite map_id. apply numbers_nodup.
Qed.

Lemma initial_typing_keys tq :
  map fst (initial_typing tq) = numbers (List.length tq).
Proof.
  rewrite initial_typing_eq, map_map. simpl. apply map_id.
Qed.

(** ** The pending numbers *)

Lemma pending_iff s k :
  In k (pendingNumbers s) <-> In (k, true) (typing s).
Proof.
  unfold pendingNumbers. rewrite in_map_iff. split.
  - intros ([k' b] & <- & H). apply filter_In in H as [H Hb].
    simpl in *. subst b.
    apply Permutation_in with (1 := Object_entries_perm (typing s)), H.
  - intros H. exists (k, true). split; [reflexivity|].
    apply filter_In. split; [|reflexivity].
    apply Permutation_in with (2 := H), Permutation_sym, Object_entries_perm.
Qed.

Lemma pending_fresh_session s socket k :
  In k (pendingNumbers (fresh_session s socket)) <->
  1 <= k <= Z.of_nat (List.length (trimmedQuestions (questions s))).
Proof.
  rewrite pending_iff. simpl. rewrite initial_typing_eq, <- in_numbers.
  rewrite in_map_iff. split.
  - now intros (j & [= <-] & Hj).
  - intros H. now exists k.
Qed.

Section FilterByKey.
Variables (A : Type) (key : A -> Z).

Lemma filter_key_absent (l : list A) n :
  ~ In n (map key l) -> filter (fun a => key a =? n) l = [].
Proof.
  induction l as [|a l IH]; simpl; intros H; [reflexivity|].
  destruct (Z.eqb_spec (key a) n); [tauto|]. apply IH. tauto.
Qed.

(** Among records with distinct keys, a record is the only one with its
    key. *)
Lemma filter_key_unique (l : list A) m :
  NoDup (map key l) -> In m l ->
  filter (fun a => key a =? key m) l = [m].
Proof.
  induction l as [|a l IH]; simpl; intros Hnd Hin; [tauto|].
  inversion Hnd as [|? ? Ha Hnd']; subst.
  destruct (Z.eqb_spec (key a) (key m)) as [E|E].
  - assert (a = m) as ->.
    { apply key_inj_in with (key := key) (l := a :: l); simpl; auto. }
    f_equal. now apply filter_key_absent.
  - destruct Hin as [->|Hin]; [congruence|]. now apply IH.
Qed.
End FilterByKey.

(** ** The reconciler, for either file

    What follows needs four facts about the delivery of events; both files
    have them. *)

Lemma event_cases e :
  e = Click_submit
  \/ (exists socket msg, e = answer_event socket msg)
  \/ (is_submit e = false /\ forall socket msg, e <> answer_event socket msg).
Proof.
  destruct e as [| | | | | |s [raw|[msg|msg|b|]]| | | | |];
    try (right; right; split; [reflexivity|discriminate]).
  - now left.
  - right. left. now exists s, msg.
Qed.

Lemma obj_set_forall (V : Type) (P : Z * V -> Prop) k v (o : JsObject V) :
  P (k, v) -> Forall P o -> Forall P (obj_set k v o).
Proof.
  intros Hk. induction 1 as [|[k' v'] o Hx Ho IH]; simpl.
  - now repeat constructor.
  - destruct (k =? k'); now constructor.
Qed.

Section Reconciler.
Variable deliver : Event -> Sys -> option Sys.

Hypothesis other_events : forall e σ σ',
  deliver e σ = Some σ' ->
  is_submit e = false -> (forall s m, e <> answer_event s m) ->
  answers (state σ') = answers (state σ)
  /\ typing (state σ') = typing (state σ).

Hypothesis answer_recorded : forall socket msg σ σ',
  deliver (answer_event socket msg) σ = Some σ' ->
  answers (state σ') =
    obj_set (AnswerMessage.question_number msg) msg (answers (state σ))
  /\ typing (state σ') =
    obj_set (AnswerMessage.question_number msg) false (typing (state σ))
  /\ summary (state σ') = summary (state σ)
  /\ sessionLoading (state σ') = sessionLoading (state σ)
  /\ sockets σ' = sockets σ.

Hypothesis answer_delivered : forall socket msg σ,
  socket_state socket σ = Some OPEN ->
  exists σ', deliver (answer_event socket msg) σ = Some σ'.

Hypothesis submit_state : forall σ σ',
  deliver Click_submit σ = Some σ' ->
  state σ' = state σ
  \/ state σ' = fresh_session (state σ) (List.length (sockets σ)).

Lemma well_keyed_fresh s socket : well_keyed (fresh_session s socket).
Proof.
  unfold well_keyed. simpl. rewrite initial_typing_keys.
  repeat split; [constructor|constructor|apply numbers_nodup].
Qed.

Lemma well_keyed_step e σ σ' :
  deliver e σ = Some σ' -> well_keyed (state σ) -> well_keyed (state σ').
Proof.
  intros H (Ha & Hq & Ht).
  destruct (event_cases e) as [->|[(socket & msg & ->)|[Hs Hn]]].
  - apply submit_state in H as [E|E]; rewrite E;
      [now repeat split|apply well_keyed_fresh].
  - apply answer_recorded in H as (Ea & Et & _). unfold well_keyed.
    rewrite Ea, Et. repeat split.
    + now apply obj_set_keys_nodup.
    + now apply obj_set_forall.
    + now apply obj_set_keys_nodup.
  - destruct (@other_events _ _ _ H Hs Hn) as [Ea Et]. unfold well_keyed.
    now rewrite Ea, Et.
Qed.

Lemma well_keyed_run es :
  forall σ σ',
    deliver_all deliver es σ = Some σ' ->
    well_keyed (state σ) -> well_keyed (state σ').
Proof.
  induction es as [|e es IH]; simpl; intros σ σ' H Hw.
  - now injection H as <-.
  - destruct (deliver e σ) as [σ1|] eqn:He; [|discriminate].
    eauto using well_keyed_step.
Qed.

Lemma well_keyed_reachable σ : Reachable deliver σ -> well_keyed (state σ).
Proof.
  intros [es H]. apply (@well_keyed_run _ _ _ H).
  repeat split; constructor.
Qed.

(** *** Ordering *)

Lemma answers_delivered socket msgs :
  forall σ,
    socket_state socket σ = Some OPEN ->
    exists σ',
      deliver_all deliver (map (answer_event socket) msgs) σ = Some σ'
      /\ answers (state σ') =
         fold_left
           (fun o m => obj_set (AnswerMessage.question_number m) m o)
           msgs (answers (state σ))
      /\ sockets σ' = sockets σ.
Proof.
  induction msgs as [|m msgs IH]; intros σ Hopen; simpl.
  - now exists σ.
  - destruct (@answer_delivered socket m _ Hopen) as [σ1 H1]. rewrite H1.
    destruct (@answer_recorded _ _ _ _ H1) as (Ea & _ & _ & _ & Es).
    destruct (IH σ1) as (σ' & H & Ha & Hs).
    { unfold socket_state. now rewrite Es. }
    exists σ'. rewrite H, Ha, Ea, Hs, Es. auto.
Qed.

Lemma sorted_by_number (l : list AnswerMessage.t) :
  StronglySorted Z.lt (map AnswerMessage.question_number l) ->
  StronglySorted (le_key AnswerMessage.question_number) l.
Proof.
  induction l as [|a l IH]; simpl; intros H; [constructor|].
  inversion H as [|? ? Hs Hf]; subst. constructor; [auto|].
  rewrite Forall_map in Hf. eapply Forall_impl; [|exact Hf].
  intros b. unfold le_key. simpl. lia.
Qed.

Lemma sortedAnswers_perm s :
  Permutation (sortedAnswers s) (map snd (answers s)).
Proof.
  unfold sortedAnswers. rewrite Array_sort_perm. apply Object_values_perm.
Qed.

Lemma sortedAnswers_sorted s :
  StronglySorted (le_key AnswerMessage.question_number) (sortedAnswers s).
Proof. apply Array_sort_strongly_sorted. Qed.

Lemma ordering socket records delivery σ N :
  socket_state socket σ = Some OPEN ->
  answers (state σ) = [] ->
  map AnswerMessage.question_number records = numbers N ->
  Permutation delivery records ->
  exists σ',
    deliver_all deliver (map (answer_event socket) delivery) σ = Some σ'
    /\ sortedAnswers (state σ') = records.
Proof.
  intros Hopen Hempty Hnum Hperm.
  destruct (answers_delivered socket delivery _ Hopen) as (σ' & H & Ha & _).
  exists σ'. split; [exact H|].
  assert (Hnd : NoDup (map AnswerMessage.question_number delivery)).
  { apply Permutation_NoDup
      with (l := map AnswerMessage.question_number records).
    - now apply Permutation_map, Permutation_sym.
    - rewrite Hnum. apply numbers_nodup. }
  rewrite Hempty in Ha.
  rewrite (obj_set_fresh (fun m => (AnswerMessage.question_number m, m)))
    in Ha by exact Hnd.
  simpl in Ha.
  assert (Hp : Permutation (sortedAnswers (state σ')) records).
  { rewrite sortedAnswers_perm, Ha, map_map. simpl. now rewrite map_id. }
  apply sorted_perm_unique with (key := AnswerMessage.question_number).
  - apply sortedAnswers_sorted.
  - apply sorted_by_number. rewrite Hnum. apply numbers_sorted.
  - exact Hp.
  - apply Permutation_NoDup
      with (l := map AnswerMessage.question_number records).
    + now apply Permutation_map, Permutation_sym.
    + rewrite Hnum. apply numbers_nodup.
Qed.

(** *** Overwriting *)

Lemma sortedAnswers_numbers s :
  well_keyed s ->
  NoDup (map AnswerMessage.question_number (sortedAnswers s)).
Proof.
  intros (Ha & Hq & _).
  apply Permutation_NoDup with (l := map fst (answers s)); [|exact Ha].
  apply Permutation_sym.
  rewrite (Permutation_map _ (sortedAnswers_perm s)), map_map.
  erewrite map_ext_in; [reflexivity|].
  intros e He. rewrite Forall_forall in Hq. now apply Hq.
Qed.

Lemma sortedAnswers_in s m :
  In m (sortedAnswers s) <-> In m (map snd (answers s)).
Proof.
  split; apply Permutation_in;
    [|apply Permutation_sym]; apply sortedAnswers_perm.
Qed.

Lemma sortedAnswers_holds s n m :
  obj_get n (answers s) = Some m -> In m (sortedAnswers s).
Proof.
  intros H. apply sortedAnswers_in. apply obj_get_in in H.
  change m with (snd (n, m)). now apply in_map.
Qed.

Lemma overwrite socket m1 m2 σ :
  well_keyed (state σ) ->
  socket_state socket σ = Some OPEN ->
  AnswerMessage.question_number m1 = AnswerMessage.question_number m2 ->
  exists σ12 σ2,
    deliver_all deliver [answer_event socket m1; answer_event socket m2] σ
    = Some σ12
    /\ deliver (answer_event socket m2) σ = Some σ2
    /\ answers (state σ12) = answers (state σ2)
    /\ typing (state σ12) = typing (state σ2)
    /\ obj_get (AnswerMessage.question_number m2) (answers (state σ12))
       = Some m2
    /\ filter
         (fun e => fst e =? AnswerMessage.question_number m2)
         (answers (state σ12))
       = [(AnswerMessage.question_number m2, m2)]
    /\ filter
         (fun a => AnswerMessage.question_number a
                   =? AnswerMessage.question_number m2)
         (sortedAnswers (state σ12)) = [m2].
Proof.
  intros Hw Hopen Hn.
  destruct (@answer_delivered socket m1 _ Hopen) as [σ1 H1].
  destruct (@answer_recorded _ _ _ _ H1) as (Ea1 & Et1 & _ & _ & Es1).
  assert (Hopen1 : socket_state socket σ1 = Some OPEN).
  { unfold socket_state. now rewrite Es1. }
  destruct (@answer_delivered socket m2 _ Hopen1) as [σ12 H12].
  destruct (@answer_recorded _ _ _ _ H12) as (Ea12 & Et12 & _).
  destruct (@answer_delivered socket m2 _ Hopen) as [σ2 H2].
  destruct (@answer_recorded _ _ _ _ H2) as (Ea2 & Et2 & _).
  assert (Hget : obj_get (AnswerMessage.question_number m2)
                   (answers (state σ12)) = Some m2).
  { now rewrite Ea12, obj_get_set, Z.eqb_refl. }
  exists σ12, σ2. simpl. rewrite H1, H12. repeat split; auto.
  - now rewrite Ea12, Ea1, Ea2, Hn, obj_set_twice.
  - now rewrite Et12, Et1, Et2, Hn, obj_set_twice.
  - apply (@filter_key_unique _ fst _
             (AnswerMessage.question_number m2, m2)).
    + eapply well_keyed_step; [exact H12|].
      eapply well_keyed_step; [exact H1|exact Hw].
    + now apply obj_get_in.
  - apply (@filter_key_unique _ AnswerMessage.question_number).
    + apply sortedAnswers_numbers.
      eapply well_keyed_step; [exact H12|].
      eapply well_keyed_step; [exact H1|exact Hw].
    + eapply sortedAnswers_holds, Hget.
Qed.

(** *** Pending numbers *)

Lemma answered_other e es :
  (forall socket msg, e <> answer_event socket msg) ->
  answered (e :: es) = answered es.
Proof.
  intros H. destruct e as [| | | | | |s [raw|[msg|msg|b|]]| | | | |];
    try reflexivity.
  now destruct (H s msg).
Qed.

Lemma pending_step e σ σ' :
  deliver e σ = Some σ' -> is_submit e = false -> well_keyed (state σ) ->
  forall k,
    In k (pendingNumbers (state σ')) <->
    In k (pendingNumbers (state σ)) /\ ~ In k (answered [e]).
Proof.
  intros H Hs (_ & _ & Ht) k. rewrite !pending_iff.
  destruct (event_cases e) as [->|[(socket & msg & ->)|[_ Hn]]].
  - discriminate.
  - destruct (@answer_recorded _ _ _ _ H) as (_ & Et & _).
    rewrite Et, obj_set_in by exact Ht. simpl. split.
    + intros [[_ [=]]|[Hk Hin]]. split; [exact Hin|]. intros [E|[]].
      now apply Hk.
    + intros [Hin Hk]. right. split; [|exact Hin]. intros ->. apply Hk.
      now left.
  - destruct (@other_events _ _ _ H Hs Hn) as [_ Et].
    rewrite Et, answered_other by exact Hn. simpl. tauto.
Qed.

Lemma answered_cons e es k :
  In k (answered (e :: es)) <-> In k (answered [e]) \/ In k (answered es).
Proof.
  destruct e as [| | | | | |s [raw|[msg|msg|b|]]| | | | |]; simpl; tauto.
Qed.

Lemma pending_run es :
  forall σ σ',
    deliver_all deliver es σ = Some σ' ->
    existsb is_submit es = false ->
    well_keyed (state σ) ->
    forall k,
      In k (pendingNumbers (state σ')) <->
      In k (pendingNumbers (state σ)) /\ ~ In k (answered es).
Proof.
  induction es as [|e es IH]; simpl; intros σ σ' H Hs Hw k.
  - injection H as <-. tauto.
  - destruct (deliver e σ) as [σ1|] eqn:He; [|discriminate].
    apply orb_false_iff in Hs as [Hs1 Hs2].
    rewrite (IH _ _ H Hs2 (@well_keyed_step _ _ _ He Hw)).
    rewrite (@pending_step _ _ _ He Hs1 Hw), (answered_cons e es). tauto.
Qed.
End Reconciler.

(** ** Sockets only move forward *)

Lemma advances_refl l : advances l l.
Proof. intros s w H. exists w. split; [exact H|lia]. Qed.

Lemma advances_trans l1 l2 l3 :
  advances l1 l2 -> advances l2 l3 -> advances l1 l3.
Proof.
  intros H12 H23 s w H. destruct (H12 _ _ H) as (w2 & H2 & Hr2).
  destruct (H23 _ _ H2) as (w3 & H3 & Hr3). exists w3. split; [exact H3|lia].
Qed.

Lemma advances_app l x : advances l (l ++ [x]).
Proof.
  intros s w H. exists w. split; [|lia].
  rewrite nth_error_app1; [exact H|].
  apply nth_error_Some. congruence.
Qed.

Lemma advances_update_at i f l :
  (forall w, nth_error l i = Some w ->
             (rank (readyState w) <= rank (readyState (f w)))%nat) ->
  advances l (update_nth i f l).
Proof.
  intros Hf s w H. rewrite nth_error_update_nth.
  destruct (Nat.eqb_spec i s) as [->|Hne].
  - rewrite H. simpl. eexists. split; [reflexivity|]. now apply Hf.
  - exists w. split; [exact H|lia].
Qed.

Lemma advances_update i f l :
  (forall w, (rank (readyState w) <= rank (readyState (f w)))%nat) ->
  advances l (update_nth i f l).
Proof. intros Hf. apply advances_update_at. auto. Qed.

Lemma advances_close l σ socket :
  advances l (sockets σ) ->
  advances l (sockets (run (socket_close socket) σ)).
Proof.
  intros H. eapply advances_trans; [exact H|]. simpl.
  apply advances_update. intros w. simpl.
  destruct (readyState w) eqn:E; simpl; rewrite ?E; simpl; lia.
Qed.

Lemma advances_handle l h σ :
  advances l (sockets (run h σ)) -> advances l (sockets (handle h σ)).
Proof.
  intros H. unfold handle. destruct (option_nat_eqb _ _); [exact H|].
  destruct (ws (state σ)); [now apply advances_close|exact H].
Qed.

Ltac forward_update :=
  let w := fresh "w" in
  intros w; simpl;
  try (let E := fresh "E" in
       destruct (readyState w) eqn:E; simpl; rewrite ?E);
  simpl; lia.

Ltac opened_update :=
  let w := fresh "w" in
  let Hw := fresh "Hw" in
  intros w Hw;
  match goal with
  | H : nth_error _ _ = Some _ |- _ =>
      rewrite H in Hw; injection Hw as <-
  end;
  match goal with
  | H : ReadyState_eqb (readyState ?w0) _ = true |- _ =>
      destruct (readyState w0); try discriminate H
  end;
  simpl; lia.

Ltac advance :=
  repeat first
    [ apply advances_refl
    | apply advances_app
    | apply advances_update_at; opened_update
    | eapply advances_trans; [|apply advances_update; forward_update] ].

Lemma IFRS_sockets_advance e σ σ' :
  IFRSAdvisor.deliver e σ = Some σ' -> advances (sockets σ) (sockets σ').
Proof.
  intros H. destruct e; open_deliver H; try apply advances_handle.
  all: run_handler; advance.
Qed.

Lemma Part001_sockets_advance e σ σ' :
  Part001.deliver e σ = Some σ' -> advances (sockets σ) (sockets σ').
Proof.
  intros H. destruct e; open_deliver H; try apply advances_handle.
  all: run_handler; advance.
Qed.

Lemma shut_advances socket σ σ' :
  advances (sockets σ) (sockets σ') ->
  shut socket σ = true -> shut socket σ' = true.
Proof.
  unfold shut, socket_state. intros Hadv.
  destruct (nth_error (sockets σ) socket) as [w|] eqn:Hw; [|discriminate].
  destruct (Hadv _ _ Hw) as (w' & -> & Hr). simpl.
  destruct (readyState w), (readyState w'); simpl in *;
    try discriminate; try reflexivity; lia.
Qed.

Section Superseded.
Variable deliver : Event -> Sys -> option Sys.
Hypothesis sockets_advance : forall e σ σ',
  deliver e σ = Some σ' -> advances (sockets σ) (sockets σ').

Lemma shut_run es socket :
  forall σ σ',
    deliver_all deliver es σ = Some σ' ->
    shut socket σ = true -> shut socket σ' = true.
Proof.
  induction es as [|e es IH]; simpl; intros σ σ' H Hs.
  - now injection H as <-.
  - destruct (deliver e σ) as [σ1|] eqn:He; [|discriminate].
    apply (IH _ _ H). eapply shut_advances; [|exact Hs].
    eapply sockets_advance, He.
Qed.
End Superseded.

Lemma shut_not_connecting socket σ w r :
  shut socket σ = true -> nth_error (sockets σ) socket = Some w ->
  ReadyState_eqb (readyState w) r = true -> rank r = 0%nat \/ rank r = 1%nat ->
  False.
Proof.
  unfold shut, socket_state. intros Hs Hw Hr Hrank. rewrite Hw in Hs.
  simpl in Hs. destruct (readyState w), r; simpl in *;
    try discriminate; lia.
Qed.

Lemma IFRS_superseded e socket σ σ' :
  shut socket σ = true -> event_socket e = Some socket ->
  IFRSAdvisor.deliver e σ = Some σ' ->
  same_results (state σ) (state σ')
  /\ ws (state σ') = ws (state σ)
  /\ sessionLoading (state σ') = false.
Proof.
  intros Hs He H. destruct e; try discriminate He; injection He as ->;
    open_deliver H.
  - exfalso. eapply shut_not_connecting; eauto.
  - exfalso. eapply shut_not_connecting; eauto.
  - rewrite handle_state. unfold same_results. run_handler; repeat split.
  - rewrite handle_state. unfold same_results. run_handler; repeat split.
  - exfalso. eapply shut_not_connecting; eauto.
Qed.

Lemma Part001_superseded e socket σ σ' :
  shut socket σ = true -> event_socket e = Some socket ->
  Part001.deliver e σ = Some σ' ->
  same_results (state σ) (state σ')
  /\ ws (state σ') = ws (state σ)
  /\ sessionLoading (state σ') = false.
Proof.
  intros Hs He H. destruct e; try discriminate He; injection He as ->;
    open_deliver H.
  - exfalso. eapply shut_not_connecting; eauto.
  - exfalso. eapply shut_not_connecting; eauto.
  - rewrite handle_state. unfold same_results. run_handler; repeat split.
  - rewrite handle_state. unfold same_results. run_handler; repeat split.
  - exfalso. eapply shut_not_connecting; eauto.
Qed.

(** ** A valid submission *)

Lemma option_nat_eqb_eq a b : option_nat_eqb a b = true -> a = b.
Proof.
  destruct a, b; simpl; try discriminate; [|reflexivity].
  intros H. apply Nat.eqb_eq in H. now subst.
Qed.

(** The render after a handler that opened a socket: the new socket is
    connecting, the one it replaces has been asked to close. *)
Lemma handle_new_socket h σ σ1 c :
  h σ = (Returned tt, σ1) ->
  ws (state σ1) = Some (List.length (sockets σ)) ->
  sockets σ1 = sockets σ ++ [c] ->
  readyState c = CONNECTING ->
  nth_error (sockets (handle h σ)) (List.length (sockets σ)) = Some c
  /\ forall old,
       ws (state σ) = Some old -> (old < List.length (sockets σ))%nat ->
       shut old (handle h σ) = true.
Proof.
  intros Hh Hws Hs Hc. unfold handle, run. rewrite Hh. simpl. rewrite Hws.
  destruct (option_nat_eqb _ _) eqn:E.
  - apply option_nat_eqb_eq in E. rewrite Hs. split.
    + now rewrite nth_error_app2, Nat.sub_diag.
    + intros old Hold Hlt. rewrite E in Hold. injection Hold as <-. lia.
  - destruct (ws (state σ)) as [old|] eqn:Hold; simpl.
    + assert (Hne : old <> List.length (sockets σ)).
      { intros ->. simpl in E. now rewrite Nat.eqb_refl in E. }
      rewrite Hs. split.
      * rewrite nth_error_update_nth.
        destruct (Nat.eqb_spec old (List.length (sockets σ))); [tauto|].
        now rewrite nth_error_app2, Nat.sub_diag.
      * intros old' [= <-] Hlt. unfold shut, socket_state. simpl.
        rewrite Hs, nth_error_update_nth, Nat.eqb_refl.
        rewrite nth_error_app1 by exact Hlt.
        destruct (nth_error (sockets σ) old) as [w|] eqn:Hw.
        -- simpl. destruct (readyState w) eqn:Er; simpl; rewrite ?Er;
             reflexivity.
        -- apply nth_error_None in Hw. lia.
    + rewrite Hs. split; [|discriminate].
      now rewrite nth_error_app2, Nat.sub_diag.
Qed.

Lemma IFRS_submit_valid σ :
  valid_input (state σ) = true ->
  exists σ',
    IFRSAdvisor.deliver Click_submit σ = Some σ'
    /\ state σ' = fresh_session (state σ) (List.length (sockets σ))
    /\ socket_state (List.length (sockets σ)) σ' = Some CONNECTING
    /\ toasts σ' = toasts σ
    /\ forall old,
         ws (state σ) = Some old -> (old < List.length (sockets σ))%nat ->
         shut old σ' = true.
Proof.
  intros Hv. eexists. split; [reflexivity|].
  pose proof (IFRS_handleSubmit_valid σ Hv) as Hh.
  destruct (@handle_new_socket _ _ _ _ Hh eq_refl eq_refl eq_refl) as [Hn Hold].
  destruct (handle_frame IFRSAdvisor.handleSubmit σ) as (Es & _ & Et & _).
  unfold run in Es, Et. rewrite Hh in Es, Et. repeat split.
  - exact Es.
  - unfold socket_state. now rewrite Hn.
  - exact Et.
  - exact Hold.
Qed.

Lemma Part001_submit_valid σ :
  valid_input (state σ) = true ->
  exists σ',
    Part001.deliver Click_submit σ = Some σ'
    /\ state σ' = fresh_session (state σ) (List.length (sockets σ))
    /\ socket_state (List.length (sockets σ)) σ' = Some CONNECTING
    /\ toasts σ' = toasts σ
    /\ (forall old,
         ws (state σ) = Some old -> (old < List.length (sockets σ))%nat ->
         shut old σ' = true)
    /\ timers σ' =
         timers σ ++
         [{| timer_socket := List.length (sockets σ); due := now σ + 10000;
             cleared := false; fired := false |}]
    /\ now σ' = now σ.
Proof.
  intros Hv. eexists. split; [reflexivity|].
  pose proof (Part001_handleSubmit_valid σ Hv) as Hh.
  destruct (@handle_new_socket _ _ _ _ Hh eq_refl eq_refl eq_refl) as [Hn Hold].
  destruct (handle_frame Part001.handleSubmit σ) as (Es & Em & Et & _ & Ew).
  unfold run in Es, Em, Et, Ew. rewrite Hh in Es, Em, Et, Ew.
  repeat split; auto.
  unfold socket_state. now rewrite Hn.
Qed.

Unset Implicit Arguments.

(** ** The socket opens *)

Lemma socket_connecting_inv socket σ :
  socket_state socket σ = Some CONNECTING ->
  exists w, nth_error (sockets σ) socket = Some w
            /\ readyState w = CONNECTING.
Proof.
  unfold socket_state. destruct (nth_error _ _) as [w|]; [|discriminate].
  simpl. intros [= Hr]. now exists w.
Qed.

Lemma IFRS_open socket σ :
  socket_state socket σ = Some CONNECTING ->
  exists σ',
    IFRSAdvisor.deliver (Socket_open socket) σ = Some σ'
    /\ socket_state socket σ' = Some OPEN
    /\ state σ' = state σ.
Proof.
  intros H. destruct (socket_connecting_inv _ _ H) as (w & Hw & Hr).
  unfold IFRSAdvisor.deliver, deliver. rewrite Hw, Hr. simpl.
  eexists. split; [reflexivity|].
  rewrite handle_same_ws;
    unfold IFRSAdvisor.onopen, run, socket_send; simpl;
    rewrite nth_error_update_nth, Nat.eqb_refl, Hw; simpl;
    [|reflexivity].
  split; [|reflexivity].
  unfold socket_state. simpl.
  rewrite !nth_error_update_nth, Nat.eqb_refl, Hw. reflexivity.
Qed.

Lemma Part001_open socket σ :
  socket_state socket σ = Some CONNECTING ->
  exists σ',
    Part001.deliver (Socket_open socket) σ = Some σ'
    /\ socket_state socket σ' = Some OPEN
    /\ state σ' = state σ.
Proof.
  intros H. destruct (socket_connecting_inv _ _ H) as (w & Hw & Hr).
  unfold Part001.deliver, deliver. rewrite Hw, Hr. simpl.
  eexists. split; [reflexivity|].
  rewrite handle_same_ws;
    unfold Part001.onopen, Part001.clear_connectTimeout, run, socket_send,
      try_catch, bind;
    destruct (captured_connectTimeout w); simpl;
    rewrite nth_error_update_nth, Nat.eqb_refl, Hw; simpl;
    try reflexivity.
  all: split; [|reflexivity].
  all: unfold socket_state; simpl.
  all: rewrite !nth_error_update_nth, Nat.eqb_refl, Hw; reflexivity.
Qed.

Lemma deliver_all_step deliver e es σ σ' :
  deliver e σ = Some σ' ->
  deliver_all deliver (e :: es) σ = deliver_all deliver es σ'.
Proof. intros H. simpl. now rewrite H. Qed.

(** ** The specified properties *)

(** C1 (ordering invariant).  A session is submitted with N questions and
    its socket opens; the N answer messages, numbered 1..N, arrive in any
    order.  Once all are processed [sortedAnswers] is the sequence of the N
    records in ascending order of [question_number], whatever the order of
    arrival. *)
Theorem C1_ordering_invariant
  (σ : Sys) (N : nat) (records delivery : list AnswerMessage.t) :
  valid_input (state σ) = true ->
  List.length (trimmedQuestions (questions (state σ))) = N ->
  map AnswerMessage.question_number records = numbers N ->
  Permutation delivery records ->
  let socket := List.length (sockets σ) in
  exists σ',
    IFRSAdvisor.deliver_all
      (Click_submit :: Socket_open socket
         :: map (answer_event socket) delivery) σ = Some σ'
    /\ sortedAnswers (state σ') = records.
Proof.
  intros Hv _ Hnum Hperm socket.
  destruct (IFRS_submit_valid σ Hv) as (σ1 & H1 & Es1 & Hc & _).
  destruct (IFRS_open _ _ Hc) as (σ2 & H2 & Ho & Es2).
  assert (Hempty : answers (state σ2) = []) by now rewrite Es2, Es1.
  destruct (@ordering IFRSAdvisor.deliver (@IFRS_answer)
              IFRS_answer_delivered socket records delivery σ2 N
              Ho Hempty Hnum Hperm) as (σ' & H & Hsorted).
  exists σ'. split; [|exact Hsorted].
  unfold IFRSAdvisor.deliver_all.
  now rewrite (deliver_all_step _ _ _ _ _ H1), (deliver_all_step _ _ _ _ _ H2).
Qed.

Lemma C1_ordering_invariant_witness :
  exists σ',
    IFRSAdvisor.deliver_all
      [Click_submit; Socket_open 0;
       answer_event 0 lease_answer_2; answer_event 0 lease_answer_1]
      (lease_typed IFRSAdvisor.deliver) = Some σ'
    /\ sortedAnswers (state σ') = [lease_answer_1; lease_answer_2].
Proof.
  apply (C1_ordering_invariant (lease_typed IFRSAdvisor.deliver) 2
           [lease_answer_1; lease_answer_2]
           [lease_answer_2; lease_answer_1]).
  - vm_compute. reflexivity.
  - vm_compute. reflexivity.
  - reflexivity.
  - apply perm_swap.
Defined.

(** The same in the later revision. *)
Theorem Part001_ordering_invariant
  (σ : Sys) (N : nat) (records delivery : list AnswerMessage.t) :
  valid_input (state σ) = true ->
  List.length (trimmedQuestions (questions (state σ))) = N ->
  map AnswerMessage.question_number records = numbers N ->
  Permutation delivery records ->
  let socket := List.length (sockets σ) in
  exists σ',
    Part001.deliver_all
      (Click_submit :: Socket_open socket
         :: map (answer_event socket) delivery) σ = Some σ'
    /\ sortedAnswers (state σ') = records.
Proof.
  intros Hv _ Hnum Hperm socket.
  destruct (Part001_submit_valid σ Hv) as (σ1 & H1 & Es1 & Hc & _).
  destruct (Part001_open _ _ Hc) as (σ2 & H2 & Ho & Es2).
  assert (Hempty : answers (state σ2) = []) by now rewrite Es2, Es1.
  destruct (@ordering Part001.deliver (@Part001_answer)
              Part001_answer_delivered socket records delivery σ2 N
              Ho Hempty Hnum Hperm) as (σ' & H & Hsorted).
  exists σ'. split; [|exact Hsorted].
  unfold Part001.deliver_all.
  now rewrite (deliver_all_step _ _ _ _ _ H1), (deliver_all_step _ _ _ _ _ H2).
Qed.

(** C2, as stated, fails: the handlers of a socket carry no mark of the
    socket they belong to.  After a second submission the first socket's
    [close] event still runs [setSessionLoading(false)] and turns off the
    awaiting indicator of the new session. *)
Lemma C2_stale_close_changes_state :
  exists σ σ',
    IFRSAdvisor.deliver_all
      (lease_form ++ [Click_submit; Click_submit]) initial = Some σ
    /\ ws (state σ) = Some 1%nat
    /\ sessionLoading (state σ) = true
    /\ IFRSAdvisor.deliver (Socket_close 0 abnormal_closure) σ = Some σ'
    /\ sessionLoading (state σ') = false
    /\ state σ' <> state σ.
Proof.
  eexists. eexists. split; [vm_compute; reflexivity|].
  split; [reflexivity|]. split; [reflexivity|].
  split; [vm_compute; reflexivity|]. split; [reflexivity|].
  intros H. apply (f_equal sessionLoading) in H. discriminate H.
Qed.

(** C2 (reset on resubmission), amended.  A second valid submission while
    a first session is incomplete starts the new session with the Answer
    records, the Summary and the ordering hint cleared and the pending
    numbers reset to 1..N' for the new surviving questions, and closes the
    superseded socket.  From then on that socket delivers no [open] and no
    [message]; its [error] and [close] events are still handled: they leave
    the Answer records, the typing map, the Summary, the ordering hint and
    the current socket as they are, and turn the awaiting indicator off. *)
Theorem C2_reset_on_resubmission (σ : Sys) (old : nat) :
  ws (state σ) = Some old ->
  (old < List.length (sockets σ))%nat ->
  valid_input (state σ) = true ->
  exists σ1,
    IFRSAdvisor.deliver Click_submit σ = Some σ1
    /\ answers (state σ1) = []
    /\ summary (state σ1) = None
    /\ sentInOrder (state σ1) = None
    /\ (forall k,
          In k (pendingNumbers (state σ1)) <->
          1 <= k
            <= Z.of_nat (List.length (trimmedQuestions (questions (state σ)))))
    /\ ws (state σ1) = Some (List.length (sockets σ))
    /\ shut old σ1 = true
    /\ forall es σ2 e σ3,
         IFRSAdvisor.deliver_all es σ1 = Some σ2 ->
         event_socket e = Some old ->
         IFRSAdvisor.deliver e σ2 = Some σ3 ->
         ((exists socket, e = Socket_error socket)
          \/ (exists socket ev, e = Socket_close socket ev))
         /\ same_results (state σ2) (state σ3)
         /\ ws (state σ3) = ws (state σ2)
         /\ sessionLoading (state σ3) = false.
Proof.
  intros Hws Hlt Hv.
  destruct (IFRS_submit_valid σ Hv) as (σ1 & H1 & Es1 & _ & _ & Hshut).
  exists σ1. split; [exact H1|]. rewrite Es1.
  do 3 (split; [reflexivity|]).
  split; [intros k; apply pending_fresh_session|].
  split; [reflexivity|].
  split; [now apply Hshut|].
  intros es σ2 e σ3 Hes He H.
  assert (Hs2 : shut old σ2 = true).
  { eapply shut_run; [apply IFRS_sockets_advance|exact Hes|].
    now apply Hshut. }
  split; [|exact (@IFRS_superseded e old σ2 σ3 Hs2 He H)].
  destruct e; try discriminate He; injection He as ->; eauto;
    exfalso; open_deliver H; eapply shut_not_connecting; eauto.
Qed.

Lemma C2_reset_on_resubmission_witness :
  exists σ1,
    IFRSAdvisor.deliver Click_submit (lease_open IFRSAdvisor.deliver)
    = Some σ1
    /\ answers (state σ1) = []
    /\ ws (state σ1) = Some 1%nat
    /\ shut 0 σ1 = true.
Proof.
  destruct (C2_reset_on_resubmission (lease_open IFRSAdvisor.deliver) 0)
    as (σ1 & H & Ha & _ & _ & _ & Hws & Hs & _).
  - reflexivity.
  - apply Nat.ltb_lt. reflexivity.
  - reflexivity.
  - exists σ1. auto.
Defined.

(** The same in the later revision. *)
Theorem Part001_reset_on_resubmission (σ : Sys) (old : nat) :
  ws (state σ) = Some old ->
  (old < List.length (sockets σ))%nat ->
  valid_input (state σ) = true ->
  exists σ1,
    Part001.deliver Click_submit σ = Some σ1
    /\ state σ1 = fresh_session (state σ) (List.length (sockets σ))
    /\ shut old σ1 = true
    /\ forall es σ2 e σ3,
         Part001.deliver_all es σ1 = Some σ2 ->
         event_socket e = Some old ->
         Part001.deliver e σ2 = Some σ3 ->
         same_results (state σ2) (state σ3)
         /\ ws (state σ3) = ws (state σ2)
         /\ sessionLoading (state σ3) = false.
Proof.
  intros Hws Hlt Hv.
  destruct (Part001_submit_valid σ Hv) as (σ1 & H1 & Es1 & _ & _ & Hshut & _).
  exists σ1. do 2 (split; [assumption|]).
  split; [now apply Hshut|].
  intros es σ2 e σ3 Hes He H.
  apply (@Part001_superseded e old σ2 σ3); [|exact He|exact H].
  eapply shut_run; [apply Part001_sockets_advance|exact Hes|].
  now apply Hshut.
Qed.

(** C3, as stated, fails: [onclose] does not look at the Summary.  After
    the summary has been processed, a close with an abnormal code is still
    reported to the user. *)
Lemma C3_close_after_summary_is_surfaced :
  exists σ σ',
    Part001.deliver_all
      (lease_form
       ++ [Click_submit; Socket_open 0;
           Socket_message 0 (Parsable (Summary lease_summary))]) initial
    = Some σ
    /\ summary (state σ) = Some lease_summary
    /\ sessionLoading (state σ) = false
    /\ toasts σ = []
    /\ Part001.deliver (Socket_close 0 abnormal_closure) σ = Some σ'
    /\ toasts σ' = [ConnectionClosed abnormal_closure].
Proof.
  eexists. eexists. split; [vm_compute; reflexivity|].
  do 3 (split; [reflexivity|]).
  split; [vm_compute; reflexivity|]. reflexivity.
Qed.

(** C3 (close events), amended.  A close event is reported to the user as
    a failure exactly when its closure code is not 1000, the normal
    closure, whether or not a summary has been processed; in all cases the
    awaiting indicator is turned off, and nothing else of the component
    state changes. *)
Theorem C3_close_event (σ σ' : Sys) (socket : nat) (ev : CloseEvent) :
  Part001.deliver (Socket_close socket ev) σ = Some σ' ->
  state σ' = awaiting_off (state σ)
  /\ (code ev = 1000 -> toasts σ' = toasts σ)
  /\ (code ev <> 1000 -> toasts σ' = toasts σ ++ [ConnectionClosed ev]).
Proof.
  intros H. open_deliver H.
  destruct (handle_frame (Part001.onclose socket w ev)
              (mark_closed true socket σ)) as (Es & _ & Et & _).
  rewrite Es, Et. clear Es Et.
  unfold Part001.onclose, Part001.clear_connectTimeout, run, bind.
  destruct (captured_connectTimeout w); simpl;
    destruct (Z.eqb_spec (code ev) 1000); simpl;
    repeat split; intros; try reflexivity; contradiction.
Qed.

Lemma C3_close_event_witness :
  exists σ',
    Part001.deliver (Socket_close 0 normal_closure)
      (lease_open Part001.deliver) = Some σ'
    /\ sessionLoading (state σ') = false
    /\ toasts σ' = [].
Proof.
  destruct (Part001.deliver (Socket_close 0 normal_closure)
              (lease_open Part001.deliver)) as [σ'|] eqn:H;
    [|vm_compute in H; discriminate H].
  destruct (C3_close_event _ _ _ _ H) as (Es & Et & _).
  exists σ'. split; [reflexivity|]. split.
  - rewrite Es. reflexivity.
  - rewrite (Et eq_refl). reflexivity.
Defined.

(** C4, as stated, fails in its second half: the background is checked
    first.  With a blank background and only blank questions, the very
    state the component starts in, the user is told that the background is
    required, not that a question is missing. *)
Lemma C4_blank_background_wins :
  Forall (fun q => trim q = []) (questions (state initial))
  /\ IFRSAdvisor.deliver Click_submit initial
     = Some (with_toasts (fun _ => [EmptyBackground]) initial)
  /\ EmptyBackground <> NoQuestions.
Proof.
  split; [repeat constructor|]. split; [reflexivity|].
  intros H. apply (f_equal title) in H. vm_compute in H. discriminate H.
Qed.

Lemma all_blank_trimmed qs :
  Forall (fun q => trim q = []) qs -> trimmedQuestions qs = [].
Proof.
  unfold trimmedQuestions. induction 1 as [|q qs Hq _ IH]; simpl;
    [reflexivity|]. now rewrite Hq.
Qed.

(** C4 (validation gating), amended.  A submission whose background trims
    to empty shows the EmptyBackground error; a submission whose background
    does not trim to empty and whose questions all trim to empty shows the
    NoQuestions error.  In both cases the handler returns having done
    nothing else: no socket is created and the component state is as
    before. *)
Theorem C4_validation_gating (σ : Sys) :
  (trim (background (state σ)) = [] ->
   IFRSAdvisor.deliver Click_submit σ
   = Some (with_toasts (fun l => l ++ [EmptyBackground]) σ))
  /\ (trim (background (state σ)) <> [] ->
      Forall (fun q => trim q = []) (questions (state σ)) ->
      IFRSAdvisor.deliver Click_submit σ
      = Some (with_toasts (fun l => l ++ [NoQuestions]) σ)).
Proof.
  split.
  - intros Hb. unfold IFRSAdvisor.deliver, deliver. f_equal.
    apply handle_toast_only, IFRS_handleSubmit_blank. now rewrite Hb.
  - intros Hb Hq. unfold IFRSAdvisor.deliver, deliver. f_equal.
    apply handle_toast_only, IFRS_handleSubmit_no_questions.
    + now destruct (trim (background (state σ))).
    + now apply all_blank_trimmed.
Qed.

Lemma C4_validation_gating_witness :
  IFRSAdvisor.deliver Click_submit initial
  = Some (with_toasts (fun l => l ++ [EmptyBackground]) initial)
  /\ exists σ,
       IFRSAdvisor.deliver_all
         [Change_background (lit "ctx"); Click_addQuestion;
          Change_question 1 (lit "  ")] initial = Some σ
       /\ IFRSAdvisor.deliver Click_submit σ
          = Some (with_toasts (fun l => l ++ [NoQuestions]) σ).
Proof.
  split.
  - apply (proj1 (C4_validation_gating _)). reflexivity.
  - eexists. split; [vm_compute; reflexivity|].
    apply (proj2 (C4_validation_gating _)).
    + vm_compute. discriminate.
    + repeat constructor.
Defined.

(** The same in the later revision. *)
Theorem Part001_validation_gating (σ : Sys) :
  (trim (background (state σ)) = [] ->
   Part001.deliver Click_submit σ
   = Some (with_toasts (fun l => l ++ [EmptyBackground]) σ))
  /\ (trim (background (state σ)) <> [] ->
      Forall (fun q => trim q = []) (questions (state σ)) ->
      Part001.deliver Click_submit σ
      = Some (with_toasts (fun l => l ++ [NoQuestions]) σ)).
Proof.
  split.
  - intros Hb. unfold Part001.deliver, deliver. f_equal.
    apply handle_toast_only, Part001_handleSubmit_blank. now rewrite Hb.
  - intros Hb Hq. unfold Part001.deliver, deliver. f_equal.
    apply handle_toast_only, Part001_handleSubmit_no_questions.
    + now destruct (trim (background (state σ))).
    + now apply all_blank_trimmed.
Qed.

(** ** Both files have what the reconciler needs *)

Lemma IFRS_well_keyed σ :
  Reachable IFRSAdvisor.deliver σ -> well_keyed (state σ).
Proof.
  apply well_keyed_reachable.
  - exact (@IFRS_other_events).
  - exact (@IFRS_answer).
  - exact (@IFRS_submit_state).
Qed.

Lemma Part001_well_keyed σ :
  Reachable Part001.deliver σ -> well_keyed (state σ).
Proof.
  apply well_keyed_reachable.
  - exact (@Part001_other_events).
  - exact (@Part001_answer).
  - exact (@Part001_submit_state).
Qed.

(** C5 (idempotent overwrite).  Two answer messages [m1] then [m2] for the
    same question number leave one Answer record for that number, holding
    [m2]: the Answer records and the typing map are those that [m2] alone
    would have left, and [sortedAnswers] has [m2] as its only entry for the
    number. *)
Theorem C5_idempotent_overwrite
  (σ : Sys) (socket : nat) (m1 m2 : AnswerMessage.t) :
  Reachable IFRSAdvisor.deliver σ ->
  socket_state socket σ = Some OPEN ->
  AnswerMessage.question_number m1 = AnswerMessage.question_number m2 ->
  exists σ12 σ2,
    IFRSAdvisor.deliver_all
      [answer_event socket m1; answer_event socket m2] σ = Some σ12
    /\ IFRSAdvisor.deliver (answer_event socket m2) σ = Some σ2
    /\ answers (state σ12) = answers (state σ2)
    /\ typing (state σ12) = typing (state σ2)
    /\ obj_get (AnswerMessage.question_number m2) (answers (state σ12))
       = Some m2
    /\ filter
         (fun e => fst e =? AnswerMessage.question_number m2)
         (answers (state σ12))
       = [(AnswerMessage.question_number m2, m2)]
    /\ filter
         (fun a => AnswerMessage.question_number a
                   =? AnswerMessage.question_number m2)
         (sortedAnswers (state σ12)) = [m2].
Proof.
  intros Hr Hopen Hn.
  apply (@overwrite IFRSAdvisor.deliver (@IFRS_other_events) (@IFRS_answer)
           IFRS_answer_delivered (@IFRS_submit_state)); auto.
  now apply IFRS_well_keyed.
Qed.

Lemma lease_open_reachable : Reachable IFRSAdvisor.deliver
                               (lease_open IFRSAdvisor.deliver).
Proof.
  exists (lease_form ++ [Click_submit; Socket_open 0]).
  vm_compute. reflexivity.
Defined.

Lemma C5_idempotent_overwrite_witness :
  exists σ12,
    IFRSAdvisor.deliver_all
      [answer_event 0 lease_answer_2; answer_event 0 lease_answer_2_revised]
      (lease_open IFRSAdvisor.deliver) = Some σ12
    /\ sortedAnswers (state σ12) = [lease_answer_2_revised].
Proof.
  destruct (C5_idempotent_overwrite (lease_open IFRSAdvisor.deliver) 0
              lease_answer_2 lease_answer_2_revised)
    as (σ12 & σ2 & H12 & _).
  - exact lease_open_reachable.
  - reflexivity.
  - reflexivity.
  - exists σ12. split; [exact H12|].
    vm_compute in H12. injection H12 as <-. reflexivity.
Defined.

(** The same in the later revision. *)
Theorem Part001_idempotent_overwrite
  (σ : Sys) (socket : nat) (m1 m2 : AnswerMessage.t) :
  Reachable Part001.deliver σ ->
  socket_state socket σ = Some OPEN ->
  AnswerMessage.question_number m1 = AnswerMessage.question_number m2 ->
  exists σ12 σ2,
    Part001.deliver_all
      [answer_event socket m1; answer_event socket m2] σ = Some σ12
    /\ Part001.deliver (answer_event socket m2) σ = Some σ2
    /\ answers (state σ12) = answers (state σ2)
    /\ typing (state σ12) = typing (state σ2)
    /\ obj_get (AnswerMessage.question_number m2) (answers (state σ12))
       = Some m2
    /\ filter
         (fun e => fst e =? AnswerMessage.question_number m2)
         (answers (state σ12))
       = [(AnswerMessage.question_number m2, m2)]
    /\ filter
         (fun a => AnswerMessage.question_number a
                   =? AnswerMessage.question_number m2)
         (sortedAnswers (state σ12)) = [m2].
Proof.
  intros Hr Hopen Hn.
  apply (@overwrite Part001.deliver (@Part001_other_events)
           (@Part001_answer) Part001_answer_delivered
           (@Part001_submit_state)); auto.
  now apply Part001_well_keyed.
Qed.

(** C6 (pending-set consistency).  Right after a valid submission with N
    surviving questions the pending numbers are 1..N.  Over any run of
    events of a session (no new submission), from any state the component
    can be in, a number is pending afterwards exactly when it was pending
    before and no answer message for it was processed in the run: an answer
    for k takes k out (or leaves the set alone if k was not in it), no other
    event takes a number out, and a number never answered stays pending. *)
Theorem C6_pending_set_consistency :
  (forall σ,
     valid_input (state σ) = true ->
     exists σ1,
       IFRSAdvisor.deliver Click_submit σ = Some σ1
       /\ forall k,
            In k (pendingNumbers (state σ1)) <->
            1 <= k
              <= Z.of_nat
                   (List.length (trimmedQuestions (questions (state σ)))))
  /\ (forall σ es σ',
        Reachable IFRSAdvisor.deliver σ ->
        IFRSAdvisor.deliver_all es σ = Some σ' ->
        existsb is_submit es = false ->
        forall k,
          In k (pendingNumbers (state σ')) <->
          In k (pendingNumbers (state σ)) /\ ~ In k (answered es)).
Proof.
  split.
  - intros σ Hv.
    destruct (IFRS_submit_valid σ Hv) as (σ1 & H1 & Es1 & _).
    exists σ1. split; [exact H1|]. intros k. rewrite Es1.
    apply pending_fresh_session.
  - intros σ es σ' Hr H Hs.
    apply (@pending_run IFRSAdvisor.deliver (@IFRS_other_events)
             (@IFRS_answer) (@IFRS_submit_state) es σ σ' H Hs).
    now apply IFRS_well_keyed.
Qed.

Lemma C6_pending_set_consistency_witness :
  (exists σ1,
     IFRSAdvisor.deliver Click_submit (lease_typed IFRSAdvisor.deliver)
     = Some σ1
     /\ pendingNumbers (state σ1) = [1; 2])
  /\ exists σ',
       IFRSAdvisor.deliver_all
         [answer_event 0 lease_answer_2;
          Socket_message 0 (Parsable (Summary lease_summary));
          Socket_close 0 normal_closure]
         (lease_open IFRSAdvisor.deliver) = Some σ'
       /\ (In 1 (pendingNumbers (state σ'))
           <-> In 1 (pendingNumbers (state (lease_open IFRSAdvisor.deliver)))
               /\ ~ In 1 [2]).
Proof.
  split.
  - destruct (proj1 C6_pending_set_consistency
                (lease_typed IFRSAdvisor.deliver) eq_refl)
      as (σ1 & H1 & _).
    exists σ1. split; [exact H1|].
    vm_compute in H1. injection H1 as <-. reflexivity.
  - eexists. split; [vm_compute; reflexivity|].
    apply (proj2 C6_pending_set_consistency
             (lease_open IFRSAdvisor.deliver)
             [answer_event 0 lease_answer_2;
              Socket_message 0 (Parsable (Summary lease_summary));
              Socket_close 0 normal_closure]).
    + exact lease_open_reachable.
    + vm_compute. reflexivity.
    + reflexivity.
Defined.

(** The same in the later revision, where the timer's callback is one more
    event that leaves the typing map alone. *)
Theorem Part001_pending_set_consistency :
  (forall σ,
     valid_input (state σ) = true ->
     exists σ1,
       Part001.deliver Click_submit σ = Some σ1
       /\ forall k,
            In k (pendingNumbers (state σ1)) <->
            1 <= k
              <= Z.of_nat
                   (List.length (trimmedQuestions (questions (state σ)))))
  /\ (forall σ es σ',
        Reachable Part001.deliver σ ->
        Part001.deliver_all es σ = Some σ' ->
        existsb is_submit es = false ->
        forall k,
          In k (pendingNumbers (state σ')) <->
          In k (pendingNumbers (state σ)) /\ ~ In k (answered es)).
Proof.
  split.
  - intros σ Hv.
    destruct (Part001_submit_valid σ Hv) as (σ1 & H1 & Es1 & _).
    exists σ1. split; [exact H1|]. intros k. rewrite Es1.
    apply pending_fresh_session.
  - intros σ es σ' Hr H Hs.
    apply (@pending_run Part001.deliver (@Part001_other_events)
             (@Part001_answer) (@Part001_submit_state) es σ σ' H Hs).
    now apply Part001_well_keyed.
Qed.

(** For a session: the frame is delivered, the session is as it was, and
    the socket stays open for the messages that follow. *)
Lemma malformed_message_delivered (socket : nat) (raw : jsstring) (σ : Sys) :
  socket_state socket σ = Some OPEN ->
  exists σ' σ'',
    IFRSAdvisor.deliver (Socket_message socket (Unparsable raw)) σ = Some σ'
    /\ state σ' = state σ /\ sockets σ' = sockets σ
    /\ toasts σ' = toasts σ
    /\ Part001.deliver (Socket_message socket (Unparsable raw)) σ = Some σ''
    /\ state σ'' = state σ /\ sockets σ'' = sockets σ
    /\ toasts σ'' = toasts σ.
Proof.
  intros H. destruct (socket_open_inv _ _ H) as (w & Hw & Hr).
  unfold IFRSAdvisor.deliver, Part001.deliver, deliver. rewrite Hw, Hr.
  do 2 eexists. split; [reflexivity|].
  rewrite !handle_same_ws by reflexivity. repeat split.
Qed.



(** C9 (no range check).  Every answer message that reaches the handler is
    recorded, whatever its [question_number]: zero, negative, or beyond the
    number of questions submitted.  The message becomes the Answer record of
    its number, it is in [sortedAnswers], which is in ascending order, and
    the number's typing flag is false afterwards, so that a number that was
    not a key of the typing map is one now. *)
Theorem C9_no_range_check (σ : Sys) (socket : nat) (msg : AnswerMessage.t) :
  socket_state socket σ = Some OPEN ->
  exists σ',
    IFRSAdvisor.deliver (answer_event socket msg) σ = Some σ'
    /\ obj_get (AnswerMessage.question_number msg) (answers (state σ'))
       = Some msg
    /\ In msg (sortedAnswers (state σ'))
    /\ StronglySorted (le_key AnswerMessage.question_number)
         (sortedAnswers (state σ'))
    /\ obj_get (AnswerMessage.question_number msg) (typing (state σ'))
       = Some false
    /\ In (AnswerMessage.question_number msg) (map fst (typing (state σ'))).
Proof.
  intros Hopen.
  destruct (IFRS_answer_delivered socket msg σ Hopen) as [σ' H].
  destruct (@IFRS_answer socket msg σ σ' H) as (Ea & Et & _).
  assert (Hget : obj_get (AnswerMessage.question_number msg)
                   (answers (state σ')) = Some msg).
  { now rewrite Ea, obj_get_set, Z.eqb_refl. }
  assert (Htyp : obj_get (AnswerMessage.question_number msg)
                   (typing (state σ')) = Some false).
  { now rewrite Et, obj_get_set, Z.eqb_refl. }
  exists σ'. repeat split; auto.
  - eapply sortedAnswers_holds, Hget.
  - apply sortedAnswers_sorted.
  - apply obj_get_in in Htyp.
    change (AnswerMessage.question_number msg)
      with (fst (AnswerMessage.question_number msg, false)).
    now apply in_map.
Qed.

Lemma C9_no_range_check_witness :
  exists σ',
    IFRSAdvisor.deliver (answer_event 0 stray_answer)
      (lease_open IFRSAdvisor.deliver) = Some σ'
    /\ map fst (typing (state (lease_open IFRSAdvisor.deliver))) = [1; 2]
    /\ sortedAnswers (state σ') = [stray_answer]
    /\ typing (state σ') = [(1, true); (2, true); (0, false)].
Proof.
  destruct (C9_no_range_check (lease_open IFRSAdvisor.deliver) 0
              stray_answer eq_refl) as (σ' & H & _).
  exists σ'. split; [exact H|].
  vm_compute in H. injection H as <-. repeat split.
Defined.

(** The same in the later revision. *)
Theorem Part001_no_range_check
  (σ : Sys) (socket : nat) (msg : AnswerMessage.t) :
  socket_state socket σ = Some OPEN ->
  exists σ',
    Part001.deliver (answer_event socket msg) σ = Some σ'
    /\ obj_get (AnswerMessage.question_number msg) (answers (state σ'))
       = Some msg
    /\ In msg (sortedAnswers (state σ'))
    /\ StronglySorted (le_key AnswerMessage.question_number)
         (sortedAnswers (state σ'))
    /\ obj_get (AnswerMessage.question_number msg) (typing (state σ'))
       = Some false.
Proof.
  intros Hopen.
  destruct (Part001_answer_delivered socket msg σ Hopen) as [σ' H].
  destruct (@Part001_answer socket msg σ σ' H) as (Ea & Et & _).
  assert (Hget : obj_get (AnswerMessage.question_number msg)
                   (answers (state σ')) = Some msg).
  { now rewrite Ea, obj_get_set, Z.eqb_refl. }
  exists σ'. repeat split; auto.
  - eapply sortedAnswers_holds, Hget.
  - apply sortedAnswers_sorted.
  - now rewrite Et, obj_get_set, Z.eqb_refl.
Qed.

(** C10 (what a failure leaves).  In both files a transport error event
    and a transport close event change one cell of the component state, the
    awaiting indicator, which they turn off: the Answer records, the typing
    map, the Summary and the ordering hint are as before, and so is
    [sortedAnswers]. *)
Theorem C10_failure_frame (σ σ' : Sys) (e : Event) :
  (exists socket, e = Socket_error socket)
  \/ (exists socket ev, e = Socket_close socket ev) ->
  IFRSAdvisor.deliver e σ = Some σ' \/ Part001.deliver e σ = Some σ' ->
  state σ' = awaiting_off (state σ)
  /\ same_results (state σ) (state σ')
  /\ sortedAnswers (state σ') = sortedAnswers (state σ).
Proof.
  intros He H.
  assert (Es : state σ' = awaiting_off (state σ)).
  { destruct He as [[socket ->]|(socket & ev & ->)], H as [H|H];
      open_deliver H; rewrite handle_state; run_handler. }
  rewrite Es. repeat split.
Qed.

Lemma C10_failure_frame_witness :
  exists σ1 σ2,
    IFRSAdvisor.deliver_all
      [answer_event 0 lease_answer_2; Socket_error 0]
      (lease_open IFRSAdvisor.deliver) = Some σ1
    /\ sortedAnswers (state σ1) = [lease_answer_2]
    /\ Part001.deliver_all
         [answer_event 0 lease_answer_2; Socket_close 0 abnormal_closure]
         (lease_open Part001.deliver) = Some σ2
    /\ sortedAnswers (state σ2) = [lease_answer_2].
Proof.
  destruct (IFRSAdvisor.deliver (answer_event 0 lease_answer_2)
              (lease_open IFRSAdvisor.deliver)) as [σa|] eqn:Ha;
    [|vm_compute in Ha; discriminate Ha].
  destruct (IFRSAdvisor.deliver (Socket_error 0) σa) as [σ1|] eqn:H1;
    [|vm_compute in Ha; injection Ha as <-; vm_compute in H1;
      discriminate H1].
  destruct (Part001.deliver (answer_event 0 lease_answer_2)
              (lease_open Part001.deliver)) as [σb|] eqn:Hb;
    [|vm_compute in Hb; discriminate Hb].
  destruct (Part001.deliver (Socket_close 0 abnormal_closure) σb)
    as [σ2|] eqn:H2;
    [|vm_compute in Hb; injection Hb as <-; vm_compute in H2;
      discriminate H2].
  exists σ1, σ2.
  destruct (C10_failure_frame σa σ1 (Socket_error 0)
              (or_introl (ex_intro _ 0%nat eq_refl)) (or_introl H1))
    as (_ & _ & E1).
  destruct (C10_failure_frame σb σ2 (Socket_close 0 abnormal_closure)
              (or_intror (ex_intro _ 0%nat (ex_intro _ abnormal_closure
                                             eq_refl)))
              (or_intror H2)) as (_ & _ & E2).
  unfold IFRSAdvisor.deliver_all, Part001.deliver_all.
  rewrite (deliver_all_step _ _ _ _ _ Ha), (deliver_all_step _ _ _ _ _ H1).
  rewrite (deliver_all_step _ _ _ _ _ Hb), (deliver_all_step _ _ _ _ _ H2).
  simpl. rewrite E1, E2.
  vm_compute in Ha. injection Ha as <-.
  vm_compute in Hb. injection Hb as <-.
  repeat split.
Defined.

(** ** The connection timer (later revision) *)

Lemma close_view_snd v : snd (close_view v) = snd v.
Proof. destruct v as [[] c]; reflexivity. Qed.

Lemma close_view_not_connecting v : fst (close_view v) <> CONNECTING.
Proof. destruct v as [[] c]; discriminate. Qed.

Lemma connecting_at_iff s vs :
  connecting_at s vs = true <->
  option_map fst (nth_error vs s) = Some CONNECTING.
Proof.
  unfold connecting_at. destruct (nth_error vs s) as [[[] c]|]; simpl;
    split; congruence.
Qed.

Lemma watches_on_step tms vs tms' vs' t s D :
  TimerStep (tms, vs) (tms', vs') ->
  watches_on tms vs t s D -> watches_on tms' vs' t s D.
Proof.
  intros Hstep ((tm & Ht & Hs & Hd & Hp) & Hlen & Hown).
  assert (Htl : (t < List.length tms)%nat).
  { apply nth_error_Some. congruence. }
  revert Hs Hd.
  inversion Hstep as
    [? ?|? ? s0 v0 r Hv0 Hr|? ? t0 tm0 Ht0|? ? old D0|? ? s0 Hopen]; subst;
    clear Hstep; intros Hs Hd.
  - (* nothing *)
    split; [exists tm; auto|]. split; assumption.
  - (* a socket settles *)
    assert (Hview : forall j v,
               nth_error (update_nth s0 (fun v => (r, snd v)) vs) j = Some v ->
               exists v1, nth_error vs j = Some v1 /\ snd v = snd v1
                          /\ (fst v = CONNECTING -> fst v1 = CONNECTING
                                                    /\ j <> s0)).
    { intros j v. rewrite nth_error_update_nth.
      destruct (Nat.eqb_spec s0 j) as [->|Hne].
      - destruct (nth_error vs j) as [v1|]; simpl; [|discriminate].
        intros [= <-]. exists v1. simpl. repeat split; congruence.
      - intros Hj. exists v. repeat split; congruence. }
    split; [|split].
    + assert (Hprem : option_map fst
                        (nth_error (update_nth s0 (fun v => (r, snd v)) vs) s)
                      = Some CONNECTING ->
                      option_map fst (nth_error vs s) = Some CONNECTING
                      /\ s <> s0).
      { destruct (nth_error (update_nth _ _ vs) s) as [v|] eqn:E;
          [|discriminate]. simpl. intros [= Hc].
        destruct (Hview _ _ E) as (v1 & -> & _ & Hk). simpl.
        destruct (Hk Hc) as [-> Hne]. auto. }
      destruct (snd v0) as [t1|] eqn:Ev0; simpl.
      * rewrite nth_error_update_nth, Ht.
        destruct (Nat.eqb_spec t1 t) as [->|Hne]; simpl.
        -- exists (set_cleared tm). do 3 (split; [auto|]).
           intros Hc. destruct (Hprem Hc) as [_ Hns].
           exfalso. apply Hns. symmetry. apply (Hown s0 v0 Hv0 Ev0).
        -- exists tm. do 3 (split; [auto|]).
           intros Hc. now apply Hp, Hprem.
      * exists tm. do 3 (split; [auto|]).
        intros Hc. now apply Hp, Hprem.
    + now rewrite update_nth_length.
    + intros s' v Hv Hsnd. destruct (Hview _ _ Hv) as (v1 & H1 & E & _).
      apply (Hown s' v1 H1). congruence.
  - (* a timer fires *)
    set (vs' := if connecting_at (timer_socket tm0) vs
                then update_nth (timer_socket tm0)
                       (fun v => (CLOSING, snd v)) vs
                else vs).
    assert (Hview : forall j v,
               nth_error vs' j = Some v ->
               exists v1, nth_error vs j = Some v1 /\ snd v = snd v1
                          /\ (fst v = CONNECTING ->
                              fst v1 = CONNECTING
                              /\ j <> timer_socket tm0)).
    { intros j v. unfold vs'.
      destruct (connecting_at (timer_socket tm0) vs) eqn:Ec.
      - rewrite nth_error_update_nth.
        destruct (Nat.eqb_spec (timer_socket tm0) j) as [<-|Hne].
        + destruct (nth_error vs (timer_socket tm0)) as [v1|]; simpl;
            [|discriminate].
          intros [= <-]. exists v1. simpl. repeat split; congruence.
        + intros Hj. exists v. repeat split; congruence.
      - intros Hj. exists v. repeat split; auto.
        intros ->. apply not_true_iff_false in Ec. apply Ec.
        apply connecting_at_iff. rewrite Hj. simpl. congruence. }
    assert (Hprem : option_map fst (nth_error vs' s) = Some CONNECTING ->
                    option_map fst (nth_error vs s) = Some CONNECTING
                    /\ s <> timer_socket tm0).
    { destruct (nth_error vs' s) as [v|] eqn:E; [|discriminate].
      simpl. intros [= Hc].
      destruct (Hview _ _ E) as (v1 & -> & _ & Hk). simpl.
      destruct (Hk Hc) as [-> Hne]. auto. }
    split; [|split].
    + rewrite nth_error_update_nth, Ht.
      destruct (Nat.eqb_spec t0 t) as [->|Hne]; simpl.
      * exists (set_fired tm). do 3 (split; [auto|]).
        intros Hc. destruct (Hprem Hc) as [_ Hns].
        exfalso. apply Hns. congruence.
      * exists tm. do 3 (split; [auto|]).
        intros Hc. now apply Hp, Hprem.
    + unfold vs'. destruct (connecting_at _ _);
        [now rewrite update_nth_length|assumption].
    + intros s' v Hv Hsnd. destruct (Hview _ _ Hv) as (v1 & H1 & E & _).
      apply (Hown s' v1 H1). congruence.
  - (* a submission *)
    set (vs1 := vs ++ [(CONNECTING, Some (List.length tms))]).
    set (vs' := match old with
                | Some o => update_nth o close_view vs1
                | None => vs1
                end).
    assert (Hview : forall j v,
               nth_error vs' j = Some v ->
               exists v1, nth_error vs1 j = Some v1 /\ snd v = snd v1
                          /\ (fst v = CONNECTING -> fst v1 = CONNECTING)).
    { intros j v. unfold vs'. destruct old as [o|].
      - rewrite nth_error_update_nth.
        destruct (Nat.eqb_spec o j) as [->|Hne].
        + destruct (nth_error vs1 j) as [v1|]; simpl; [|discriminate].
          intros [= <-]. exists v1. split; [reflexivity|].
          split; [apply close_view_snd|].
          intros Hc. now destruct (close_view_not_connecting v1).
        + intros Hj. exists v. auto.
      - intros Hj. exists v. auto. }
    assert (Hold : forall j, (j < List.length vs)%nat ->
                             nth_error vs1 j = nth_error vs j).
    { intros j Hj. unfold vs1. now rewrite nth_error_app1. }
    split; [|split].
    + exists tm. rewrite nth_error_app1 by exact Htl.
      do 3 (split; [auto|]). intros Hc.
      destruct (nth_error vs' s) as [v|] eqn:E; [|discriminate].
      simpl in Hc. injection Hc as Hc.
      destruct (Hview _ _ E) as (v1 & H1 & _ & Hk).
      rewrite (Hold _ Hlen) in H1.
      apply Hp. rewrite H1. simpl. now rewrite (Hk Hc).
    + unfold vs', vs1. destruct old;
        rewrite ?update_nth_length, length_app; simpl; lia.
    + intros s' v Hv Hsnd. destruct (Hview _ _ Hv) as (v1 & H1 & E & _).
      destruct (Nat.lt_ge_cases s' (List.length vs)) as [Hlt|Hge].
      * rewrite (Hold _ Hlt) in H1. apply (Hown s' v1 H1). congruence.
      * unfold vs1 in H1. rewrite nth_error_app2 in H1 by exact Hge.
        destruct (s' - List.length vs)%nat as [|n]; simpl in H1.
        -- injection H1 as <-. simpl in E. rewrite E in Hsnd.
           injection Hsnd as <-. lia.
        -- now destruct n.
  - (* the server starts closing an open socket *)
    assert (Hview : forall j v,
               nth_error (update_nth s0 (fun v => (CLOSING, snd v)) vs) j
               = Some v ->
               exists v1, nth_error vs j = Some v1 /\ snd v = snd v1
                          /\ (fst v = CONNECTING -> fst v1 = CONNECTING)).
    { intros j v. rewrite nth_error_update_nth.
      destruct (Nat.eqb_spec s0 j) as [->|Hne].
      - destruct (nth_error vs j) as [v1|]; simpl; [|discriminate].
        intros [= <-]. exists v1. simpl. repeat split; congruence.
      - intros Hj. exists v. repeat split; congruence. }
    split; [|split].
    + exists tm. do 3 (split; [auto|]). intros Hc. apply Hp.
      destruct (nth_error (update_nth _ _ vs) s) as [v|] eqn:E;
        [|discriminate].
      simpl in Hc. injection Hc as Hc.
      destruct (Hview _ _ E) as (v1 & H1 & _ & Hk).
      rewrite H1. simpl. now rewrite (Hk Hc).
    + now rewrite update_nth_length.
    + intros s' v Hv Hsnd. destruct (Hview _ _ Hv) as (v1 & H1 & E & _).
      apply (Hown s' v1 H1). congruence.
Qed.

Lemma timers_known_step tms vs tms' vs' :
  TimerStep (tms, vs) (tms', vs') ->
  timers_known tms vs -> timers_known tms' vs'.
Proof.
  intros Hstep Hk.
  inversion Hstep as
    [? ?|? ? s0 v0 r Hv0 Hr|? ? t0 tm0 Ht0|? ? old D0|? ? s0 Hopen]; subst;
    clear Hstep; intros s v t Hv Hsnd.
  - eauto.
  - assert (Hlen : List.length (clear (snd v0) tms) = List.length tms).
    { unfold clear. destruct (snd v0); [apply update_nth_length|auto]. }
    rewrite Hlen. rewrite nth_error_update_nth in Hv.
    destruct (Nat.eqb_spec s0 s) as [->|Hne]; [|eauto].
    destruct (nth_error vs s) as [v1|] eqn:E; [|discriminate].
    injection Hv as <-. eauto.
  - rewrite update_nth_length.
    destruct (connecting_at (timer_socket tm0) vs); [|eauto].
    rewrite nth_error_update_nth in Hv.
    destruct (Nat.eqb_spec (timer_socket tm0) s) as [<-|Hne]; [|eauto].
    destruct (nth_error vs (timer_socket tm0)) as [v1|] eqn:E;
      [|discriminate].
    injection Hv as <-. eauto.
  - rewrite length_app. simpl.
    assert (Hnew : forall v1,
               nth_error (vs ++ [(CONNECTING, Some (List.length tms))]) s
               = Some v1 ->
               snd v1 = Some t -> (t < List.length tms + 1)%nat).
    { intros v1 H1 Hs1.
      destruct (Nat.lt_ge_cases s (List.length vs)) as [Hlt|Hge].
      - rewrite nth_error_app1 in H1 by exact Hlt.
        specialize (Hk _ _ _ H1 Hs1). lia.
      - rewrite nth_error_app2 in H1 by exact Hge.
        destruct (s - List.length vs)%nat as [|n]; simpl in H1.
        + injection H1 as <-. simpl in Hs1. injection Hs1 as <-. lia.
        + now destruct n. }
    destruct old as [o|]; [|eauto].
    rewrite nth_error_update_nth in Hv.
    destruct (Nat.eqb_spec o s) as [->|Hne]; [|eauto].
    destruct (nth_error _ s) as [v1|] eqn:E; [|discriminate].
    injection Hv as <-. rewrite close_view_snd in Hsnd. eauto.
  - rewrite nth_error_update_nth in Hv.
    destruct (Nat.eqb_spec s0 s) as [->|Hne]; [|eauto].
    destruct (nth_error vs s) as [v1|] eqn:E; [|discriminate].
    injection Hv as <-. eauto.
Qed.

Lemma map_update_nth (A B : Type) (g : A -> B) (f : A -> A) (f' : B -> B)
  i l :
  (forall x, g (f x) = f' (g x)) ->
  map g (update_nth i f l) = update_nth i f' (map g l).
Proof.
  intros H. revert i. induction l as [|x l IH]; intros [|i]; simpl;
    try reflexivity; [now rewrite H|now rewrite IH].
Qed.

Lemma update_nth_id (A : Type) (f : A -> A) i (l : list A) :
  (forall x, f x = x) -> update_nth i f l = l.
Proof.
  intros H. revert i. induction l as [|x l IH]; intros [|i]; simpl;
    try reflexivity; [now rewrite H|now rewrite IH].
Qed.

Lemma views_update_same socket f σ :
  (forall w, view (f w) = view w) ->
  map view (update_nth socket f (sockets σ)) = views σ.
Proof.
  intros H. rewrite (map_update_nth _ _ view f (fun v => v)) by exact H.
  now apply update_nth_id.
Qed.

Lemma update_nth_ext_at (A : Type) (f g : A -> A) i (l : list A) :
  (forall x, nth_error l i = Some x -> f x = g x) ->
  update_nth i f l = update_nth i g l.
Proof.
  revert i. induction l as [|x l IH]; intros [|i] H; simpl;
    try reflexivity.
  - now rewrite (H x eq_refl).
  - rewrite IH; [reflexivity|]. intros y Hy. now apply H.
Qed.

Lemma views_nth socket σ w :
  nth_error (sockets σ) socket = Some w ->
  nth_error (views σ) socket = Some (view w).
Proof. intros H. unfold views. now apply map_nth_error. Qed.

Lemma Part001_onopen_effect socket scope σ w :
  nth_error (sockets σ) socket = Some w -> readyState w = OPEN ->
  let σ' := run (Part001.onopen socket scope) σ in
  timers σ' = clear (captured_connectTimeout scope) (timers σ)
  /\ views σ' = views σ
  /\ ws (state σ') = ws (state σ).
Proof.
  intros Hw Hr. unfold Part001.onopen, Part001.clear_connectTimeout, run,
    try_catch, bind, socket_send.
  destruct (captured_connectTimeout scope); simpl; rewrite Hw, Hr; simpl;
    repeat split; try reflexivity;
    apply (views_update_same socket _ σ); reflexivity.
Qed.

Lemma Part001_settle_effect socket scope σ (h : M unit) :
  h = Part001.onerror socket scope
  \/ (exists ev, h = Part001.onclose socket scope ev) ->
  let σ' := run h σ in
  timers σ' = clear (captured_connectTimeout scope) (timers σ)
  /\ views σ' = views σ
  /\ ws (state σ') = ws (state σ).
Proof.
  intros [->|[ev ->]];
    unfold Part001.onerror, Part001.onclose, Part001.clear_connectTimeout,
      run, bind;
    destruct (captured_connectTimeout scope); simpl;
    try destruct (negb (code ev =? 1000)); simpl; repeat split.
Qed.

Lemma views_settled socket r f σ :
  (forall w, view (f w) = (r, snd (view w))) ->
  views (with_sockets (update_nth socket f) σ)
  = update_nth socket (fun v => (r, snd v)) (views σ).
Proof. intros H. unfold views. simpl. now apply map_update_nth. Qed.

Lemma Part001_callback_effect s0 σ :
  let σ' := run (Part001.connectTimeout_callback s0) σ in
  timers σ' = timers σ
  /\ views σ'
     = (if connecting_at s0 (views σ)
        then update_nth s0 (fun v => (CLOSING, snd v)) (views σ)
        else views σ)
  /\ ws (state σ') = ws (state σ).
Proof.
  unfold Part001.connectTimeout_callback, run, bind, socket_readyState,
    connecting_at.
  unfold views at 2. rewrite nth_error_map.
  destruct (nth_error (sockets σ) s0) as [w|] eqn:Hw; simpl;
    [|repeat split].
  destruct (readyState w) eqn:Hr; simpl; repeat split.
  unfold views. simpl.
  rewrite (map_update_nth _ _ view _ close_view).
  - apply update_nth_ext_at. intros v Hv.
    rewrite nth_error_map, Hw in Hv. injection Hv as <-.
    unfold close_view, view. simpl. now rewrite Hr.
  - intros x. unfold view, close_view. simpl.
    destruct (readyState x) eqn:E; simpl; now rewrite ?E.
Qed.

Lemma Part001_timer_step e σ σ' :
  Part001.deliver e σ = Some σ' ->
  TimerStep (timers σ, views σ) (timers σ', views σ').
Proof.
  intros H. destruct e; open_deliver H.
  - rewrite handle_same_ws by reflexivity. constructor.
  - rewrite handle_same_ws by reflexivity. constructor.
  - rewrite handle_same_ws by reflexivity. constructor.
  - rewrite handle_same_ws by reflexivity. constructor.
  - (* submit *)
    destruct (valid_input (state σ)) eqn:Hv.
    + pose proof (Part001_handleSubmit_valid σ Hv) as Hh.
      destruct (handle_frame Part001.handleSubmit σ) as (_ & Et & _).
      unfold run in Et. rewrite Hh in Et. simpl in Et. rewrite Et.
      unfold views, handle, run. rewrite Hh. simpl.
      destruct (option_nat_eqb _ _); simpl.
      * rewrite map_app. simpl. fold (views σ).
        rewrite <- (length_map view (sockets σ)). fold (views σ).
        apply (step_submitted _ _ None).
      * destruct (ws (state σ)) as [o|]; simpl.
        -- rewrite (map_update_nth _ _ view _ close_view).
           ++ rewrite map_app. simpl. fold (views σ).
              rewrite <- (length_map view (sockets σ)). fold (views σ).
              apply (step_submitted _ _ (Some o)).
           ++ intros x. unfold view, close_view. simpl.
              destruct (readyState x) eqn:E; simpl; now rewrite ?E.
        -- rewrite map_app. simpl. fold (views σ).
           rewrite <- (length_map view (sockets σ)). fold (views σ).
           apply (step_submitted _ _ None).
    + destruct (valid_input_false _ Hv) as [Hb|[Hb Hq]].
      * rewrite (@handle_toast_only _ _ _
                   (@Part001_handleSubmit_blank σ Hb)).
        constructor.
      * rewrite (@handle_toast_only _ _ _
                   (@Part001_handleSubmit_no_questions σ Hb Hq)).
        constructor.
  - (* open *)
    set (σ0 := with_sockets (update_nth socket (with_readyState OPEN)) σ).
    destruct (Part001_onopen_effect socket w σ0 (with_readyState OPEN w))
      as (Et & Ev & Ew).
    { unfold σ0. simpl. now rewrite nth_error_update_nth, Nat.eqb_refl, Heqo. }
    { reflexivity. }
    rewrite handle_same_ws by exact Ew. rewrite Et, Ev. unfold σ0.
    rewrite (views_settled socket OPEN) by reflexivity. simpl.
    apply (@step_settled _ _ socket (view w) OPEN);
      [now apply views_nth|discriminate].
  - (* message *)
    rewrite handle_same_ws by run_handler.
    assert (E : timers (run (Part001.onmessage socket w data) σ) = timers σ
                /\ views (run (Part001.onmessage socket w data) σ)
                   = views σ).
    { unfold views. run_handler; split; reflexivity. }
    destruct E as [-> ->]. constructor.
  - (* error *)
    set (σ0 := mark_closed false socket σ).
    destruct (Part001_settle_effect socket w σ0 (Part001.onerror socket w))
      as (Et & Ev & Ew); [now left|].
    rewrite handle_same_ws by exact Ew. rewrite Et, Ev. unfold σ0.
    unfold mark_closed. rewrite (views_settled socket CLOSED) by reflexivity.
    simpl. apply (@step_settled _ _ socket (view w) CLOSED);
      [now apply views_nth|discriminate].
  - (* close *)
    set (σ0 := mark_closed true socket σ).
    destruct (Part001_settle_effect socket w σ0 (Part001.onclose socket w ev))
      as (Et & Ev & Ew); [right; now exists ev|].
    rewrite handle_same_ws by exact Ew. rewrite Et, Ev. unfold σ0.
    unfold mark_closed. rewrite (views_settled socket CLOSED) by reflexivity.
    simpl. apply (@step_settled _ _ socket (view w) CLOSED);
      [now apply views_nth|discriminate].
  - (* the timer fires *)
    destruct (Part001_callback_effect (timer_socket t) (mark_fired timer σ))
      as (Et & Ev & Ew).
    rewrite handle_same_ws by exact Ew. rewrite Et, Ev.
    apply (@step_fired _ _ timer t Heqo).
  - (* time passes *)
    constructor.
  - (* the server starts closing *)
    rewrite (views_settled socket CLOSING) by reflexivity. simpl.
    apply step_closing. rewrite (views_nth socket σ w Heqo). simpl.
    destruct (readyState w); try discriminate Heqb. reflexivity.
Qed.

Lemma watches_run es t s D :
  forall σ σ',
    Part001.deliver_all es σ = Some σ' ->
    watches t s D σ -> watches t s D σ'.
Proof.
  unfold Part001.deliver_all.
  induction es as [|e es IH]; simpl; intros σ σ' H Hw.
  - now injection H as <-.
  - destruct (Part001.deliver e σ) as [σ1|] eqn:He; [|discriminate].
    apply (IH _ _ H). unfold watches in *.
    eapply watches_on_step; [|exact Hw]. apply (Part001_timer_step _ _ _ He).
Qed.

Lemma timers_known_reachable σ :
  Reachable Part001.deliver σ -> timers_known (timers σ) (views σ).
Proof.
  intros [es H].
  assert (Hgen : forall es σ0 σ',
             deliver_all Part001.deliver es σ0 = Some σ' ->
             timers_known (timers σ0) (views σ0) ->
             timers_known (timers σ') (views σ')).
  { clear. induction es as [|e es IH]; simpl; intros σ0 σ' H Hk.
    - now injection H as <-.
    - destruct (Part001.deliver e σ0) as [σ1|] eqn:He; [|discriminate].
      apply (IH _ _ H). eapply timers_known_step; [|exact Hk].
      apply (Part001_timer_step _ _ _ He). }
  apply (Hgen _ _ _ H). intros s v t Hv. now destruct s.
Qed.

Lemma socket_state_views socket σ :
  socket_state socket σ = option_map fst (nth_error (views σ) socket).
Proof.
  unfold socket_state, views. rewrite nth_error_map.
  now destruct (nth_error (sockets σ) socket).
Qed.

(** A valid submission arms a timer for the socket it creates, due ten
    seconds later. *)
Lemma Part001_submit_arms σ σ1 :
  timers_known (timers σ) (views σ) ->
  valid_input (state σ) = true ->
  Part001.deliver Click_submit σ = Some σ1 ->
  watches (List.length (timers σ)) (List.length (sockets σ))
    (now σ + 10000) σ1.
Proof.
  intros Hk Hv H.
  destruct (Part001_submit_valid σ Hv) as (σ1' & H' & _ & Hc & _ & _ & Et & _).
  rewrite H in H'. injection H' as <-.
  assert (Hlen : List.length (views σ) = List.length (sockets σ)).
  { unfold views. apply length_map. }
  pose proof (Part001_timer_step _ _ _ H) as Hstep. rewrite Et in Hstep.
  assert (Hgrow : forall l : list Timer,
             List.length l = List.length (timers σ) ->
             l <> timers σ ++
                  [{| timer_socket := List.length (sockets σ);
                      due := now σ + 10000;
                      cleared := false; fired := false |}]).
  { intros l Hl E. apply (f_equal (@List.length _)) in E.
    rewrite length_app in E. simpl in E. lia. }
  unfold watches. rewrite Et.
  inversion Hstep as
    [? ? E1 E2|? ? s0 v0 r Hv0 Hr E1 E2|? ? t0 tm0 Ht0 E1 E2
     |? ? old D0 E1 E2|? ? s0 Hopen E1 E2].
  - now destruct (Hgrow (timers σ) eq_refl).
  - exfalso. apply (Hgrow (clear (snd v0) (timers σ))); [|assumption].
    unfold clear. destruct (snd v0); [apply update_nth_length|reflexivity].
  - exfalso.
    apply (Hgrow (update_nth t0 set_fired (timers σ))); [|assumption].
    apply update_nth_length.
  - apply app_inj_tail in E2 as [_ E2]. clear E1.
    set (vs' := match old with
                | Some o =>
                    update_nth o close_view
                      (views σ ++
                       [(CONNECTING, Some (List.length (timers σ)))])
                | None =>
                    views σ ++ [(CONNECTING, Some (List.length (timers σ)))]
                end) in *.
    assert (Hview : forall j v,
               nth_error vs' j = Some v ->
               exists v1,
                 nth_error
                   (views σ ++ [(CONNECTING, Some (List.length (timers σ)))])
                   j = Some v1
                 /\ snd v = snd v1).
    { intros j v. unfold vs'. destruct old as [o|]; [|eauto].
      rewrite nth_error_update_nth.
      destruct (Nat.eqb_spec o j) as [->|Hne]; [|eauto].
      destruct (nth_error _ j) as [v1|]; simpl; [|discriminate].
      intros [= <-]. exists v1. split; [reflexivity|apply close_view_snd]. }
    injection E2 as _ ->.
    split; [|split].
    + eexists. rewrite nth_error_app2, Nat.sub_diag by lia. simpl.
      repeat split; auto.
    + rewrite <- Hlen. unfold vs'. destruct old;
        rewrite ?update_nth_length, length_app; simpl; lia.
    + intros s' v Hs' Hsnd. destruct (Hview _ _ Hs') as (v1 & Hv1 & E).
      destruct (Nat.lt_ge_cases s' (List.length (views σ))) as [Hlt|Hge].
      * rewrite nth_error_app1 in Hv1 by exact Hlt.
        assert (List.length (timers σ) < List.length (timers σ))%nat; [|lia].
        apply (Hk s' v1 _ Hv1). congruence.
      * assert (Hlt' : (s' < List.length
                               (views σ ++
                                [(CONNECTING,
                                  Some (List.length (timers σ)))]))%nat).
        { apply nth_error_Some. congruence. }
        rewrite length_app in Hlt'. simpl in Hlt'. lia.
  - now destruct (Hgrow (timers σ) eq_refl).
Qed.

(** The timer's callback on a socket that is still connecting. *)
Lemma Part001_timeout_fires t s D σ :
  watches t s D σ ->
  socket_state s σ = Some CONNECTING ->
  (now σ < D -> Part001.deliver (Timer_fires t) σ = None)
  /\ (D <= now σ ->
      exists σ',
        Part001.deliver (Timer_fires t) σ = Some σ'
        /\ socket_state s σ' = Some CLOSING
        /\ state σ' = awaiting_off (state σ)
        /\ toasts σ' = toasts σ ++ [ConnectionTimeout]).
Proof.
  intros ((tm & Ht & Hs & Hd & Hp) & _ & _) Hc.
  rewrite socket_state_views in Hc. destruct (Hp Hc) as [Hcl Hfi].
  rewrite <- socket_state_views in Hc.
  unfold Part001.deliver, deliver. rewrite Ht, Hcl, Hfi, Hd, Hs. simpl.
  split.
  - intros Hlt. destruct (Z.leb_spec D (now σ)); [lia|reflexivity].
  - intros Hle. destruct (Z.leb_spec D (now σ)); [|lia].
    eexists. split; [reflexivity|].
    destruct (socket_connecting_inv _ _ Hc) as (w & Hw & Hr).
    assert (Hrun : forall A (f : Sys -> A),
               f (run (Part001.connectTimeout_callback s) (mark_fired t σ))
               = f (run (console_log Lerror
                           (lit "[IFRS WS] Connection timeout after 10s") ;;
                         socket_close s ;;
                         setSessionLoading false ;;
                         toast ConnectionTimeout ;;
                         console_log LgroupEnd []) (mark_fired t σ))).
    { intros A f. f_equal.
      unfold run, Part001.connectTimeout_callback, bind, socket_readyState,
        try_catch.
      simpl. now rewrite Hw, Hr. }
    rewrite handle_same_ws by (now rewrite Hrun).
    split; [|split].
    + rewrite (Hrun _ (socket_state s)). unfold socket_state. simpl.
      rewrite nth_error_update_nth, Nat.eqb_refl, Hw. simpl.
      now rewrite Hr.
    + now rewrite (Hrun _ state).
    + now rewrite (Hrun _ toasts).
Qed.

Lemma timeout_is_not_the_generic_error :
  title ConnectionTimeout <> title ConnectionError
  /\ title ConnectionTimeout
     <> title {| title := lit "Connection error";
                 description :=
                   lit "Could not connect to IFRS Advisor. Please try again." |}.
Proof. split; intros H; vm_compute in H; discriminate H. Qed.

Lemma lease_typed_reachable :
  Reachable Part001.deliver (lease_typed Part001.deliver).
Proof. exists lease_form. vm_compute. reflexivity. Defined.

Lemma handle_timers h σ : timers (handle h σ) = timers (run h σ).
Proof. apply handle_frame. Qed.

(** The earlier file arms no timer: there is none in any state it
    reaches, so a connection attempt that hangs is never abandoned by the
    component itself. *)
Lemma IFRS_no_timer σ : Reachable IFRSAdvisor.deliver σ -> timers σ = [].
Proof.
  intros [es H].
  assert (Hgen : forall es σ0 σ',
             deliver_all IFRSAdvisor.deliver es σ0 = Some σ' ->
             timers σ0 = [] -> timers σ' = []).
  { clear. induction es as [|e es IH]; simpl; intros σ0 σ' H Hk.
    - now injection H as <-.
    - destruct (IFRSAdvisor.deliver e σ0) as [σ1|] eqn:He; [|discriminate].
      apply (IH _ _ H). clear H IH.
      assert (Hnt : forall t, nth_error (timers σ0) t = None).
      { rewrite Hk. now destruct t. }
      destruct e; open_deliver He;
        try (match goal with
             | E : nth_error (timers _) _ = Some _ |- _ =>
                 rewrite Hnt in E; discriminate E
             end);
        rewrite ?handle_timers;
        run_handler; simpl; exact Hk. }
  now apply (Hgen _ _ _ H).
Qed.

(** * Further properties of the component *)

(** ** The question editor *)

Section IndexedArrays.
Variable A : Type.

Lemma filteri_from_keeps (idx k : nat) (l : list A) :
  (idx < k)%nat ->
  filteri_from (fun _ i => negb (i =? idx)%nat) k l = l.
Proof.
  revert k. induction l as [|x l IH]; intros k Hk; simpl; [reflexivity|].
  destruct (Nat.eqb_spec k idx); [lia|]. simpl. rewrite IH by lia.
  reflexivity.
Qed.

Lemma filteri_from_removes (idx k : nat) (l : list A) :
  (k <= idx)%nat ->
  filteri_from (fun _ i => negb (i =? idx)%nat) k l
  = firstn (idx - k) l ++ skipn (S (idx - k)) l.
Proof.
  revert k. induction l as [|x l IH]; intros k Hk; simpl.
  - now rewrite firstn_nil.
  - destruct (Nat.eqb_spec k idx) as [->|Hne]; simpl.
    + rewrite Nat.sub_diag. simpl. apply filteri_from_keeps. lia.
    + rewrite IH by lia.
      replace (idx - k)%nat with (S (idx - S k)) by lia. reflexivity.
Qed.

Lemma mapi_from_keeps (idx k : nat) (v : A) (l : list A) :
  (idx < k)%nat ->
  mapi_from (fun q i => if (i =? idx)%nat then v else q) k l = l.
Proof.
  revert k. induction l as [|x l IH]; intros k Hk; simpl; [reflexivity|].
  destruct (Nat.eqb_spec k idx); [lia|]. rewrite IH by lia. reflexivity.
Qed.

Lemma mapi_from_updates (idx k : nat) (v : A) (l : list A) :
  (k <= idx)%nat ->
  mapi_from (fun q i => if (i =? idx)%nat then v else q) k l
  = update_nth (idx - k) (fun _ => v) l.
Proof.
  revert k. induction l as [|x l IH]; intros k Hk; simpl;
    [now destruct (idx - k)%nat|].
  destruct (Nat.eqb_spec k idx) as [->|Hne].
  - rewrite Nat.sub_diag. simpl. now rewrite mapi_from_keeps by lia.
  - rewrite IH by lia.
    replace (idx - k)%nat with (S (idx - S k)) by lia. reflexivity.
Qed.
End IndexedArrays.

(** X1 (removing a question).  [removeQuestion idx] takes the question at
    position [idx] out of the list and keeps the others in their order;
    when the list has no such position it leaves the list as it is.  No
    other cell of the component changes. *)
Theorem removeQuestion_removes_one (idx : nat) (σ : Sys) :
  let qs := questions (state σ) in
  let σ' := run (removeQuestion idx) σ in
  questions (state σ') = firstn idx qs ++ skipn (S idx) qs
  /\ ((List.length qs <= idx)%nat -> σ' = σ)
  /\ ((idx < List.length qs)%nat ->
      S (List.length (questions (state σ'))) = List.length qs)
  /\ (forall j, nth_error (questions (state σ')) j
                = nth_error qs (if (j <? idx)%nat then j else S j)).
Proof.
  assert (E : forall qs : list jsstring,
             Array_filteri (fun _ i => negb (i =? idx)%nat) qs
             = firstn idx qs ++ skipn (S idx) qs).
  { intros qs. unfold Array_filteri.
    rewrite filteri_from_removes by lia. now rewrite Nat.sub_0_r. }
  destruct σ as [s socks tms tts con nw]. destruct s. simpl.
  unfold removeQuestion, run, setQuestions, update. sys_simpl. simpl.
  rewrite E. split; [reflexivity|]. split; [|split].
  - intros Hlen. rewrite firstn_all2 by exact Hlen.
    rewrite skipn_all2 by lia. now rewrite app_nil_r.
  - intros Hlt. rewrite length_app, length_firstn, length_skipn. lia.
  - intros j. destruct (Nat.ltb_spec j idx) as [Hj|Hj].
    + destruct (Nat.lt_ge_cases j (List.length questions0)) as [Hl|Hl].
      * rewrite nth_error_app1 by (rewrite length_firstn; lia).
        rewrite nth_error_firstn.
        destruct (Nat.ltb_spec j idx); [reflexivity|lia].
      * rewrite firstn_all2 by lia. rewrite skipn_all2 by lia.
        now rewrite app_nil_r.
    + destruct (Nat.lt_ge_cases idx (List.length questions0)) as [Hl|Hl].
      * rewrite nth_error_app2 by (rewrite length_firstn; lia).
        rewrite length_firstn, nth_error_skipn.
        f_equal. lia.
      * rewrite firstn_all2 by lia. rewrite skipn_all2 by lia.
        rewrite app_nil_r.
        transitivity (@None jsstring);
          [|symmetry]; apply nth_error_None; lia.
Qed.

(** X2 (add, then remove).  [addQuestion] puts an empty question last, and
    removing that last question gives back the component state from before
    the addition. *)
Theorem addQuestion_then_remove (σ : Sys) :
  let σ1 := run addQuestion σ in
  questions (state σ1) = questions (state σ) ++ [[]]
  /\ run (removeQuestion (List.length (questions (state σ)))) σ1 = σ.
Proof.
  destruct σ as [s socks tms tts con nw]. destruct s. simpl.
  unfold addQuestion, removeQuestion, run, setQuestions, update. sys_simpl.
  simpl. split; [reflexivity|].
  unfold Array_filteri. rewrite filteri_from_removes by lia.
  rewrite Nat.sub_0_r.
  rewrite firstn_app, firstn_all, Nat.sub_diag.
  rewrite (skipn_all2 (questions0 ++ [[]]))
    by (rewrite length_app; simpl; lia).
  simpl. now rewrite !app_nil_r.
Qed.

(** X3 (editing a question).  [updateQuestion idx value] puts [value] at
    position [idx] and leaves every other position and the number of
    questions as they are; when the list has no position [idx] nothing
    changes at all.  A second edit of the same position replaces the
    first. *)
Theorem updateQuestion_updates_one (idx : nat) (value : jsstring) (σ : Sys) :
  let qs := questions (state σ) in
  let σ' := run (updateQuestion idx value) σ in
  List.length (questions (state σ')) = List.length qs
  /\ (forall j, nth_error (questions (state σ')) j
                = if (idx =? j)%nat
                  then option_map (fun _ => value) (nth_error qs j)
                  else nth_error qs j)
  /\ ((List.length qs <= idx)%nat -> σ' = σ)
  /\ (forall value0,
        run (updateQuestion idx value) (run (updateQuestion idx value0) σ)
        = σ').
Proof.
  assert (E : forall (v : jsstring) (qs : list jsstring),
             Array_mapi (fun q i => if (i =? idx)%nat then v else q) qs
             = update_nth idx (fun _ => v) qs).
  { intros v qs. unfold Array_mapi.
    rewrite mapi_from_updates by lia. now rewrite Nat.sub_0_r. }
  destruct σ as [s socks tms tts con nw]. destruct s. simpl.
  unfold updateQuestion, run, setQuestions, update. sys_simpl. simpl.
  rewrite !E. split; [apply update_nth_length|].
  split; [intros j; apply nth_error_update_nth|]. split.
  - intros Hlen. now rewrite update_nth_beyond by exact Hlen.
  - intros value0. rewrite !E. do 2 f_equal.
    clear. revert idx. induction questions0 as [|q l IH]; intros [|i];
      simpl; try reflexivity. now rewrite IH.
Qed.

(** ** Trimming the form *)

Lemma trimStart_suffix s :
  exists p, s = p ++ trimStart s /\ forallb is_white_space p = true.
Proof.
  induction s as [|c s (p & E & Hp)]; simpl.
  - now exists [].
  - destruct (is_white_space c) eqn:Hc.
    + exists (c :: p). simpl. rewrite Hc, Hp. now rewrite <- E.
    + now exists [].
Qed.

Lemma trimStart_head s c t :
  trimStart s = c :: t -> is_white_space c = false.
Proof.
  induction s as [|d s IH]; simpl; [discriminate|].
  destruct (is_white_space d) eqn:Hd; [exact IH|].
  now intros [= -> _].
Qed.

Lemma trimStart_fixed c s :
  is_white_space c = false -> trimStart (c :: s) = c :: s.
Proof. intros H. simpl. now rewrite H. Qed.

Lemma trimEnd_prefix s :
  exists p, s = trimEnd s ++ p /\ forallb is_white_space p = true.
Proof.
  unfold trimEnd. destruct (trimStart_suffix (rev s)) as (p & E & Hp).
  exists (rev p). split.
  - rewrite <- rev_app_distr, <- E. now rewrite rev_involutive.
  - rewrite forallb_forall in *. intros x Hx. apply Hp.
    now apply in_rev.
Qed.

Lemma rev_last (s : jsstring) c :
  s <> [] -> rev s = last s c :: rev (removelast s).
Proof.
  intros H. rewrite (app_removelast_last c H) at 1.
  now rewrite rev_app_distr.
Qed.

Lemma trim_trimmed s : trimmed (trim s).
Proof.
  unfold trimmed. destruct (trim s) as [|c t] eqn:E; [exact I|].
  unfold trim in E.
  destruct (trimEnd_prefix (trimStart s)) as (p & Ep & _).
  rewrite E in Ep. split.
  - simpl in Ep. now apply (trimStart_head s c (t ++ p)).
  - unfold trimEnd in E. apply (f_equal (@rev N)) in E.
    rewrite rev_involutive in E.
    rewrite (rev_last (c :: t) c) in E by discriminate.
    now apply trimStart_head in E.
Qed.

Lemma trimmed_trim s : trimmed s -> trim s = s.
Proof.
  destruct s as [|c s]; [reflexivity|]. intros [Hc Hl].
  unfold trim. rewrite (trimStart_fixed c s Hc). unfold trimEnd.
  rewrite (rev_last (c :: s) c) by discriminate.
  rewrite (trimStart_fixed _ _ Hl).
  rewrite <- (rev_last (c :: s) c) by discriminate.
  apply rev_involutive.
Qed.

Lemma trim_idempotent s : trim (trim s) = trim s.
Proof. apply trimmed_trim, trim_trimmed. Qed.

Lemma trimmedQuestions_each qs :
  Forall (fun q => q <> [] /\ trimmed q) (trimmedQuestions qs).
Proof.
  unfold trimmedQuestions. apply Forall_forall. intros q Hq.
  apply filter_In in Hq. destruct Hq as [Hin Hlen].
  apply in_map_iff in Hin. destruct Hin as (q0 & <- & _). split.
  - intros E. rewrite E in Hlen. discriminate.
  - apply trim_trimmed.
Qed.

Lemma trimmedQuestions_fixed qs :
  Forall (fun q => q <> [] /\ trimmed q) qs -> trimmedQuestions qs = qs.
Proof.
  unfold trimmedQuestions. induction 1 as [|q qs [Hq Ht] _ IH]; simpl;
    [reflexivity|].
  rewrite (trimmed_trim q Ht). destruct q as [|c q]; [tauto|]. simpl.
  now rewrite IH.
Qed.

(** X4 (the questions that are sent).  [trimmedQuestions] keeps only
    questions that are not empty and have no white space at either end,
    never more than were typed, and it changes nothing in a list that is
    already of this kind: applied to its own result it returns it. *)
Theorem trimmedQuestions_idempotent (qs : list jsstring) :
  Forall (fun q => q <> [] /\ trimmed q) (trimmedQuestions qs)
  /\ (List.length (trimmedQuestions qs) <= List.length qs)%nat
  /\ trimmedQuestions (trimmedQuestions qs) = trimmedQuestions qs
  /\ (forall q, In q (trimmedQuestions qs) <->
                q <> [] /\ exists q0, In q0 qs /\ trim q0 = q).
Proof.
  split; [apply trimmedQuestions_each|]. split; [|split].
  - unfold trimmedQuestions.
    rewrite <- (length_map (fun q => trim q) qs). apply filter_length_le.
  - apply trimmedQuestions_fixed, trimmedQuestions_each.
  - intros q. unfold trimmedQuestions. rewrite filter_In, in_map_iff.
    split.
    + intros [(q0 & E & Hin) Hlen]. split; [|now exists q0].
      intros ->. discriminate.
    + intros [Hne (q0 & Hin & E)]. split; [now exists q0|].
      destruct q; [tauto|reflexivity].
Qed.

(** ** The request *)

Lemma update_nth_twice (A : Type) (f g : A -> A) i (l : list A) :
  update_nth i f (update_nth i g l) = update_nth i (fun x => f (g x)) l.
Proof.
  revert i. induction l as [|x l IH]; intros [|i]; simpl; try reflexivity.
  now rewrite IH.
Qed.

Lemma Forall_update_nth_at (A : Type) (P : A -> Prop) i f (l : list A) :
  Forall P l -> (forall x, nth_error l i = Some x -> P x -> P (f x)) ->
  Forall P (update_nth i f l).
Proof.
  intros Hl. revert i. induction Hl as [|x l Hx Hl IH]; intros [|i] Hf;
    simpl; constructor; auto.
Qed.

Lemma Forall_update_nth (A : Type) (P : A -> Prop) i f (l : list A) :
  (forall x, P x -> P (f x)) -> Forall P l -> Forall P (update_nth i f l).
Proof. intros Hf Hl. apply Forall_update_nth_at; auto. Qed.

(** When a connecting socket opens, the earlier file's [onopen] sends the
    request and does nothing else. *)
Lemma IFRS_open_sys socket σ w :
  nth_error (sockets σ) socket = Some w -> readyState w = CONNECTING ->
  IFRSAdvisor.deliver (Socket_open socket) σ
  = Some (with_sockets (update_nth socket opened) σ).
Proof.
  intros Hw Hr. unfold IFRSAdvisor.deliver, deliver. rewrite Hw, Hr. simpl.
  f_equal.
  rewrite handle_same_ws;
    unfold IFRSAdvisor.onopen, run, socket_send; simpl;
    rewrite nth_error_update_nth, Nat.eqb_refl, Hw; simpl;
    [|reflexivity].
  unfold with_sockets. simpl. f_equal.
  rewrite update_nth_twice. apply update_nth_ext_at.
  intros x Hx. rewrite Hw in Hx. now injection Hx as <-.
Qed.

(** In the later revision [onopen] clears the connection timer first and
    writes to the console; the send succeeds, so its [catch] is not
    entered. *)
Lemma Part001_open_sys socket σ w :
  nth_error (sockets σ) socket = Some w -> readyState w = CONNECTING ->
  exists σ',
    Part001.deliver (Socket_open socket) σ = Some σ'
    /\ state σ' = state σ
    /\ sockets σ' = update_nth socket opened (sockets σ)
    /\ timers σ' = clear (captured_connectTimeout w) (timers σ)
    /\ toasts σ' = toasts σ
    /\ now σ' = now σ.
Proof.
  intros Hw Hr. unfold Part001.deliver, deliver. rewrite Hw, Hr. simpl.
  eexists. split; [reflexivity|].
  rewrite handle_same_ws;
    unfold Part001.onopen, Part001.clear_connectTimeout, run, socket_send,
      try_catch, bind;
    destruct (captured_connectTimeout w); simpl;
    rewrite nth_error_update_nth, Nat.eqb_refl, Hw; simpl;
    try reflexivity.
  all: repeat split.
  all: rewrite update_nth_twice; apply update_nth_ext_at.
  all: intros x Hx; rewrite Hw in Hx; now injection Hx as <-.
Qed.

Lemma opened_nth socket l w :
  nth_error l socket = Some w ->
  nth_error (update_nth socket opened l) socket = Some (opened w).
Proof.
  intros H. now rewrite nth_error_update_nth, Nat.eqb_refl, H.
Qed.

(** X5 (the socket opens).  When a connecting socket opens, the request is
    sent on it: one message of type [process_questions] with the trimmed
    background and the questions of the submission that created the
    socket, for the model [gpt-4o-mini].  The component state is as
    before and no toast is shown (the later revision's "Send failed"
    branch is not taken); no other socket is touched.  The later revision
    also clears the socket's connection timer. *)
Theorem open_sends_the_request (socket : nat) (σ : Sys) (w : WebSocket) :
  nth_error (sockets σ) socket = Some w -> readyState w = CONNECTING ->
  (exists σ',
     IFRSAdvisor.deliver (Socket_open socket) σ = Some σ'
     /\ nth_error (sockets σ') socket = Some (opened w)
     /\ (forall s, s <> socket ->
                   nth_error (sockets σ') s = nth_error (sockets σ) s)
     /\ state σ' = state σ /\ toasts σ' = toasts σ)
  /\ (exists σ',
        Part001.deliver (Socket_open socket) σ = Some σ'
        /\ nth_error (sockets σ') socket = Some (opened w)
        /\ (forall s, s <> socket ->
                      nth_error (sockets σ') s = nth_error (sockets σ) s)
        /\ state σ' = state σ /\ toasts σ' = toasts σ
        /\ timers σ' = clear (captured_connectTimeout w) (timers σ)).
Proof.
  intros Hw Hr. split.
  - exists (with_sockets (update_nth socket opened) σ).
    split; [exact (IFRS_open_sys socket σ w Hw Hr)|].
    split; [exact (opened_nth socket _ w Hw)|].
    split; [|split; reflexivity]. simpl.
    intros s Hs. rewrite nth_error_update_nth.
    destruct (Nat.eqb_spec socket s); [congruence|reflexivity].
  - destruct (Part001_open_sys socket σ w Hw Hr)
      as (σ' & Hd & Es & Ek & Et & Eo & _).
    exists σ'. split; [exact Hd|]. rewrite Ek.
    split; [exact (opened_nth socket _ w Hw)|]. split; [|auto].
    intros s Hs. rewrite nth_error_update_nth.
    destruct (Nat.eqb_spec socket s); [congruence|reflexivity].
Qed.

Lemma open_sends_the_request_witness :
  exists σ',
    Part001.deliver (Socket_open 0)
      (match Part001.deliver Click_submit (lease_typed Part001.deliver) with
       | Some σ => σ
       | None => initial
       end) = Some σ'
    /\ option_map sent (nth_error (sockets σ') 0)
       = Some [{| payload_type := lit "process_questions";
                  payload_background := lit "Lease classification for Co A";
                  payload_questions :=
                    [lit "Is this a finance lease?";
                     lit "What discount rate applies?"];
                  payload_model := lit "gpt-4o-mini" |}]
    /\ option_map cleared (nth_error (timers σ') 0) = Some true.
Proof.
  set (σ := match Part001.deliver Click_submit (lease_typed Part001.deliver)
            with Some σ => σ | None => initial end).
  destruct (nth_error (sockets σ) 0) as [w|] eqn:Hw;
    [|vm_compute in Hw; discriminate Hw].
  assert (Hr : readyState w = CONNECTING).
  { vm_compute in Hw. injection Hw as <-. reflexivity. }
  destruct (open_sends_the_request 0 σ w Hw Hr)
    as (_ & σ' & Hd & Hs & _ & _ & _ & Et).
  exists σ'. split; [exact Hd|]. rewrite Hs, Et.
  vm_compute in Hw. injection Hw as <-. split; vm_compute; reflexivity.
Defined.

Lemma deliver_all_app d es1 es2 σ :
  deliver_all d (es1 ++ es2) σ
  = match deliver_all d es1 σ with
    | Some σ1 => deliver_all d es2 σ1
    | None => None
    end.
Proof.
  revert σ. induction es1 as [|e es1 IH]; intros σ; simpl; [reflexivity|].
  destruct (d e σ); [apply IH|reflexivity].
Qed.

(** An event of the form is always handled, and touches nothing but the
    [background] and [questions] cells. *)
Lemma edit_effect d e σ :
  d = IFRSAdvisor.deliver \/ d = Part001.deliver ->
  is_edit e = true ->
  exists σ',
    d e σ = Some σ'
    /\ sockets σ' = sockets σ /\ timers σ' = timers σ
    /\ toasts σ' = toasts σ /\ now σ' = now σ
    /\ ws (state σ') = ws (state σ)
    /\ sessionLoading (state σ') = sessionLoading (state σ)
    /\ same_results (state σ) (state σ').
Proof.
  intros [-> | ->] He; destruct e; try discriminate He;
    (eexists; split; [reflexivity|]);
    rewrite handle_same_ws by reflexivity;
    unfold same_results; run_handler; repeat split.
Qed.

Lemma edits_run d es :
  d = IFRSAdvisor.deliver \/ d = Part001.deliver ->
  forallb is_edit es = true ->
  forall σ,
    exists σ',
      deliver_all d es σ = Some σ'
      /\ sockets σ' = sockets σ /\ timers σ' = timers σ
      /\ toasts σ' = toasts σ
      /\ ws (state σ') = ws (state σ)
      /\ sessionLoading (state σ') = sessionLoading (state σ)
      /\ same_results (state σ) (state σ').
Proof.
  intros Hd. induction es as [|e es IH]; simpl; intros Hes σ.
  - exists σ. unfold same_results. repeat split.
  - apply andb_prop in Hes. destruct Hes as [He Hes].
    destruct (edit_effect d e σ Hd He)
      as (σ1 & H1 & Ek & Et & Eo & _ & Ew & El & Er).
    rewrite H1. destruct (IH Hes σ1) as (σ2 & H2 & Ek2 & Et2 & Eo2 & Ew2
                                          & El2 & Er2).
    exists σ2. split; [exact H2|]. unfold same_results in *.
    repeat split; try congruence; try (etransitivity; [|tauto]; tauto).
    all: intuition congruence.
Qed.

(** The socket a valid submission creates: it is connecting, has sent
    nothing, and its handlers hold the form as it was at the click. *)
Lemma submit_socket d σ :
  d = IFRSAdvisor.deliver \/ d = Part001.deliver ->
  valid_input (state σ) = true ->
  exists σ' c,
    d Click_submit σ = Some σ'
    /\ nth_error (sockets σ') (List.length (sockets σ)) = Some c
    /\ readyState c = CONNECTING /\ sent c = []
    /\ captured_background c = background (state σ)
    /\ captured_trimmedQuestions c = trimmedQuestions (questions (state σ))
    /\ state σ' = fresh_session (state σ) (List.length (sockets σ)).
Proof.
  intros [-> | ->] Hv.
  - pose proof (IFRS_handleSubmit_valid σ Hv) as Hh.
    destruct (@handle_new_socket _ _ _ _ Hh eq_refl eq_refl eq_refl)
      as [Hn _].
    destruct (handle_frame IFRSAdvisor.handleSubmit σ) as (Es & _).
    unfold run in Es. rewrite Hh in Es.
    eexists. eexists. split; [reflexivity|]. split; [exact Hn|].
    repeat split. exact Es.
  - pose proof (Part001_handleSubmit_valid σ Hv) as Hh.
    destruct (@handle_new_socket _ _ _ _ Hh eq_refl eq_refl eq_refl)
      as [Hn _].
    destruct (handle_frame Part001.handleSubmit σ) as (Es & _).
    unfold run in Es. rewrite Hh in Es.
    eexists. eexists. split; [reflexivity|]. split; [exact Hn|].
    repeat split. exact Es.
Qed.

Lemma open_socket d socket σ w :
  d = IFRSAdvisor.deliver \/ d = Part001.deliver ->
  nth_error (sockets σ) socket = Some w -> readyState w = CONNECTING ->
  exists σ',
    d (Socket_open socket) σ = Some σ'
    /\ sockets σ' = update_nth socket opened (sockets σ)
    /\ state σ' = state σ.
Proof.
  intros [-> | ->] Hw Hr.
  - exists (with_sockets (update_nth socket opened) σ).
    split; [exact (IFRS_open_sys socket σ w Hw Hr)|]. split; reflexivity.
  - destruct (Part001_open_sys socket σ w Hw Hr) as (σ' & Hd & Es & Ek & _).
    now exists σ'.
Qed.

(** X6 (what is sent is what was submitted).  The request sent when the
    socket opens holds the background and the questions as they were when
    the button was pressed, trimmed: what is typed into the form between
    the click and the opening of the socket is not in it. *)
Theorem request_is_the_form_as_submitted
  (d : Event -> Sys -> option Sys) (σ : Sys) (edits : list Event) :
  d = IFRSAdvisor.deliver \/ d = Part001.deliver ->
  valid_input (state σ) = true ->
  forallb is_edit edits = true ->
  let socket := List.length (sockets σ) in
  exists σ',
    deliver_all d (Click_submit :: edits ++ [Socket_open socket]) σ = Some σ'
    /\ option_map sent (nth_error (sockets σ') socket)
       = Some [{| payload_type := lit "process_questions";
                  payload_background := trim (background (state σ));
                  payload_questions :=
                    trimmedQuestions (questions (state σ));
                  payload_model := lit "gpt-4o-mini" |}].
Proof.
  intros Hd Hv Hes socket.
  destruct (submit_socket d σ Hd Hv)
    as (σ1 & c & H1 & Hc & Hr & Hsent & Hb & Hq & _).
  destruct (edits_run d edits Hd Hes σ1) as (σ2 & H2 & Ek & _).
  rewrite <- Ek in Hc.
  destruct (open_socket d socket σ2 c Hd Hc Hr) as (σ3 & H3 & Ek3 & _).
  exists σ3. split.
  - simpl. rewrite H1, deliver_all_app, H2. simpl. now rewrite H3.
  - rewrite Ek3, (opened_nth socket _ c Hc). simpl.
    unfold payload_of. now rewrite Hsent, Hb, Hq.
Qed.

Lemma request_is_the_form_as_submitted_witness :
  exists σ',
    deliver_all IFRSAdvisor.deliver
      (Click_submit
         :: [Change_background (lit "Something else");
             Click_removeQuestion 0]
         ++ [Socket_open 0])
      (lease_typed IFRSAdvisor.deliver) = Some σ'
    /\ option_map sent (nth_error (sockets σ') 0)
       = Some [{| payload_type := lit "process_questions";
                  payload_background := lit "Lease classification for Co A";
                  payload_questions :=
                    [lit "Is this a finance lease?";
                     lit "What discount rate applies?"];
                  payload_model := lit "gpt-4o-mini" |}].
Proof.
  exact (request_is_the_form_as_submitted IFRSAdvisor.deliver
           (lease_typed IFRSAdvisor.deliver)
           [Change_background (lit "Something else"); Click_removeQuestion 0]
           (or_introl eq_refl) eq_refl eq_refl).
Defined.

(** ** Requests over a whole run *)

Lemma request_ok_same w w' :
  captured_background w' = captured_background w ->
  captured_trimmedQuestions w' = captured_trimmedQuestions w ->
  sent w' = sent w ->
  (readyState w' = CONNECTING -> readyState w = CONNECTING) ->
  request_ok w -> request_ok w'.
Proof.
  unfold request_ok, payload_of. intros Eb Eq Es Hr (H1 & H2 & H3 & H4 & H5).
  rewrite Eb, Eq, Es. repeat split; auto.
Qed.

Lemma request_ok_opened w :
  request_ok w -> readyState w = CONNECTING -> request_ok (opened w).
Proof.
  unfold request_ok. intros (H1 & H2 & H3 & _ & H5) Hr. simpl.
  rewrite (H5 Hr). repeat split; auto. discriminate.
Qed.

Lemma request_ok_new s u t :
  valid_input s = true ->
  request_ok
    {| url := u; readyState := CONNECTING; sent := [];
       close_dispatched := false;
       captured_background := background s;
       captured_trimmedQuestions := trimmedQuestions (questions s);
       captured_connectTimeout := t |}.
Proof.
  intros Hv. destruct (valid_input_inv s Hv) as [Hb Hq].
  unfold request_ok. simpl. split; [|split; [|split]].
  - intros E. rewrite E in Hb. discriminate.
  - intros E. rewrite E in Hq. discriminate.
  - apply trimmedQuestions_each.
  - auto.
Qed.

Ltac same_request :=
  let x := fresh "x" in
  let Hx := fresh "Hx" in
  let E := fresh "E" in
  intros x Hx; apply (request_ok_same x); [| | | |exact Hx];
  destruct (readyState x) eqn:E; simpl; rewrite ?E;
  try reflexivity; try (intros; congruence).

Ltac keep_requests :=
  repeat first
    [ assumption
    | apply Forall_update_nth; [same_request|] ].

Lemma requests_handle h σ :
  Forall request_ok (sockets (run h σ)) ->
  Forall request_ok (sockets (handle h σ)).
Proof.
  intros H. unfold handle. destruct (option_nat_eqb _ _); [exact H|].
  destruct (ws (state σ)); [|exact H].
  unfold useEffect_cleanup, socket_close, run at 1. simpl. keep_requests.
Qed.

Lemma requests_submit d σ σ' :
  d = IFRSAdvisor.deliver \/ d = Part001.deliver ->
  d Click_submit σ = Some σ' ->
  Forall request_ok (sockets σ) -> Forall request_ok (sockets σ').
Proof.
  intros Hd H Hok. destruct (valid_input (state σ)) eqn:Hv.
  - destruct Hd as [-> | ->]; open_deliver H; apply requests_handle;
      unfold run;
      [rewrite (IFRS_handleSubmit_valid σ Hv)
      |rewrite (Part001_handleSubmit_valid σ Hv)];
      simpl; apply Forall_app; (split; [exact Hok|]);
      constructor; [|constructor| |constructor];
      apply (request_ok_new (state σ) _ _ Hv).
  - destruct (valid_input_false _ Hv) as [Hb|[Hb Hq]];
      destruct Hd as [-> | ->]; open_deliver H.
    + now rewrite (@handle_toast_only _ _ _ (@IFRS_handleSubmit_blank σ Hb)).
    + now rewrite (@handle_toast_only _ _ _
                     (@Part001_handleSubmit_blank σ Hb)).
    + now rewrite (@handle_toast_only _ _ _
                     (@IFRS_handleSubmit_no_questions σ Hb Hq)).
    + now rewrite (@handle_toast_only _ _ _
                     (@Part001_handleSubmit_no_questions σ Hb Hq)).
Qed.

Lemma requests_open d socket σ σ' :
  d = IFRSAdvisor.deliver \/ d = Part001.deliver ->
  d (Socket_open socket) σ = Some σ' ->
  Forall request_ok (sockets σ) -> Forall request_ok (sockets σ').
Proof.
  intros Hd H Hok.
  assert (Hw : exists w, nth_error (sockets σ) socket = Some w
                         /\ readyState w = CONNECTING).
  { destruct Hd as [-> | ->];
      unfold IFRSAdvisor.deliver, Part001.deliver, deliver in H;
      destruct (nth_error (sockets σ) socket) as [w|]; try discriminate H;
      exists w; (split; [reflexivity|]);
      destruct (readyState w); try discriminate H; reflexivity. }
  destruct Hw as (w & Hw & Hr).
  destruct (open_socket d socket σ w Hd Hw Hr) as (σ1 & H1 & Ek & _).
  rewrite H1 in H. injection H as <-. rewrite Ek.
  apply Forall_update_nth_at; [exact Hok|].
  intros x Hx Hokx. rewrite Hw in Hx. injection Hx as <-.
  now apply request_ok_opened.
Qed.

Lemma requests_step d e σ σ' :
  d = IFRSAdvisor.deliver \/ d = Part001.deliver ->
  d e σ = Some σ' ->
  Forall request_ok (sockets σ) -> Forall request_ok (sockets σ').
Proof.
  intros Hd H Hok.
  destruct e;
    try (now apply (requests_submit d σ σ' Hd H));
    try (now apply (requests_open d socket σ σ' Hd H));
    destruct Hd as [-> | ->]; open_deliver H;
    try apply requests_handle; run_handler; simpl; keep_requests.
Qed.

Lemma requests_reachable d σ :
  d = IFRSAdvisor.deliver \/ d = Part001.deliver ->
  Reachable d σ -> Forall request_ok (sockets σ).
Proof.
  intros Hd [es H].
  assert (Hgen : forall es σ0 σ',
             deliver_all d es σ0 = Some σ' ->
             Forall request_ok (sockets σ0) ->
             Forall request_ok (sockets σ')).
  { clear H. induction es0 as [|e es0 IH]; simpl; intros σ0 σ' H Hk.
    - now injection H as <-.
    - destruct (d e σ0) as [σ1|] eqn:He; [|discriminate].
      apply (IH _ _ H). now apply (requests_step d e σ0 σ1 Hd He). }
  apply (Hgen _ _ _ H). constructor.
Qed.

(** X7 (one request per socket).  In every state the component reaches,
    each socket was created for a background that is not blank and for at
    least one question, none of them empty or padded with white space; it
    has sent nothing while connecting, and afterwards nothing but the one
    request built from these. *)
Theorem one_request_per_socket
  (d : Event -> Sys -> option Sys) (σ : Sys) (socket : nat) (w : WebSocket) :
  d = IFRSAdvisor.deliver \/ d = Part001.deliver ->
  Reachable d σ ->
  nth_error (sockets σ) socket = Some w ->
  request_ok w.
Proof.
  intros Hd Hr Hw.
  pose proof (requests_reachable d σ Hd Hr) as H.
  rewrite Forall_forall in H. apply H. now apply nth_error_In in Hw.
Qed.

Lemma one_request_per_socket_witness :
  request_ok (opened
    (connecting (lit "wss://104.248.169.227:8443/ws/rag/")
       (lit "Lease classification for Co A")
       [lit "Is this a finance lease?"; lit "What discount rate applies?"])).
Proof.
  exact (one_request_per_socket IFRSAdvisor.deliver
           (lease_open IFRSAdvisor.deliver) 0 _
           (or_introl eq_refl) lease_open_reachable eq_refl).
Defined.

(** ** One socket in use *)

Lemma handle_sockets_length h σ :
  List.length (sockets (handle h σ)) = List.length (sockets (run h σ)).
Proof.
  unfold handle. destruct (option_nat_eqb _ _); [reflexivity|].
  destruct (ws (state σ)); [|reflexivity].
  unfold useEffect_cleanup, socket_close, run at 1. simpl.
  apply update_nth_length.
Qed.

(** Only a submission changes [ws] or the number of sockets. *)
Lemma transport_kept d e σ σ' :
  d = IFRSAdvisor.deliver \/ d = Part001.deliver ->
  d e σ = Some σ' -> is_submit e = false ->
  ws (state σ') = ws (state σ)
  /\ List.length (sockets σ') = List.length (sockets σ).
Proof.
  intros Hd H He.
  destruct e; try discriminate He; destruct Hd as [-> | ->];
    open_deliver H; (split;
      [rewrite ?handle_state; run_handler
      |rewrite ?handle_sockets_length; run_handler; simpl;
       rewrite ?update_nth_length; reflexivity]).
Qed.

Lemma transport_submitted d σ σ' :
  d = IFRSAdvisor.deliver \/ d = Part001.deliver ->
  d Click_submit σ = Some σ' ->
  (valid_input (state σ) = false
   /\ state σ' = state σ /\ sockets σ' = sockets σ)
  \/ (valid_input (state σ) = true
      /\ ws (state σ') = Some (List.length (sockets σ))
      /\ List.length (sockets σ') = S (List.length (sockets σ))
      /\ forall old,
           ws (state σ) = Some old -> (old < List.length (sockets σ))%nat ->
           shut old σ' = true).
Proof.
  intros Hd H. destruct (valid_input (state σ)) eqn:Hv.
  - right. split; [reflexivity|].
    destruct Hd as [-> | ->].
    + destruct (IFRS_submit_valid σ Hv) as (σ1 & H1 & Es & _ & _ & Hold).
      rewrite H1 in H. injection H as <-. rewrite Es.
      split; [reflexivity|]. split; [|exact Hold].
      open_deliver H1. rewrite handle_sockets_length. unfold run.
      rewrite (IFRS_handleSubmit_valid σ Hv). simpl.
      rewrite length_app. simpl. lia.
    + destruct (Part001_submit_valid σ Hv)
        as (σ1 & H1 & Es & _ & _ & Hold & _).
      rewrite H1 in H. injection H as <-. rewrite Es.
      split; [reflexivity|]. split; [|exact Hold].
      open_deliver H1. rewrite handle_sockets_length. unfold run.
      rewrite (Part001_handleSubmit_valid σ Hv). simpl.
      rewrite length_app. simpl. lia.
  - left. split; [reflexivity|].
    destruct (valid_input_false _ Hv) as [Hb|[Hb Hq]];
      destruct Hd as [-> | ->]; open_deliver H.
    + now rewrite (@handle_toast_only _ _ _ (@IFRS_handleSubmit_blank σ Hb)).
    + now rewrite (@handle_toast_only _ _ _
                     (@Part001_handleSubmit_blank σ Hb)).
    + now rewrite (@handle_toast_only _ _ _
                     (@IFRS_handleSubmit_no_questions σ Hb Hq)).
    + now rewrite (@handle_toast_only _ _ _
                     (@Part001_handleSubmit_no_questions σ Hb Hq)).
Qed.

Lemma sockets_advance_both d e σ σ' :
  d = IFRSAdvisor.deliver \/ d = Part001.deliver ->
  d e σ = Some σ' -> advances (sockets σ) (sockets σ').
Proof.
  intros [-> | ->];
    [apply IFRS_sockets_advance|apply Part001_sockets_advance].
Qed.

Lemma one_transport_step d e σ σ' :
  d = IFRSAdvisor.deliver \/ d = Part001.deliver ->
  d e σ = Some σ' -> one_transport σ -> one_transport σ'.
Proof.
  intros Hd H [Hws Hshut].
  pose proof (sockets_advance_both d e σ σ' Hd H) as Hadv.
  assert (Hkeep : ws (state σ') = ws (state σ)
                  /\ List.length (sockets σ') = List.length (sockets σ) ->
                  one_transport σ').
  { intros [Ew El]. unfold one_transport. rewrite Ew, El. split.
    - destruct (ws (state σ)); [exact Hws|].
      rewrite Hws in El. now destruct (sockets σ').
    - intros s Hs Hne. apply (shut_advances s σ σ' Hadv). auto. }
  destruct (is_submit e) eqn:He.
  - destruct e; try discriminate He.
    destruct (transport_submitted d σ σ' Hd H)
      as [(_ & Es & Ek)|(_ & Ew & El & Hold)].
    + apply Hkeep. now rewrite Es, Ek.
    + unfold one_transport. rewrite Ew, El. split; [reflexivity|].
      intros s Hs Hne.
      assert (Hlt : (s < List.length (sockets σ))%nat).
      { destruct (Nat.eq_dec s (List.length (sockets σ))); [|lia].
        subst s. congruence. }
      destruct (ws (state σ)) as [old|] eqn:Eold.
      * destruct (Nat.eq_dec old s) as [->|Hn]; [now apply Hold|].
        apply (shut_advances s σ σ' Hadv). apply Hshut; [exact Hlt|].
        congruence.
      * apply (shut_advances s σ σ' Hadv). apply Hshut; [exact Hlt|].
        discriminate.
  - apply Hkeep. now apply (transport_kept d e σ σ' Hd H).
Qed.

Lemma one_transport_reachable d σ :
  d = IFRSAdvisor.deliver \/ d = Part001.deliver ->
  Reachable d σ -> one_transport σ.
Proof.
  intros Hd [es H].
  assert (Hgen : forall es σ0 σ',
             deliver_all d es σ0 = Some σ' ->
             one_transport σ0 -> one_transport σ').
  { clear H. induction es0 as [|e es0 IH]; simpl; intros σ0 σ' H Hk.
    - now injection H as <-.
    - destruct (d e σ0) as [σ1|] eqn:He; [|discriminate].
      apply (IH _ _ H). now apply (one_transport_step d e σ0 σ1 Hd He). }
  apply (Hgen _ _ _ H). split; [reflexivity|]. simpl. intros s Hs. lia.
Qed.

(** X8 (one socket in use).  In every state the component reaches, [ws] is
    the socket created last, and every other socket has been closed by the
    clean-up of the [ws] effect or by the browser: a socket that is
    connecting or open is the one in [ws], so there is never more than
    one. *)
Theorem one_socket_in_use
  (d : Event -> Sys -> option Sys) (σ : Sys) :
  d = IFRSAdvisor.deliver \/ d = Part001.deliver ->
  Reachable d σ ->
  one_transport σ
  /\ forall s,
       socket_state s σ = Some CONNECTING \/ socket_state s σ = Some OPEN ->
       ws (state σ) = Some s.
Proof.
  intros Hd Hr. pose proof (one_transport_reachable d σ Hd Hr) as Hone.
  split; [exact Hone|]. destruct Hone as [_ Hshut]. intros s Hs.
  destruct (ws (state σ)) as [s0|] eqn:Ew.
  - destruct (Nat.eq_dec s0 s) as [->|Hne]; [reflexivity|].
    assert (Hlt : (s < List.length (sockets σ))%nat).
    { apply nth_error_Some. unfold socket_state in Hs.
      destruct (nth_error (sockets σ) s); [discriminate|].
      destruct Hs; discriminate. }
    assert (Hsh : shut s σ = true) by (apply Hshut; [exact Hlt|congruence]).
    unfold shut in Hsh. destruct Hs as [Hs|Hs]; rewrite Hs in Hsh;
      discriminate.
  - assert (Hlt : (s < List.length (sockets σ))%nat).
    { apply nth_error_Some. unfold socket_state in Hs.
      destruct (nth_error (sockets σ) s); [discriminate|].
      destruct Hs; discriminate. }
    assert (Hsh : shut s σ = true) by (apply Hshut; [exact Hlt|discriminate]).
    unfold shut in Hsh. destruct Hs as [Hs|Hs]; rewrite Hs in Hsh;
      discriminate.
Qed.

Lemma one_socket_in_use_witness :
  exists σ,
    deliver_all Part001.deliver
      (lease_form ++ [Click_submit; Socket_open 0; Click_submit]) initial
    = Some σ
    /\ ws (state σ) = Some 1%nat
    /\ shut 0 σ = true
    /\ forall s,
         socket_state s σ = Some CONNECTING \/ socket_state s σ = Some OPEN ->
         ws (state σ) = Some s.
Proof.
  destruct (deliver_all Part001.deliver
              (lease_form ++ [Click_submit; Socket_open 0; Click_submit])
              initial) as [σ|] eqn:H;
    [|vm_compute in H; discriminate H].
  destruct (one_socket_in_use Part001.deliver σ (or_intror eq_refl)
              (ex_intro _ _ H)) as [[Hlast Hshut] Hlive].
  assert (Ew : ws (state σ) = Some 1%nat).
  { vm_compute in H. injection H as <-. reflexivity. }
  exists σ. split; [reflexivity|]. split; [exact Ew|].
  split; [|exact Hlive]. apply Hshut.
  - rewrite Ew in Hlast. lia.
  - rewrite Ew. discriminate.
Defined.

(** ** Messages over a whole run *)

Lemma reachable_run d es σ σ' :
  Reachable d σ -> deliver_all d es σ = Some σ' -> Reachable d σ'.
Proof.
  intros [es0 H0] H. exists (es0 ++ es). now rewrite deliver_all_app, H0.
Qed.

Lemma well_keyed_of_reachable d σ :
  d = IFRSAdvisor.deliver \/ d = Part001.deliver ->
  Reachable d σ -> well_keyed (state σ).
Proof.
  intros [-> | ->]; [apply IFRS_well_keyed|apply Part001_well_keyed].
Qed.

Lemma other_events_both d e σ σ' :
  d = IFRSAdvisor.deliver \/ d = Part001.deliver ->
  d e σ = Some σ' ->
  is_submit e = false -> (forall s m, e <> answer_event s m) ->
  answers (state σ') = answers (state σ)
  /\ typing (state σ') = typing (state σ).
Proof.
  intros [-> | ->]; [apply IFRS_other_events|apply Part001_other_events].
Qed.

Lemma answer_both d socket msg σ σ' :
  d = IFRSAdvisor.deliver \/ d = Part001.deliver ->
  d (answer_event socket msg) σ = Some σ' ->
  answers (state σ') =
    obj_set (AnswerMessage.question_number msg) msg (answers (state σ))
  /\ typing (state σ') =
    obj_set (AnswerMessage.question_number msg) false (typing (state σ))
  /\ summary (state σ') = summary (state σ)
  /\ sessionLoading (state σ') = sessionLoading (state σ)
  /\ sockets σ' = sockets σ.
Proof.
  intros [-> | ->]; [apply IFRS_answer|apply Part001_answer].
Qed.

Lemma submit_state_both d σ σ' :
  d = IFRSAdvisor.deliver \/ d = Part001.deliver ->
  d Click_submit σ = Some σ' ->
  state σ' = state σ
  \/ state σ' = fresh_session (state σ) (List.length (sockets σ)).
Proof.
  intros [-> | ->]; [apply IFRS_submit_state|apply Part001_submit_state].
Qed.

Lemma latest_other k e es before :
  (forall socket msg, e <> answer_event socket msg) ->
  latest k (e :: es) before = latest k es before.
Proof.
  intros H. destruct e; try reflexivity.
  destruct data as [|[]]; try reflexivity. now elim (H socket msg).
Qed.

Lemma answers_step d e σ σ' k :
  d = IFRSAdvisor.deliver \/ d = Part001.deliver ->
  d e σ = Some σ' -> is_submit e = false ->
  obj_get k (answers (state σ'))
  = latest k [e] (obj_get k (answers (state σ))).
Proof.
  intros Hd H He.
  destruct (event_cases e) as [->|[(socket & msg & ->)|[_ Hother]]].
  - discriminate He.
  - destruct (answer_both d socket msg σ σ' Hd H) as (Ea & _).
    rewrite Ea, obj_get_set. reflexivity.
  - destruct (other_events_both d e σ σ' Hd H He Hother) as (Ea & _).
    rewrite Ea. now rewrite latest_other.
Qed.

Lemma latest_cons k e es before :
  latest k (e :: es) before = latest k es (latest k [e] before).
Proof.
  destruct e; try reflexivity. destruct data as [|[]]; reflexivity.
Qed.

(** X9 (the last answer wins).  Over any run of events without a
    submission, the record stored for a question number is the last answer
    message for that number in the run, or the record from before the run
    when the run has none; the messages for other numbers, their order and
    every other event make no difference.  [sortedAnswers] then shows,
    for each number, exactly that record. *)
Theorem latest_answer_wins
  (d : Event -> Sys -> option Sys) (es : list Event) (σ σ' : Sys) :
  d = IFRSAdvisor.deliver \/ d = Part001.deliver ->
  Reachable d σ ->
  deliver_all d es σ = Some σ' ->
  existsb is_submit es = false ->
  (forall k,
     obj_get k (answers (state σ'))
     = latest k es (obj_get k (answers (state σ))))
  /\ (forall m,
        In m (sortedAnswers (state σ')) <->
        latest (AnswerMessage.question_number m) es
          (obj_get (AnswerMessage.question_number m) (answers (state σ)))
        = Some m).
Proof.
  intros Hd Hr H Hes.
  assert (Hget : forall k,
             obj_get k (answers (state σ'))
             = latest k es (obj_get k (answers (state σ)))).
  { clear Hr. revert σ H Hes.
    induction es as [|e es IH]; simpl deliver_all; intros σ H Hes k.
    - now injection H as <-.
    - destruct (d e σ) as [σ1|] eqn:He; [|discriminate].
      simpl in Hes. apply orb_false_elim in Hes. destruct Hes as [Hs Hes].
      rewrite (IH σ1 H Hes k), (answers_step d e σ σ1 k Hd He Hs).
      now rewrite (latest_cons k e es). }
  split; [exact Hget|]. intros m. rewrite <- Hget.
  destruct (well_keyed_of_reachable d σ' Hd (reachable_run d es σ σ' Hr H))
    as (Hnd & Hkey & _).
  split.
  - intros Hin. apply sortedAnswers_in in Hin. apply in_map_iff in Hin.
    destruct Hin as ([k m0] & E & Hin). simpl in E. subst m0.
    rewrite Forall_forall in Hkey. pose proof (Hkey _ Hin) as E.
    simpl in E. rewrite E. now apply in_obj_get.
  - apply sortedAnswers_holds.
Qed.

Lemma latest_answer_wins_witness :
  exists σ',
    deliver_all IFRSAdvisor.deliver
      [answer_event 0 lease_answer_2; Time_passes 5;
       answer_event 0 lease_answer_1; Change_background [];
       answer_event 0 lease_answer_2_revised]
      (lease_open IFRSAdvisor.deliver) = Some σ'
    /\ obj_get 2 (answers (state σ')) = Some lease_answer_2_revised
    /\ obj_get 1 (answers (state σ')) = Some lease_answer_1
    /\ obj_get 3 (answers (state σ')) = None.
Proof.
  destruct (deliver_all IFRSAdvisor.deliver
              [answer_event 0 lease_answer_2; Time_passes 5;
               answer_event 0 lease_answer_1; Change_background [];
               answer_event 0 lease_answer_2_revised]
              (lease_open IFRSAdvisor.deliver)) as [σ'|] eqn:H;
    [|vm_compute in H; discriminate H].
  destruct (latest_answer_wins IFRSAdvisor.deliver _ _ σ'
              (or_introl eq_refl) lease_open_reachable H eq_refl)
    as [Hget _].
  exists σ'. split; [reflexivity|]. rewrite !Hget.
  repeat split; vm_compute; reflexivity.
Defined.

(** ** What is answered is not pending *)

Lemma answered_settled_step d e σ σ' :
  d = IFRSAdvisor.deliver \/ d = Part001.deliver ->
  d e σ = Some σ' ->
  (forall k m, obj_get k (answers (state σ)) = Some m ->
               obj_get k (typing (state σ)) = Some false) ->
  forall k m, obj_get k (answers (state σ')) = Some m ->
              obj_get k (typing (state σ')) = Some false.
Proof.
  intros Hd H Hinv k m.
  destruct (event_cases e) as [->|[(socket & msg & ->)|[He Hother]]].
  - destruct (submit_state_both d σ σ' Hd H) as [-> | ->];
      [apply Hinv|discriminate].
  - destruct (answer_both d socket msg σ σ' Hd H) as (Ea & Et & _).
    rewrite Ea, Et, !obj_get_set.
    destruct (k =? AnswerMessage.question_number msg); [reflexivity|].
    apply Hinv.
  - destruct (other_events_both d e σ σ' Hd H He Hother) as (Ea & Et).
    rewrite Ea, Et. apply Hinv.
Qed.

(** X10 (answered means not pending).  In every state the component
    reaches, a question number that has an Answer record has its typing
    flag off: no question is shown both with an answer and as still being
    worked on. *)
Theorem answered_is_not_pending
  (d : Event -> Sys -> option Sys) (σ : Sys) (k : Z) (m : AnswerMessage.t) :
  d = IFRSAdvisor.deliver \/ d = Part001.deliver ->
  Reachable d σ ->
  obj_get k (answers (state σ)) = Some m ->
  obj_get k (typing (state σ)) = Some false
  /\ ~ In k (pendingNumbers (state σ)).
Proof.
  intros Hd Hr Hk.
  assert (Ht : obj_get k (typing (state σ)) = Some false).
  { destruct Hr as [es H]. revert k m Hk.
    assert (Hgen : forall es σ0 σ',
               deliver_all d es σ0 = Some σ' ->
               (forall k m, obj_get k (answers (state σ0)) = Some m ->
                            obj_get k (typing (state σ0)) = Some false) ->
               forall k m, obj_get k (answers (state σ')) = Some m ->
                           obj_get k (typing (state σ')) = Some false).
    { clear H. induction es0 as [|e es0 IH]; simpl; intros σ0 σ' H Hinv.
      - now injection H as <-.
      - destruct (d e σ0) as [σ1|] eqn:He; [|discriminate].
        apply (IH _ _ H).
        now apply (answered_settled_step d e σ0 σ1 Hd He). }
    apply (Hgen _ _ _ H). simpl. discriminate. }
  split; [exact Ht|]. intros Hin. apply pending_iff in Hin.
  destruct (well_keyed_of_reachable d σ Hd Hr) as (_ & _ & Hnd).
  apply in_obj_get in Hin; [congruence|exact Hnd].
Qed.

Lemma answered_is_not_pending_witness :
  exists σ',
    deliver_all Part001.deliver [answer_event 0 lease_answer_2]
      (lease_open Part001.deliver) = Some σ'
    /\ obj_get 2 (typing (state σ')) = Some false
    /\ ~ In 2 (pendingNumbers (state σ')).
Proof.
  destruct (deliver_all Part001.deliver [answer_event 0 lease_answer_2]
              (lease_open Part001.deliver)) as [σ'|] eqn:H;
    [|vm_compute in H; discriminate H].
  assert (Hr : Reachable Part001.deliver σ').
  { exists ((lease_form ++ [Click_submit; Socket_open 0])
            ++ [answer_event 0 lease_answer_2]).
    rewrite deliver_all_app. rewrite <- H. vm_compute. reflexivity. }
  assert (Hk : obj_get 2 (answers (state σ')) = Some lease_answer_2).
  { vm_compute in H. injection H as <-. reflexivity. }
  exists σ'. split; [reflexivity|].
  exact (answered_is_not_pending Part001.deliver σ' 2 lease_answer_2
           (or_intror eq_refl) Hr Hk).
Defined.

(** ** The view of the answers *)

Section StrictlySorted.
Variables (A : Type) (key : A -> Z).

Lemma strictly_sorted (l : list A) :
  StronglySorted (le_key key) l -> NoDup (map key l) ->
  StronglySorted (lt_key key) l.
Proof.
  induction 1 as [|a l Hl IH Ha]; intros Hnd; constructor.
  - apply IH. now inversion Hnd.
  - inversion Hnd as [|? ? Hnotin _]; subst.
    rewrite Forall_forall in *. intros b Hb.
    specialize (Ha b Hb). unfold le_key in Ha. unfold lt_key.
    assert (key a <> key b).
    { intros E. apply Hnotin. rewrite E. now apply in_map. }
    lia.
Qed.

Lemma StronglySorted_filter (R : A -> A -> Prop) f (l : list A) :
  StronglySorted R l -> StronglySorted R (filter f l).
Proof.
  induction 1 as [|a l Hl IH Ha]; simpl; [constructor|].
  destruct (f a); [|exact IH]. constructor; [exact IH|].
  rewrite Forall_forall in *. intros b Hb. apply Ha.
  now apply filter_In in Hb.
Qed.

Lemma StronglySorted_app (R : A -> A -> Prop) (l1 l2 : list A) :
  StronglySorted R l1 -> StronglySorted R l2 ->
  (forall a b, In a l1 -> In b l2 -> R a b) ->
  StronglySorted R (l1 ++ l2).
Proof.
  induction 1 as [|a l Hl IH Ha]; simpl; intros H2 Hc; [exact H2|].
  constructor.
  - apply IH; [exact H2|]. intros x y Hx Hy. apply Hc; [now right|exact Hy].
  - rewrite Forall_forall in *. intros b Hb. apply in_app_or in Hb.
    destruct Hb as [Hb|Hb]; [now apply Ha|]. apply Hc; [now left|exact Hb].
Qed.

Lemma StronglySorted_keys (l : list A) :
  StronglySorted (lt_key key) l -> StronglySorted Z.lt (map key l).
Proof.
  induction 1 as [|a l Hl IH Ha]; simpl; constructor; [exact IH|].
  rewrite Forall_forall in *. intros k Hk. apply in_map_iff in Hk.
  destruct Hk as (b & <- & Hb). now apply Ha.
Qed.
End StrictlySorted.

(** X11 (the sorted view).  Answer messages are those of the service's
    contract, with an integer [question_number].  In every state the
    component reaches through such messages, [sortedAnswers] holds each
    stored record once and nothing else, in strictly ascending order of
    [question_number]: no two entries have the same number. *)
Theorem sortedAnswers_strictly_ascending
  (d : Event -> Sys -> option Sys) (σ : Sys) :
  d = IFRSAdvisor.deliver \/ d = Part001.deliver ->
  Reachable d σ ->
  StronglySorted (lt_key AnswerMessage.question_number)
    (sortedAnswers (state σ))
  /\ List.length (sortedAnswers (state σ)) = List.length (answers (state σ))
  /\ forall m,
       In m (sortedAnswers (state σ)) <->
       obj_get (AnswerMessage.question_number m) (answers (state σ))
       = Some m.
Proof.
  intros Hd Hr.
  pose proof (well_keyed_of_reachable d σ Hd Hr) as Hwk.
  destruct Hwk as (Hnd & Hkey & Hnt).
  split; [|split].
  - apply strictly_sorted; [apply sortedAnswers_sorted|].
    apply sortedAnswers_numbers. now repeat split.
  - rewrite (Permutation_length (sortedAnswers_perm (state σ))).
    apply length_map.
  - intros m. split; [|apply sortedAnswers_holds].
    intros Hin. apply sortedAnswers_in in Hin. apply in_map_iff in Hin.
    destruct Hin as ([k m0] & E & Hin). simpl in E. subst m0.
    rewrite Forall_forall in Hkey. pose proof (Hkey _ Hin) as E.
    simpl in E. rewrite E. now apply in_obj_get.
Qed.

Lemma sortedAnswers_strictly_ascending_witness :
  exists σ,
    deliver_all IFRSAdvisor.deliver
      [answer_event 0 lease_answer_2; answer_event 0 stray_answer;
       answer_event 0 lease_answer_1]
      (lease_open IFRSAdvisor.deliver) = Some σ
    /\ sortedAnswers (state σ)
       = [stray_answer; lease_answer_1; lease_answer_2]
    /\ StronglySorted (lt_key AnswerMessage.question_number)
         (sortedAnswers (state σ))
    /\ List.length (sortedAnswers (state σ)) = List.length (answers (state σ))
    /\ forall m,
         In m (sortedAnswers (state σ)) <->
         obj_get (AnswerMessage.question_number m) (answers (state σ))
         = Some m.
Proof.
  destruct (deliver_all IFRSAdvisor.deliver
              [answer_event 0 lease_answer_2; answer_event 0 stray_answer;
               answer_event 0 lease_answer_1]
              (lease_open IFRSAdvisor.deliver)) as [σ|] eqn:H;
    [|vm_compute in H; discriminate H].
  exists σ. split; [reflexivity|].
  split; [vm_compute in H; injection H as <-; vm_compute; reflexivity|].
  exact (sortedAnswers_strictly_ascending IFRSAdvisor.deliver σ
           (or_introl eq_refl)
           (reachable_run IFRSAdvisor.deliver _ _ σ lease_open_reachable H)).
Defined.

(** ** The summary and the ordering hint *)

Lemma hint_step d e σ σ' :
  d = IFRSAdvisor.deliver \/ d = Part001.deliver ->
  d e σ = Some σ' -> is_submit e = false ->
  sentInOrder (state σ')
  = match event_flag e with
    | Some b => Some b
    | None => sentInOrder (state σ)
    end.
Proof.
  intros Hd H He.
  destruct e; try discriminate He; destruct Hd as [-> | ->];
    open_deliver H; rewrite ?handle_state; unfold event_flag;
    run_handler.
Qed.

(** X12 (the ordering hint).  Over any run of events without a
    submission, [sentInOrder] is the last [sent_in_order] flag that a
    message of the run carried, whatever the type of that message, or its
    value from before the run when no message carried one: the flags
    are not combined, and a message without a flag does not clear the
    hint. *)
Theorem ordering_hint_is_the_last_flag
  (d : Event -> Sys -> option Sys) (es : list Event) (σ σ' : Sys) :
  d = IFRSAdvisor.deliver \/ d = Part001.deliver ->
  deliver_all d es σ = Some σ' ->
  existsb is_submit es = false ->
  sentInOrder (state σ') = hint_after es (sentInOrder (state σ)).
Proof.
  intros Hd. revert σ. unfold hint_after.
  induction es as [|e es IH]; simpl; intros σ H Hes.
  - now injection H as <-.
  - destruct (d e σ) as [σ1|] eqn:He; [|discriminate].
    apply orb_false_elim in Hes. destruct Hes as [Hs Hes].
    rewrite (IH σ1 H Hes). now rewrite (hint_step d e σ σ1 Hd He Hs).
Qed.

Lemma ordering_hint_is_the_last_flag_witness :
  exists σ',
    deliver_all Part001.deliver
      [answer_event 0 lease_answer_2;
       Socket_message 0 (Parsable (Other (Some true)));
       answer_event 0 lease_answer_1;
       Socket_message 0 (Unparsable (lit "{"))]
      (lease_open Part001.deliver) = Some σ'
    /\ sentInOrder (state σ') = Some true.
Proof.
  destruct (deliver_all Part001.deliver
              [answer_event 0 lease_answer_2;
               Socket_message 0 (Parsable (Other (Some true)));
               answer_event 0 lease_answer_1;
               Socket_message 0 (Unparsable (lit "{"))]
              (lease_open Part001.deliver)) as [σ'|] eqn:H;
    [|vm_compute in H; discriminate H].
  exists σ'. split; [reflexivity|].
  rewrite (ordering_hint_is_the_last_flag Part001.deliver _ _ σ'
             (or_intror eq_refl) H eq_refl).
  reflexivity.
Defined.

Lemma summary_effect d socket msg σ :
  d = IFRSAdvisor.deliver \/ d = Part001.deliver ->
  socket_state socket σ = Some OPEN ->
  exists σ',
    d (Socket_message socket (Parsable (Summary msg))) σ = Some σ'
    /\ state σ'
       = {| background := background (state σ);
            questions := questions (state σ);
            ws := ws (state σ);
            sessionLoading := false;
            answers := answers (state σ);
            typing := typing (state σ);
            summary := Some msg;
            sentInOrder :=
              match SummaryMessage.sent_in_order msg with
              | Some flag => Some flag
              | None => sentInOrder (state σ)
              end |}
    /\ sockets σ' = sockets σ
    /\ timers σ' = timers σ
    /\ toasts σ' = toasts σ.
Proof.
  intros Hd Ho. destruct (socket_open_inv _ _ Ho) as (w & Hw & Hr).
  destruct Hd as [-> | ->];
    unfold IFRSAdvisor.deliver, Part001.deliver, deliver;
    rewrite Hw, Hr; (eexists; split; [reflexivity|]);
    (rewrite handle_same_ws; [|run_handler]);
    destruct σ as [s socks tms tts con nw]; destruct s;
    unfold_handlers; simpl;
    destruct (SummaryMessage.sent_in_order msg); simpl; repeat split.
Qed.

(** X13 (the summary).  A summary message on an open socket records the
    summary, turns the awaiting indicator off and, when it carries a
    boolean [sent_in_order], sets the ordering hint to it.  No other cell
    of the component state changes: the Answer records and the typing
    flags stay (a question not yet answered stays pending).  No toast is
    shown, the timers and the sockets are as before, and the socket stays
    open, so that an answer arriving after the summary is recorded like
    any other, with the summary kept and the indicator still off. *)
Theorem summary_does_not_end_the_session
  (d : Event -> Sys -> option Sys) (socket : nat)
  (msg : SummaryMessage.t) (late : AnswerMessage.t) (σ : Sys) :
  d = IFRSAdvisor.deliver \/ d = Part001.deliver ->
  socket_state socket σ = Some OPEN ->
  exists σ1 σ2,
    d (Socket_message socket (Parsable (Summary msg))) σ = Some σ1
    /\ state σ1
       = {| background := background (state σ);
            questions := questions (state σ);
            ws := ws (state σ);
            sessionLoading := false;
            answers := answers (state σ);
            typing := typing (state σ);
            summary := Some msg;
            sentInOrder :=
              match SummaryMessage.sent_in_order msg with
              | Some flag => Some flag
              | None => sentInOrder (state σ)
              end |}
    /\ pendingNumbers (state σ1) = pendingNumbers (state σ)
    /\ sortedAnswers (state σ1) = sortedAnswers (state σ)
    /\ sockets σ1 = sockets σ
    /\ timers σ1 = timers σ
    /\ toasts σ1 = toasts σ
    /\ socket_state socket σ1 = Some OPEN
    /\ d (answer_event socket late) σ1 = Some σ2
    /\ obj_get (AnswerMessage.question_number late) (answers (state σ2))
       = Some late
    /\ summary (state σ2) = Some msg
    /\ sessionLoading (state σ2) = false.
Proof.
  intros Hd Ho.
  destruct (summary_effect d socket msg σ Hd Ho)
    as (σ1 & H1 & Es & Ek & Em & Eo).
  assert (Ho1 : socket_state socket σ1 = Some OPEN).
  { unfold socket_state. rewrite Ek. exact Ho. }
  assert (Hdel : exists σ2, d (answer_event socket late) σ1 = Some σ2).
  { destruct Hd as [-> | ->];
      [now apply IFRS_answer_delivered|now apply Part001_answer_delivered]. }
  destruct Hdel as (σ2 & H2).
  destruct (answer_both d socket late σ1 σ2 Hd H2) as (Ea2 & _ & Es2 & El2 & _).
  exists σ1, σ2. split; [exact H1|]. split; [exact Es|].
  split; [now rewrite Es|]. split; [now rewrite Es|].
  do 5 (split; [assumption|]).
  split; [rewrite Ea2, obj_get_set; now rewrite Z.eqb_refl|].
  rewrite Es2, El2, Es. split; reflexivity.
Qed.

Lemma summary_does_not_end_the_session_witness :
  exists σ1 σ2,
    IFRSAdvisor.deliver
      (Socket_message 0
         (Parsable
            (Summary (SummaryMessage.make (lit "## Summary") None
                        (Some true)))))
      (lease_open IFRSAdvisor.deliver) = Some σ1
    /\ sentInOrder (state (lease_open IFRSAdvisor.deliver)) = None
    /\ sentInOrder (state σ1) = Some true
    /\ sessionLoading (state (lease_open IFRSAdvisor.deliver)) = true
    /\ sessionLoading (state σ1) = false
    /\ pendingNumbers (state σ1) = [1; 2]
    /\ IFRSAdvisor.deliver (answer_event 0 lease_answer_1) σ1 = Some σ2
    /\ obj_get 1 (answers (state σ2)) = Some lease_answer_1
    /\ sessionLoading (state σ2) = false.
Proof.
  destruct (summary_does_not_end_the_session IFRSAdvisor.deliver 0
              (SummaryMessage.make (lit "## Summary") None (Some true))
              lease_answer_1 (lease_open IFRSAdvisor.deliver)
              (or_introl eq_refl) eq_refl)
    as (σ1 & σ2 & H1 & Es & Ep & _ & _ & _ & _ & _ & H2 & Ha & _ & El).
  exists σ1, σ2. split; [exact H1|]. split; [reflexivity|].
  split; [now rewrite Es|]. split; [reflexivity|].
  split; [now rewrite Es|]. split; [exact Ep|].
  split; [exact H2|]. split; [exact Ha|exact El].
Defined.

(** ** The connection timer, once the socket has settled *)

Lemma Part001_settle_clears e socket σ σ' w :
  nth_error (sockets σ) socket = Some w ->
  e = Socket_open socket \/ e = Socket_error socket
  \/ (exists ev, e = Socket_close socket ev) ->
  Part001.deliver e σ = Some σ' ->
  timers σ' = clear (captured_connectTimeout w) (timers σ).
Proof.
  intros Hw [->|[->|[ev ->]]] H; open_deliver H;
    injection Hw as ->; rename Heqo into Hw; rewrite handle_timers.
  - set (σ0 := with_sockets (update_nth socket (with_readyState OPEN)) σ).
    destruct (Part001_onopen_effect socket w σ0 (with_readyState OPEN w))
      as (Et & _).
    { unfold σ0. simpl. now rewrite nth_error_update_nth, Nat.eqb_refl, Hw. }
    { reflexivity. }
    exact Et.
  - destruct (Part001_settle_effect socket w (mark_closed false socket σ)
                (Part001.onerror socket w)) as (Et & _); [now left|].
    exact Et.
  - destruct (Part001_settle_effect socket w (mark_closed true socket σ)
                (Part001.onclose socket w ev)) as (Et & _);
      [right; now exists ev|].
    exact Et.
Qed.

Lemma cleared_step tms vs tms' vs' t tm :
  TimerStep (tms, vs) (tms', vs') ->
  nth_error tms t = Some tm -> cleared tm = true ->
  exists tm', nth_error tms' t = Some tm' /\ cleared tm' = true.
Proof.
  intros Hstep Ht Hc.
  inversion Hstep as
    [? ?|? ? s0 v0 r Hv0 Hr|? ? t0 tm0 Ht0|? ? old D0|? ? s0 Hopen]; subst;
    clear Hstep.
  - now exists tm.
  - unfold clear. destruct (snd v0) as [t1|]; [|now exists tm].
    rewrite nth_error_update_nth, Ht.
    destruct (t1 =? t)%nat; simpl; eexists; split; try reflexivity;
      auto.
  - rewrite nth_error_update_nth, Ht.
    destruct (t0 =? t)%nat; simpl; eexists; split; try reflexivity;
      auto.
  - exists tm. split; [|exact Hc]. rewrite nth_error_app1; [exact Ht|].
    apply nth_error_Some. congruence.
  - now exists tm.
Qed.

Lemma cleared_run es t :
  forall σ σ' tm,
    Part001.deliver_all es σ = Some σ' ->
    nth_error (timers σ) t = Some tm -> cleared tm = true ->
    exists tm', nth_error (timers σ') t = Some tm' /\ cleared tm' = true.
Proof.
  unfold Part001.deliver_all.
  induction es as [|e es IH]; simpl; intros σ σ' tm H Ht Hc.
  - injection H as <-. now exists tm.
  - destruct (Part001.deliver e σ) as [σ1|] eqn:He; [|discriminate].
    destruct (cleared_step _ _ _ _ t tm (Part001_timer_step _ _ _ He) Ht Hc)
      as (tm1 & Ht1 & Hc1).
    apply (IH σ1 σ' tm1 H Ht1 Hc1).
Qed.

(** X14 (the timer is off once the socket has settled).  In the later
    revision, once a socket has opened, or its error or close event has
    been handled, its connection timer is cleared and stays cleared: in no
    later state can it fire, so a connection that was made in time (or
    whose failure was already reported) never gets the timeout toast. *)
Theorem timer_is_off_once_settled
  (σ σ1 σ2 : Sys) (socket t : nat) (w : WebSocket) (e : Event)
  (es : list Event) :
  Reachable Part001.deliver σ ->
  nth_error (sockets σ) socket = Some w ->
  captured_connectTimeout w = Some t ->
  e = Socket_open socket \/ e = Socket_error socket
  \/ (exists ev, e = Socket_close socket ev) ->
  Part001.deliver e σ = Some σ1 ->
  Part001.deliver_all es σ1 = Some σ2 ->
  pending t σ2 = false
  /\ Part001.deliver (Timer_fires t) σ2 = None.
Proof.
  intros Hr Hw Hc He H1 H2.
  pose proof (Part001_settle_clears e socket σ σ1 w Hw He H1) as Et.
  rewrite Hc in Et. simpl in Et.
  assert (Hlt : (t < List.length (timers σ))%nat).
  { apply (timers_known_reachable σ Hr socket (view w) t).
    - now apply views_nth.
    - exact Hc. }
  destruct (nth_error (timers σ) t) as [tm|] eqn:Ht;
    [|apply nth_error_None in Ht; lia].
  assert (Ht1 : nth_error (timers σ1) t = Some (set_cleared tm)).
  { now rewrite Et, nth_error_update_nth, Nat.eqb_refl, Ht. }
  destruct (cleared_run es t σ1 σ2 _ H2 Ht1 eq_refl) as (tm2 & Ht2 & Hc2).
  unfold pending, Part001.deliver, deliver. rewrite Ht2, Hc2. now split.
Qed.

Lemma timer_is_off_once_settled_witness :
  exists σ1 σ2,
    Part001.deliver Click_submit (lease_typed Part001.deliver) = Some σ1
    /\ Part001.deliver_all [Socket_open 0; Time_passes 10000] σ1 = Some σ2
    /\ Part001.deliver (Timer_fires 0) σ2 = None.
Proof.
  destruct (Part001.deliver Click_submit (lease_typed Part001.deliver))
    as [σ1|] eqn:H1; [|vm_compute in H1; discriminate H1].
  destruct (Part001.deliver (Socket_open 0) σ1) as [σ1'|] eqn:Ho;
    [|vm_compute in H1; injection H1 as <-; vm_compute in Ho;
      discriminate Ho].
  destruct (Part001.deliver_all [Time_passes 10000] σ1') as [σ2|] eqn:H2;
    [|simpl in H2; discriminate H2].
  assert (Hr : Reachable Part001.deliver σ1).
  { exists (lease_form ++ [Click_submit]). rewrite deliver_all_app.
    rewrite <- H1. vm_compute. reflexivity. }
  destruct (nth_error (sockets σ1) 0) as [w|] eqn:Hw;
    [|vm_compute in H1; injection H1 as <-; vm_compute in Hw;
      discriminate Hw].
  assert (Hc : captured_connectTimeout w = Some 0%nat).
  { vm_compute in H1. injection H1 as <-. vm_compute in Hw.
    injection Hw as <-. reflexivity. }
  destruct (timer_is_off_once_settled σ1 σ1' σ2 0 0 w (Socket_open 0)
              [Time_passes 10000] Hr Hw Hc (or_introl eq_refl) Ho H2)
    as [_ Hnone].
  exists σ1, σ2. split; [reflexivity|]. split; [|exact Hnone].
  unfold Part001.deliver_all in *.
  rewrite (deliver_all_step _ _ _ _ _ Ho). exact H2.
Defined.

(** X15 (a timer whose socket is no longer connecting).  In the later
    revision a submission does not clear the timer of the socket it
    replaces, so that timer still fires; but its callback looks at the
    socket first, and when the socket is not connecting any more nothing
    happens: the system is as before, with only the timer marked as
    fired.  No toast is shown and the awaiting indicator of the session
    in progress stays as it is. *)
Theorem stale_timer_does_nothing
  (t : nat) (tm : Timer) (σ σ' : Sys) :
  nth_error (timers σ) t = Some tm ->
  socket_state (timer_socket tm) σ <> Some CONNECTING ->
  Part001.deliver (Timer_fires t) σ = Some σ' ->
  σ' = mark_fired t σ
  /\ state σ' = state σ /\ sockets σ' = sockets σ /\ toasts σ' = toasts σ.
Proof.
  intros Ht Hs H. open_deliver H. injection Ht as ->.
  assert (E : run (Part001.connectTimeout_callback (timer_socket tm))
                (mark_fired t σ) = mark_fired t σ).
  { unfold Part001.connectTimeout_callback, run, bind, socket_readyState.
    unfold socket_state in Hs. simpl.
    destruct (nth_error (sockets σ) (timer_socket tm)) as [w|];
      [|reflexivity].
    simpl in Hs. destruct (readyState w); try reflexivity. now elim Hs. }
  rewrite handle_same_ws by (now rewrite E). rewrite E.
  repeat split.
Qed.

Lemma stale_timer_does_nothing_witness :
  exists σ σ',
    Part001.deliver_all [Click_submit; Click_submit; Time_passes 10000]
      (lease_typed Part001.deliver) = Some σ
    /\ Part001.deliver (Timer_fires 0) σ = Some σ'
    /\ sessionLoading (state σ') = true /\ toasts σ' = [].
Proof.
  destruct (Part001.deliver_all
              [Click_submit; Click_submit; Time_passes 10000]
              (lease_typed Part001.deliver)) as [σ|] eqn:H;
    [|vm_compute in H; discriminate H].
  destruct (Part001.deliver (Timer_fires 0) σ) as [σ'|] eqn:H';
    [|vm_compute in H; injection H as <-; vm_compute in H';
      discriminate H'].
  destruct (nth_error (timers σ) 0) as [tm|] eqn:Ht;
    [|vm_compute in H; injection H as <-; vm_compute in Ht;
      discriminate Ht].
  assert (Hs : socket_state (timer_socket tm) σ <> Some CONNECTING).
  { vm_compute in H. injection H as <-. vm_compute in Ht.
    injection Ht as <-. vm_compute. discriminate. }
  destruct (stale_timer_does_nothing 0 tm σ σ' Ht Hs H')
    as (_ & Es & _ & Eo).
  exists σ, σ'. split; [reflexivity|]. split; [exact H'|].
  rewrite Es, Eo. vm_compute in H. injection H as <-. split; reflexivity.
Defined.

(** ** The awaiting indicator *)

Lemma connecting_socket d socket σ σ' :
  d = IFRSAdvisor.deliver \/ d = Part001.deliver ->
  d (Socket_open socket) σ = Some σ' ->
  exists w, nth_error (sockets σ) socket = Some w
            /\ readyState w = CONNECTING.
Proof.
  intros Hd H.
  destruct Hd as [-> | ->];
    unfold IFRSAdvisor.deliver, Part001.deliver, deliver in H;
    destruct (nth_error (sockets σ) socket) as [w|]; try discriminate H;
    exists w; (split; [reflexivity|]);
    destruct (readyState w); try discriminate H; reflexivity.
Qed.




(** ** A failed connection, as the user is told of it *)

Ltac settle_event Hw Hc :=
  unfold IFRSAdvisor.deliver, Part001.deliver, deliver;
  rewrite Hw, Hc; (eexists; split; [reflexivity|]);
  (rewrite handle_same_ws; [|run_handler]);
  repeat split; run_handler.

Lemma readyState_not_closed w :
  readyState w <> CLOSED -> ReadyState_eqb (readyState w) CLOSED = false.
Proof. destruct (readyState w); try reflexivity. intros H. now elim H. Qed.

Lemma IFRS_error_effect socket σ w :
  nth_error (sockets σ) socket = Some w -> readyState w <> CLOSED ->
  exists σ1,
    IFRSAdvisor.deliver (Socket_error socket) σ = Some σ1
    /\ sockets σ1 = sockets (mark_closed false socket σ)
    /\ state σ1 = awaiting_off (state σ)
    /\ toasts σ1
       = toasts σ
         ++ [{| title := lit "Connection error";
                description :=
                  lit "Could not connect to IFRS Advisor. Please try again." |}].
Proof.
  intros Hw Hr. apply readyState_not_closed in Hr. settle_event Hw Hr.
Qed.

Lemma Part001_error_effect socket σ w :
  nth_error (sockets σ) socket = Some w -> readyState w <> CLOSED ->
  exists σ1,
    Part001.deliver (Socket_error socket) σ = Some σ1
    /\ sockets σ1 = sockets (mark_closed false socket σ)
    /\ state σ1 = awaiting_off (state σ)
    /\ toasts σ1 = toasts σ ++ [ConnectionError].
Proof.
  intros Hw Hr. apply readyState_not_closed in Hr. settle_event Hw Hr.
Qed.

Lemma IFRS_close_effect socket ev σ w :
  nth_error (sockets σ) socket = Some w -> close_dispatched w = false ->
  exists σ2,
    IFRSAdvisor.deliver (Socket_close socket ev) σ = Some σ2
    /\ state σ2 = awaiting_off (state σ)
    /\ toasts σ2 = toasts σ.
Proof. intros Hw Hc. settle_event Hw Hc. Qed.

Lemma Part001_close_effect socket ev σ w :
  nth_error (sockets σ) socket = Some w -> close_dispatched w = false ->
  exists σ2,
    Part001.deliver (Socket_close socket ev) σ = Some σ2
    /\ state σ2 = awaiting_off (state σ)
    /\ toasts σ2
       = toasts σ ++ (if code ev =? 1000 then [] else [ConnectionClosed ev]).
Proof.
  intros Hw Hc. unfold ConnectionClosed.
  destruct (code ev =? 1000) eqn:Ec;
    unfold Part001.deliver, deliver;
    rewrite Hw, Hc; (eexists; split; [reflexivity|]);
    (rewrite handle_same_ws; [|run_handler]);
    (split; [run_handler|]);
    unfold_handlers; destruct (captured_connectTimeout w); simpl;
    rewrite Ec; simpl; try reflexivity; now rewrite app_nil_r.
Qed.

Lemma closed_by_error socket σ w :
  nth_error (sockets σ) socket = Some w -> close_dispatched w = false ->
  exists w1,
    nth_error (sockets (mark_closed false socket σ)) socket = Some w1
    /\ close_dispatched w1 = false.
Proof.
  intros Hw Hc. unfold mark_closed. simpl.
  rewrite nth_error_update_nth, Nat.eqb_refl, Hw. simpl.
  eexists. split; [reflexivity|]. exact Hc.
Qed.

(** X17 (a failure is reported once, or twice).  When the browser gives up
    a connection, the socket gets an error event and then a close event.
    The earlier file shows one toast for the two, ["Connection error"].
    The later revision shows the error toast and then, unless the close
    code is 1000, the ["Connection closed (code)"] toast as well.  In both
    the component state afterwards is the one before with the awaiting
    indicator off. *)
Theorem failure_is_reported
  (socket : nat) (ev : CloseEvent) (σ : Sys) (w : WebSocket) :
  nth_error (sockets σ) socket = Some w ->
  readyState w <> CLOSED -> close_dispatched w = false ->
  (exists σ',
     IFRSAdvisor.deliver_all [Socket_error socket; Socket_close socket ev] σ
     = Some σ'
     /\ toasts σ'
        = toasts σ
          ++ [{| title := lit "Connection error";
                 description :=
                   lit "Could not connect to IFRS Advisor. Please try again." |}]
     /\ state σ' = awaiting_off (state σ))
  /\ (exists σ',
        Part001.deliver_all [Socket_error socket; Socket_close socket ev] σ
        = Some σ'
        /\ toasts σ'
           = toasts σ
             ++ ConnectionError
                :: (if code ev =? 1000 then [] else [ConnectionClosed ev])
        /\ state σ' = awaiting_off (state σ)).
Proof.
  intros Hw Hr Hc.
  destruct (closed_by_error socket σ w Hw Hc) as (w1 & Hw1 & Hc1).
  split.
  - destruct (IFRS_error_effect socket σ w Hw Hr) as (σ1 & H1 & Ek & Es & Eo).
    rewrite <- Ek in Hw1.
    destruct (IFRS_close_effect socket ev σ1 w1 Hw1 Hc1)
      as (σ2 & H2 & Es2 & Eo2).
    exists σ2. unfold IFRSAdvisor.deliver_all.
    rewrite (deliver_all_step _ _ _ _ _ H1), (deliver_all_step _ _ _ _ _ H2).
    split; [reflexivity|]. split; [now rewrite Eo2, Eo|].
    now rewrite Es2, Es.
  - destruct (Part001_error_effect socket σ w Hw Hr)
      as (σ1 & H1 & Ek & Es & Eo).
    rewrite <- Ek in Hw1.
    destruct (Part001_close_effect socket ev σ1 w1 Hw1 Hc1)
      as (σ2 & H2 & Es2 & Eo2).
    exists σ2. unfold Part001.deliver_all.
    rewrite (deliver_all_step _ _ _ _ _ H1), (deliver_all_step _ _ _ _ _ H2).
    split; [reflexivity|]. split; [|now rewrite Es2, Es].
    rewrite Eo2, Eo, <- app_assoc. reflexivity.
Qed.

Lemma failure_is_reported_witness :
  exists σ',
    Part001.deliver_all [Socket_error 0; Socket_close 0 abnormal_closure]
      (lease_open Part001.deliver) = Some σ'
    /\ toasts σ' = [ConnectionError; ConnectionClosed abnormal_closure]
    /\ sessionLoading (state σ') = false.
Proof.
  destruct (nth_error (sockets (lease_open Part001.deliver)) 0) as [w|] eqn:Hw;
    [|vm_compute in Hw; discriminate Hw].
  assert (Hr : readyState w <> CLOSED).
  { vm_compute in Hw. injection Hw as <-. discriminate. }
  assert (Hc : close_dispatched w = false).
  { vm_compute in Hw. injection Hw as <-. reflexivity. }
  destruct (failure_is_reported 0 abnormal_closure
              (lease_open Part001.deliver) w Hw Hr Hc)
    as (_ & σ' & H & Eo & Es).
  exists σ'. split; [exact H|]. rewrite Eo, Es. split; reflexivity.
Defined.

(** ** After [close()] *)

Lemma sent_update_nth i f (l : list WebSocket) :
  (forall w, sent (f w) = sent w) ->
  map sent (update_nth i f l) = map sent l.
Proof.
  intros H. rewrite (map_update_nth _ _ sent f (fun v => v)) by exact H.
  now apply update_nth_id.
Qed.

Ltac same_sent :=
  let w := fresh "w" in
  intros w; simpl; try (destruct (readyState w)); reflexivity.

Lemma sent_handle h σ l :
  map sent (sockets (run h σ)) = l -> map sent (sockets (handle h σ)) = l.
Proof.
  intros H. unfold handle. destruct (option_nat_eqb _ _); [exact H|].
  destruct (ws (state σ)); [|exact H].
  unfold useEffect_cleanup, socket_close, run at 1. simpl.
  rewrite sent_update_nth by same_sent. exact H.
Qed.

(** Every event but the opening of a socket leaves what each socket has
    sent as it is; a valid submission adds a socket that has sent
    nothing. *)
Lemma sent_step d e σ σ' :
  d = IFRSAdvisor.deliver \/ d = Part001.deliver ->
  d e σ = Some σ' -> (forall s, e <> Socket_open s) ->
  map sent (sockets σ') = map sent (sockets σ)
  \/ map sent (sockets σ') = map sent (sockets σ) ++ [[]].
Proof.
  intros Hd H He.
  destruct e; try (now elim (He socket)).
  5: { (* submit *)
    destruct (transport_submitted d σ σ' Hd H)
      as [(_ & _ & Ek)|(Hv & _)]; [left; now rewrite Ek|].
    right. destruct Hd as [-> | ->]; open_deliver H; apply sent_handle;
      unfold run;
      [rewrite (IFRS_handleSubmit_valid σ Hv)
      |rewrite (Part001_handleSubmit_valid σ Hv)];
      simpl; now rewrite map_app. }
  all: left; destruct Hd as [-> | ->]; open_deliver H;
    try apply sent_handle; run_handler; simpl;
    rewrite ?sent_update_nth by same_sent; reflexivity.
Qed.

Lemma sent_frozen_step d e σ σ' socket w :
  d = IFRSAdvisor.deliver \/ d = Part001.deliver ->
  d e σ = Some σ' ->
  nth_error (sockets σ) socket = Some w -> shut socket σ = true ->
  option_map sent (nth_error (sockets σ') socket) = Some (sent w).
Proof.
  intros Hd H Hw Hsh.
  assert (Hcase : (exists s, e = Socket_open s) \/ forall s, e <> Socket_open s).
  { destruct e; try (right; discriminate). left. now exists socket0. }
  destruct Hcase as [[s ->]|He].
  - assert (Hs : exists w0, nth_error (sockets σ) s = Some w0
                            /\ readyState w0 = CONNECTING).
    { destruct Hd as [-> | ->];
        unfold IFRSAdvisor.deliver, Part001.deliver, deliver in H;
        destruct (nth_error (sockets σ) s) as [w0|]; try discriminate H;
        exists w0; (split; [reflexivity|]);
        destruct (readyState w0); try discriminate H; reflexivity. }
    destruct Hs as (w0 & Hw0 & Hr0).
    destruct (open_socket d s σ w0 Hd Hw0 Hr0) as (σ1 & H1 & Ek & _).
    rewrite H1 in H. injection H as <-. rewrite Ek, nth_error_update_nth.
    destruct (Nat.eqb_spec s socket) as [->|Hne]; [|now rewrite Hw].
    unfold shut, socket_state in Hsh. rewrite Hw0 in Hsh. simpl in Hsh.
    rewrite Hr0 in Hsh. discriminate.
  - assert (E : nth_error (map sent (sockets σ')) socket = Some (sent w)).
    { destruct (sent_step d e σ σ' Hd H He) as [-> | ->].
      - now rewrite nth_error_map, Hw.
      - rewrite nth_error_app1.
        + now rewrite nth_error_map, Hw.
        + rewrite length_map. apply nth_error_Some. congruence. }
    now rewrite nth_error_map in E.
Qed.

(** X18 (nothing is sent after [close()]).  Once [close()] has been called
    on a socket, by the clean-up of the [ws] effect when a new session
    replaces it or by the connection timer, or once it is closed, what it
    has sent never changes again: a socket that was replaced or timed out
    before it opened never sends its request. *)
Theorem nothing_is_sent_after_close
  (d : Event -> Sys -> option Sys) (es : list Event) (σ σ' : Sys)
  (socket : nat) (w : WebSocket) :
  d = IFRSAdvisor.deliver \/ d = Part001.deliver ->
  nth_error (sockets σ) socket = Some w ->
  shut socket σ = true ->
  deliver_all d es σ = Some σ' ->
  option_map sent (nth_error (sockets σ') socket) = Some (sent w).
Proof.
  intros Hd. revert σ w.
  induction es as [|e es IH]; simpl; intros σ w Hw Hsh H.
  - injection H as <-. now rewrite Hw.
  - destruct (d e σ) as [σ1|] eqn:He; [|discriminate].
    pose proof (sent_frozen_step d e σ σ1 socket w Hd He Hw Hsh) as E.
    destruct (nth_error (sockets σ1) socket) as [w1|] eqn:Hw1;
      [|discriminate E].
    simpl in E. injection E as E. rewrite <- E.
    apply (IH σ1 w1 Hw1); [|exact H].
    apply (shut_advances socket σ σ1); [|exact Hsh].
    now apply (sockets_advance_both d e σ σ1 Hd).
Qed.

Lemma nothing_is_sent_after_close_witness :
  exists σ σ',
    deliver_all Part001.deliver [Click_submit; Click_submit]
      (lease_typed Part001.deliver) = Some σ
    /\ deliver_all Part001.deliver
         [Socket_open 1; Time_passes 10000; Timer_fires 0;
          Socket_close 0 normal_closure] σ = Some σ'
    /\ option_map sent (nth_error (sockets σ') 0) = Some [].
Proof.
  destruct (deliver_all Part001.deliver [Click_submit; Click_submit]
              (lease_typed Part001.deliver)) as [σ|] eqn:H;
    [|vm_compute in H; discriminate H].
  destruct (deliver_all Part001.deliver
              [Socket_open 1; Time_passes 10000; Timer_fires 0;
               Socket_close 0 normal_closure] σ) as [σ'|] eqn:H';
    [|vm_compute in H; injection H as <-; vm_compute in H';
      discriminate H'].
  destruct (nth_error (sockets σ) 0) as [w|] eqn:Hw;
    [|vm_compute in H; injection H as <-; vm_compute in Hw;
      discriminate Hw].
  assert (Hsh : shut 0 σ = true).
  { vm_compute in H. injection H as <-. reflexivity. }
  assert (Hsent : sent w = []).
  { vm_compute in H. injection H as <-. vm_compute in Hw.
    injection Hw as <-. reflexivity. }
  exists σ, σ'. split; [reflexivity|]. split; [exact H'|].
  rewrite <- Hsent.
  exact (nothing_is_sent_after_close Part001.deliver _ σ σ' 0 w
           (or_intror eq_refl) Hw Hsh H').
Defined.

(** ** The typing bubbles *)

Lemma filter_filter_comm (A : Type) (f g : A -> bool) (l : list A) :
  filter f (filter g l) = filter g (filter f l).
Proof.
  induction l as [|x l IH]; simpl; [reflexivity|].
  destruct (g x) eqn:Eg, (f x) eqn:Ef; simpl; rewrite ?Eg, ?Ef, IH;
    reflexivity.
Qed.

Lemma filter_all (A : Type) (f : A -> bool) (l : list A) :
  (forall x, In x l -> f x = true) -> filter f l = l.
Proof.
  induction l as [|x l IH]; simpl; intros H; [reflexivity|].
  rewrite (H x) by now left. rewrite IH; [reflexivity|].
  intros y Hy. apply H. now right.
Qed.

(** Turning a flag off takes its number out of the flags that are on, and
    does nothing else to them. *)
Lemma typing_off k (t : JsObject bool) :
  NoDup (map fst t) ->
  filter (fun e => snd e) (obj_set k false t)
  = filter (fun e => negb (fst e =? k)) (filter (fun e => snd e) t).
Proof.
  induction t as [|[k' v'] t IH]; simpl; intros Hnd; [reflexivity|].
  inversion Hnd as [|? ? Hnotin Hnd']; subst.
  destruct (Z.eqb_spec k k') as [->|Hne]; simpl.
  - assert (E : filter (fun e => negb (fst e =? k'))
                  (filter (fun e : Z * bool => snd e) t)
                = filter (fun e => snd e) t).
    { apply filter_all. intros [j b] Hj. apply filter_In in Hj.
      destruct Hj as [Hj _]. simpl.
      destruct (Z.eqb_spec j k') as [->|]; [|reflexivity].
      exfalso. apply Hnotin. change k' with (fst (k', b)). now apply in_map. }
    destruct v'; simpl; rewrite ?Z.eqb_refl; simpl; now rewrite E.
  - destruct v'; simpl.
    + destruct (Z.eqb_spec k' k); [congruence|]. simpl. now rewrite IH.
    + now apply IH.
Qed.

Lemma typing_in_order_fresh tq : typing_in_order (initial_typing tq).
Proof.
  rewrite initial_typing_eq. split.
  - rewrite filter_all by (intros e He; apply in_map_iff in He;
                           destruct He as (k & <- & _); reflexivity).
    pose proof (numbers_sorted (List.length tq)) as Hs.
    induction Hs as [|k l Hl IH Hk]; simpl; constructor; [exact IH|].
    rewrite Forall_forall in *. intros e He. apply in_map_iff in He.
    destruct He as (j & <- & Hj). unfold lt_key. simpl. now apply Hk.
  - apply Forall_forall. intros e He _. apply in_map_iff in He.
    destruct He as (k & <- & Hk). simpl. apply in_numbers in Hk. lia.
Qed.

Lemma typing_in_order_off k t :
  NoDup (map fst t) -> typing_in_order t ->
  typing_in_order (obj_set k false t).
Proof.
  intros Hnd [Hs Hf]. split.
  - rewrite (typing_off k t Hnd). now apply StronglySorted_filter.
  - apply obj_set_forall; [discriminate|exact Hf].
Qed.

Lemma typing_in_order_step d e σ σ' :
  d = IFRSAdvisor.deliver \/ d = Part001.deliver ->
  d e σ = Some σ' -> well_keyed (state σ) ->
  typing_in_order (typing (state σ)) ->
  typing_in_order (typing (state σ')).
Proof.
  intros Hd H (_ & _ & Hnd) Hinv.
  destruct (event_cases e) as [->|[(socket & msg & ->)|[He Hother]]].
  - destruct (submit_state_both d σ σ' Hd H) as [-> | ->];
      [exact Hinv|apply typing_in_order_fresh].
  - destruct (answer_both d socket msg σ σ' Hd H) as (_ & Et & _).
    rewrite Et. now apply typing_in_order_off.
  - destruct (other_events_both d e σ σ' Hd H He Hother) as (_ & Et).
    now rewrite Et.
Qed.

Lemma typing_in_order_reachable d σ :
  d = IFRSAdvisor.deliver \/ d = Part001.deliver ->
  Reachable d σ -> typing_in_order (typing (state σ)).
Proof.
  intros Hd [es H].
  assert (Hgen : forall es σ0 σ',
             deliver_all d es σ0 = Some σ' -> Reachable d σ0 ->
             typing_in_order (typing (state σ0)) ->
             typing_in_order (typing (state σ'))).
  { clear H. induction es0 as [|e es0 IH]; simpl; intros σ0 σ' H Hr Hk.
    - now injection H as <-.
    - destruct (d e σ0) as [σ1|] eqn:He; [|discriminate].
      apply (IH _ _ H).
      + apply (reachable_run d [e] σ0 σ1 Hr). simpl. now rewrite He.
      + apply (typing_in_order_step d e σ0 σ1 Hd He); [|exact Hk].
        now apply (well_keyed_of_reachable d σ0 Hd). }
  apply (Hgen _ _ _ H).
  - now exists [].
  - split; constructor.
Qed.

(** X19 (the typing bubbles).  In every state the component reaches, the
    typing bubbles, which are rendered in the order of
    [Object.entries(typing)], come in strictly ascending order of their
    question numbers: each pending question has one bubble, and the
    bubbles follow the order of the questions. *)
Theorem typing_bubbles_ascending
  (d : Event -> Sys -> option Sys) (σ : Sys) :
  d = IFRSAdvisor.deliver \/ d = Part001.deliver ->
  Reachable d σ ->
  StronglySorted Z.lt (pendingNumbers (state σ)).
Proof.
  intros Hd Hr.
  destruct (typing_in_order_reachable d σ Hd Hr) as [Hs Hf].
  destruct (well_keyed_of_reachable d σ Hd Hr) as (_ & _ & Hnd).
  unfold pendingNumbers, Object_entries.
  apply StronglySorted_keys.
  rewrite filter_app. apply StronglySorted_app.
  - apply StronglySorted_filter. apply strictly_sorted.
    + apply (Array_sort_strongly_sorted (@fst Z bool)).
    + apply Permutation_NoDup
        with (l := map fst (filter (fun e => is_array_index (fst e))
                              (typing (state σ)))).
      * apply Permutation_map, Permutation_sym, Array_sort_perm.
      * clear Hs Hf. induction (typing (state σ)) as [|[k b] t IH];
          simpl; [constructor|].
        inversion Hnd as [|? ? Hnotin Hnd']; subst.
        destruct (is_array_index k); [|now apply IH].
        simpl. constructor; [|now apply IH].
        intros Hin. apply Hnotin. apply in_map_iff in Hin.
        destruct Hin as (e & <- & He). apply filter_In in He.
        now apply in_map.
  - rewrite filter_filter_comm. now apply StronglySorted_filter.
  - intros a b Ha Hb. apply filter_In in Ha. destruct Ha as [Ha _].
    apply (Permutation_in a (Array_sort_perm _ _)) in Ha.
    apply filter_In in Ha. destruct Ha as [_ Ha].
    apply filter_In in Hb. destruct Hb as [Hb Hbt].
    apply filter_In in Hb. destruct Hb as [Hb Hbi].
    rewrite Forall_forall in Hf. specialize (Hf b Hb Hbt).
    unfold is_array_index in *. unfold lt_key. lia.
Qed.

Lemma typing_bubbles_ascending_witness :
  StronglySorted Z.lt
    (pendingNumbers (state (lease_open IFRSAdvisor.deliver))).
Proof.
  exact (typing_bubbles_ascending IFRSAdvisor.deliver
           (lease_open IFRSAdvisor.deliver) (or_introl eq_refl)
           lease_open_reachable).
Defined.

(** ** The connection timer and the awaiting indicator *)

Lemma live_socket_is_ws σ s :
  one_transport σ ->
  socket_state s σ = Some CONNECTING \/ socket_state s σ = Some OPEN ->
  ws (state σ) = Some s.
Proof.
  intros [_ Hshut] Hs.
  assert (Hlt : (s < List.length (sockets σ))%nat).
  { apply nth_error_Some. unfold socket_state in Hs.
    destruct (nth_error (sockets σ) s); [discriminate|].
    destruct Hs; discriminate. }
  destruct (ws (state σ)) as [s0|] eqn:Ew.
  - destruct (Nat.eq_dec s0 s) as [->|Hne]; [reflexivity|].
    assert (Hsh : shut s σ = true) by (apply Hshut; [exact Hlt|congruence]).
    unfold shut in Hsh. destruct Hs as [Hs|Hs]; rewrite Hs in Hsh;
      discriminate.
  - assert (Hsh : shut s σ = true) by (apply Hshut; [exact Hlt|discriminate]).
    unfold shut in Hsh. destruct Hs as [Hs|Hs]; rewrite Hs in Hsh;
      discriminate.
Qed.

Lemma advances_run d es :
  d = IFRSAdvisor.deliver \/ d = Part001.deliver ->
  forall σ σ',
    deliver_all d es σ = Some σ' -> advances (sockets σ) (sockets σ').
Proof.
  intros Hd. induction es as [|e es IH]; simpl; intros σ σ' H.
  - injection H as <-. apply advances_refl.
  - destruct (d e σ) as [σ1|] eqn:He; [|discriminate].
    eapply advances_trans; [|apply (IH _ _ H)].
    now apply (sockets_advance_both d e σ σ1 Hd).
Qed.

(** A socket that is connecting has been connecting ever since it was
    created. *)
Lemma connecting_before d es σ σ' s :
  d = IFRSAdvisor.deliver \/ d = Part001.deliver ->
  deliver_all d es σ = Some σ' ->
  (s < List.length (sockets σ))%nat ->
  socket_state s σ' = Some CONNECTING ->
  socket_state s σ = Some CONNECTING.
Proof.
  intros Hd H Hlt Hc. unfold socket_state in *.
  destruct (nth_error (sockets σ) s) as [w|] eqn:Hw;
    [|apply nth_error_None in Hw; lia].
  destruct (advances_run d es Hd σ σ' H s w Hw) as (w' & Hw' & Hrank).
  rewrite Hw' in Hc. simpl in *. injection Hc as Hc. rewrite Hc in Hrank.
  destruct (readyState w); simpl in Hrank; try lia. reflexivity.
Qed.

(** While the socket of the session is connecting, the indicator stays on
    unless an error or close event is handled: only the session's socket
    can open or receive a message, and only its own timer can close it. *)
Lemma Part001_awaiting_kept e σ σ' s :
  Reachable Part001.deliver σ ->
  Part001.deliver e σ = Some σ' -> is_failure e = false ->
  ws (state σ) = Some s -> sessionLoading (state σ) = true ->
  socket_state s σ = Some CONNECTING ->
  socket_state s σ' = Some CONNECTING ->
  ws (state σ') = Some s /\ sessionLoading (state σ') = true.
Proof.
  intros Hr H Hf Hws Hl Hc Hc'.
  pose proof (one_transport_reachable Part001.deliver σ (or_intror eq_refl) Hr)
    as Hone.
  assert (Hsame : state σ' = state σ ->
                  ws (state σ') = Some s /\ sessionLoading (state σ') = true).
  { intros ->. now split. }
  assert (Hedit : is_edit e = true ->
                  ws (state σ') = Some s /\ sessionLoading (state σ') = true).
  { intros He.
    destruct (edit_effect Part001.deliver e σ (or_intror eq_refl) He)
      as (σ1 & H1 & _ & _ & _ & _ & Ew & El & _).
    rewrite H1 in H. injection H as <-. split; congruence. }
  destruct e; try discriminate Hf; try (now apply Hedit).
  - (* submit *)
    destruct (transport_submitted Part001.deliver σ σ' (or_intror eq_refl) H)
      as [(_ & Es & _)|(_ & _ & _ & Hold)]; [now apply Hsame|].
    exfalso.
    assert (Hlt : (s < List.length (sockets σ))%nat).
    { apply nth_error_Some. unfold socket_state in Hc.
      destruct (nth_error (sockets σ) s); discriminate. }
    pose proof (Hold s Hws Hlt) as Hsh. unfold shut in Hsh.
    rewrite Hc' in Hsh. discriminate.
  - (* open *)
    destruct (connecting_socket Part001.deliver socket σ σ'
                (or_intror eq_refl) H) as (w & Hw & Hrw).
    destruct (open_socket Part001.deliver socket σ w (or_intror eq_refl)
                Hw Hrw) as (σ1 & H1 & _ & Es).
    rewrite H1 in H. injection H as <-. now apply Hsame.
  - (* message *)
    exfalso. open_deliver H.
    assert (Ho : socket_state socket σ = Some OPEN).
    { unfold socket_state. rewrite Heqo. simpl.
      destruct (readyState w); try discriminate Heqb. reflexivity. }
    pose proof (live_socket_is_ws σ socket Hone (or_intror Ho)) as E.
    rewrite Hws in E. injection E as ->. congruence.
  - (* the timer fires *)
    open_deliver H.
    destruct (Part001_callback_effect (timer_socket t) (mark_fired timer σ))
      as (_ & Ev & Ew).
    rewrite (@handle_same_ws _ _ Ew) in Hc', Hsame |- *.
    destruct (connecting_at (timer_socket t) (views (mark_fired timer σ)))
      eqn:Ec.
    + exfalso. apply connecting_at_iff in Ec.
      change (views (mark_fired timer σ)) with (views σ) in Ec, Ev.
      rewrite <- socket_state_views in Ec.
      pose proof (live_socket_is_ws σ _ Hone (or_introl Ec)) as E.
      rewrite Hws in E. injection E as E.
      rewrite socket_state_views, Ev, <- E, nth_error_update_nth,
        Nat.eqb_refl in Hc'.
      destruct (nth_error (views σ) s); discriminate.
    + apply Hsame. apply not_true_iff_false in Ec.
      rewrite connecting_at_iff in Ec.
      change (views (mark_fired timer σ)) with (views σ) in Ec.
      rewrite <- socket_state_views in Ec. unfold socket_state in Ec.
      unfold Part001.connectTimeout_callback, run, bind, socket_readyState.
      simpl.
      destruct (nth_error (sockets σ) (timer_socket t)) as [w|];
        [|reflexivity].
      simpl in Ec. destruct (readyState w); try reflexivity. now elim Ec.
  - (* time passes *)
    open_deliver H. now apply Hsame.
  - (* the server starts closing *)
    open_deliver H. now apply Hsame.
Qed.

Lemma Part001_awaiting_run es s :
  forall σ σ',
    Reachable Part001.deliver σ ->
    Part001.deliver_all es σ = Some σ' ->
    existsb is_failure es = false ->
    ws (state σ) = Some s -> sessionLoading (state σ) = true ->
    socket_state s σ = Some CONNECTING ->
    socket_state s σ' = Some CONNECTING ->
    sessionLoading (state σ') = true.
Proof.
  unfold Part001.deliver_all.
  induction es as [|e es IH]; simpl; intros σ σ' Hr H Hf Hws Hl Hc Hc'.
  - now injection H as <-.
  - destruct (Part001.deliver e σ) as [σ1|] eqn:He; [|discriminate].
    apply orb_false_elim in Hf. destruct Hf as [Hfe Hf].
    assert (Hc1 : socket_state s σ1 = Some CONNECTING).
    { apply (connecting_before Part001.deliver es σ1 σ' s
               (or_intror eq_refl) H); [|exact Hc'].
      unfold socket_state in Hc.
      destruct (nth_error (sockets σ) s) as [w|] eqn:Hw; [|discriminate].
      destruct (@Part001_sockets_advance _ _ _ He s w Hw) as (w' & Hw' & _).
      apply nth_error_Some. congruence. }
    destruct (Part001_awaiting_kept e σ σ1 s Hr He Hfe Hws Hl Hc Hc1)
      as [Hws1 Hl1].
    apply (IH σ1 σ'); auto.
    apply (reachable_run Part001.deliver [e] σ σ1 Hr). simpl.
    now rewrite He.
Qed.

(** C7, as stated, fails in the earlier file, which arms no timer: ten
    minutes after the submission the socket is still connecting, the
    awaiting indicator is still on, nothing has been shown to the user,
    and there is no timer that could fire. *)
Lemma C7_no_timeout_in_the_earlier_file :
  exists σ,
    IFRSAdvisor.deliver_all
      (lease_form ++ [Click_submit; Time_passes 10000; Time_passes 600000])
      initial = Some σ
    /\ now σ = 610000
    /\ socket_state 0 σ = Some CONNECTING
    /\ sessionLoading (state σ) = true
    /\ toasts σ = []
    /\ timers σ = []
    /\ forall t, IFRSAdvisor.deliver (Timer_fires t) σ = None.
Proof.
  eexists. split; [vm_compute; reflexivity|].
  repeat split. intros [|t]; reflexivity.
Qed.

(** C7 (connection timeout), as amended: in the revision that has the
    timer.  A valid submission at time [now σ] turns the awaiting
    indicator on, creates a socket and arms a timer for it, due 10000 ms
    later.  Whatever happens afterwards, if that socket is still
    connecting then the timer has not fired before it is due and cannot
    fire earlier, and the indicator is still on unless an error or close
    event (of an earlier socket) was handled meanwhile; once 10000 ms have
    passed the timer fires: its callback closes the socket, turns the
    awaiting indicator off and shows the timeout toast, whose title is not
    that of the toast [onerror] shows for a transport error.  The earlier
    file arms no timer: in no state it reaches is there a timer, and none
    can fire. *)
Theorem C7_connection_timeout (σ σ1 σ2 : Sys) (es : list Event) :
  Reachable Part001.deliver σ ->
  valid_input (state σ) = true ->
  Part001.deliver Click_submit σ = Some σ1 ->
  Part001.deliver_all es σ1 = Some σ2 ->
  let socket := List.length (sockets σ) in
  let connectTimeout := List.length (timers σ) in
  socket_state socket σ2 = Some CONNECTING ->
  sessionLoading (state σ1) = true
  /\ (existsb is_failure es = false -> sessionLoading (state σ2) = true)
  /\ pending connectTimeout σ2 = true
  /\ (now σ2 < now σ + 10000 ->
      Part001.deliver (Timer_fires connectTimeout) σ2 = None)
  /\ (now σ + 10000 <= now σ2 ->
      exists σ3,
        Part001.deliver (Timer_fires connectTimeout) σ2 = Some σ3
        /\ socket_state socket σ3 = Some CLOSING
        /\ state σ3 = awaiting_off (state σ2)
        /\ sessionLoading (state σ3) = false
        /\ toasts σ3 = toasts σ2 ++ [ConnectionTimeout])
  /\ (forall scope,
        toasts (run (Part001.onerror socket scope) σ2)
        = toasts σ2 ++ [ConnectionError])
  /\ title ConnectionTimeout <> title ConnectionError
  /\ (forall σi,
        Reachable IFRSAdvisor.deliver σi ->
        timers σi = []
        /\ forall t, IFRSAdvisor.deliver (Timer_fires t) σi = None).
Proof.
  intros Hr Hv H1 Hes socket connectTimeout Hc.
  assert (Hw : watches connectTimeout socket (now σ + 10000) σ2).
  { apply (watches_run es _ _ _ σ1 σ2 Hes).
    apply Part001_submit_arms; auto. now apply timers_known_reachable. }
  destruct (Part001_timeout_fires _ _ _ _ Hw Hc) as [Hearly Hdue].
  destruct (Part001_submit_valid σ Hv) as (σ1' & H1' & Es1 & Hc1 & _).
  rewrite H1 in H1'. injection H1' as <-.
  assert (Hr1 : Reachable Part001.deliver σ1).
  { apply (reachable_run Part001.deliver [Click_submit] σ σ1 Hr).
    now rewrite (deliver_all_step _ _ _ _ _ H1). }
  split; [now rewrite Es1|].
  split.
  { intros Hf.
    apply (Part001_awaiting_run es socket σ1 σ2 Hr1 Hes Hf); auto;
      now rewrite Es1. }
  split.
  { destruct Hw as ((tm & Ht & _ & _ & Hp) & _).
    rewrite socket_state_views in Hc. destruct (Hp Hc) as [Hcl Hfi].
    unfold pending. now rewrite Ht, Hcl, Hfi. }
  split; [exact Hearly|]. split.
  { intros Hle. destruct (Hdue Hle) as (σ3 & H3 & Hs3 & Es3 & Et3).
    exists σ3. repeat split; auto. now rewrite Es3. }
  split.
  { intros scope. unfold Part001.onerror, Part001.clear_connectTimeout,
      run, bind. now destruct (captured_connectTimeout scope). }
  split; [apply timeout_is_not_the_generic_error|].
  intros σi Hri. pose proof (IFRS_no_timer σi Hri) as Et.
  split; [exact Et|]. intros t. unfold IFRSAdvisor.deliver, deliver.
  rewrite Et. now destruct t.
Qed.

Lemma C7_connection_timeout_witness :
  exists σ1 σ2 σ3,
    Part001.deliver Click_submit (lease_typed Part001.deliver) = Some σ1
    /\ Part001.deliver_all [Time_passes 4000; Time_passes 6000] σ1 = Some σ2
    /\ sessionLoading (state σ2) = true
    /\ Part001.deliver (Timer_fires 0) σ2 = Some σ3
    /\ sessionLoading (state σ3) = false
    /\ socket_state 0 σ3 = Some CLOSING
    /\ toasts σ3 = [ConnectionTimeout].
Proof.
  destruct (Part001.deliver Click_submit (lease_typed Part001.deliver))
    as [σ1|] eqn:H1; [|vm_compute in H1; discriminate H1].
  destruct (Part001.deliver_all [Time_passes 4000; Time_passes 6000] σ1)
    as [σ2|] eqn:H2;
    [|vm_compute in H1; injection H1 as <-; vm_compute in H2;
      discriminate H2].
  assert (Hc : socket_state 0 σ2 = Some CONNECTING).
  { vm_compute in H1. injection H1 as <-. vm_compute in H2.
    injection H2 as <-. reflexivity. }
  assert (Hnow : now (lease_typed Part001.deliver) + 10000 <= now σ2).
  { vm_compute in H1. injection H1 as <-. vm_compute in H2.
    injection H2 as <-. vm_compute. discriminate. }
  destruct (C7_connection_timeout (lease_typed Part001.deliver) σ1 σ2
              [Time_passes 4000; Time_passes 6000]
              lease_typed_reachable eq_refl H1 H2 Hc)
    as (_ & Hon & _ & _ & Hdue & _).
  destruct (Hdue Hnow) as (σ3 & H3 & Hs3 & _ & El3 & Et).
  exists σ1, σ2, σ3. split; [reflexivity|]. split; [exact H2|].
  split; [exact (Hon eq_refl)|]. split; [exact H3|].
  split; [exact El3|]. split; [exact Hs3|].
  rewrite Et. vm_compute in H1. injection H1 as <-. vm_compute in H2.
  injection H2 as <-. reflexivity.
Defined.
